(** * Justified mosaic layout: a shallow embedding of [computeMosaicLayout]

    The development follows the TypeScript source of the collage component:
    [getAspectRatioFromUrl], [computeMosaicLayout] and the placement that
    [mountImgCollage] derives from a layout.

    JavaScript numbers are kept behind an interface ([JSNumber]): the layout
    code is written once against that interface, so that everything that
    only depends on the control flow of the code (which indices are emitted,
    how the loops unfold) is proved for every implementation of the
    arithmetic, floating point included.

    Numeric statements are proved for the instance of exact rational
    arithmetic ([QNumber]).  Rounding error, infinities and NaN are outside
    that instance: integers are parsed exactly, and where JavaScript would
    divide by zero the instance has a finite value of its own.  No
    division has a zero divisor for a positive container and positive
    measured ratios (the last theorem of the rational part), which is where
    the instance and the source agree up to rounding.

    The numbers of the source themselves are a third reading of the
    interface ([FloatNumber], binary64 with its rounding, infinities and
    NaN).  The code is evaluated in it where a statement of exact
    arithmetic does not survive the rounding.

    Around the layout, the development covers the component that uses it:
    the pointer handlers [render] attaches to a wrapper, the life of a
    mounted collage ([render], [loadMissingRatios], [update], [destroy]),
    [ensureBaseLayout], the attribute parsers of the entry script, and the
    layout of the first version of the component.  Strings that are taken
    apart are lists of one-byte code units; the positions and sizes a
    handler reads back from the style of a wrapper are the numbers that
    were written there. *)

From Stdlib Require Import String Ascii List Bool Arith Lia ZArith.
From Stdlib Require Import QArith Qabs Qminmax Qround.
From Stdlib Require Import Reals Qreals Psatz.
From Stdlib Require Floats.
Import ListNotations.
Close Scope R_scope.
Close Scope Q_scope.
Local Open Scope list_scope.

(** ** The number interface *)

Class JSNumber (num : Type) : Type := {
  num_zero : num;                       (* literal 0 *)
  num_one : num;                        (* literal 1 *)
  num_two : num;                        (* literal 2 *)
  num_default_ratio : num;              (* literal 1.5 *)
  num_of_nat : nat -> num;              (* a length or a parsed integer *)
  num_add : num -> num -> num;
  num_sub : num -> num -> num;
  num_mul : num -> num -> num;
  num_div : num -> num -> num;
  num_abs : num -> num;                 (* Math.abs *)
  num_round_sqrt : num -> num;          (* Math.round(Math.sqrt(x)) *)
  num_min : num -> num -> num;          (* Math.min *)
  num_max : num -> num -> num;          (* Math.max *)
  num_lt : num -> num -> bool;          (* a < b *)
  num_gt : num -> num -> bool;          (* a > b *)
  num_eq : num -> num -> bool;          (* a === b *)
  num_truthy : num -> bool              (* the operand test of || *)
}.

Declare Scope js_scope.
Delimit Scope js_scope with js.
Infix "+" := num_add : js_scope.
Infix "-" := num_sub : js_scope.
Infix "*" := num_mul : js_scope.
Infix "/" := num_div : js_scope.
Infix "<?" := num_lt : js_scope.
Infix ">?" := num_gt : js_scope.
Infix "=?" := num_eq : js_scope.

(** ** Exact rational arithmetic *)

Definition Qltb (a b : Q) : bool := negb (Qle_bool b a).

(** [Math.round (Math.sqrt x)]: [Math.round] rounds to the nearest integer,
    halves upwards, so the result is the largest integer [k] with
    [k - 1/2 <= sqrt x], that is with [2k - 1 <= sqrt (4x)]. *)
Definition Qround_sqrt (x : Q) : Q :=
  inject_Z ((Z.sqrt (Qfloor (4 * x)%Q) + 1) / 2).

#[export] Instance QNumber : JSNumber Q := {
  num_zero := 0%Q;
  num_one := 1%Q;
  num_two := 2%Q;
  num_default_ratio := (3 # 2)%Q;
  num_of_nat := fun n => inject_Z (Z.of_nat n);
  num_add := Qplus;
  num_sub := Qminus;
  num_mul := Qmult;
  num_div := Qdiv;
  num_abs := Qabs;
  num_round_sqrt := Qround_sqrt;
  num_min := Qmin;
  num_max := Qmax;
  num_lt := Qltb;
  num_gt := fun a b => Qltb b a;
  num_eq := Qeq_bool;
  num_truthy := fun a => negb (Qeq_bool a 0%Q)
}.

(** ** The numbers of the source: binary64

    JavaScript numbers are IEEE 754 binary64 values, and so are the
    primitive floats: sum, difference, product, quotient and square root
    are correctly rounded to the nearest value, ties to even, with
    infinities, signed zeros and NaN.  What the source takes from [Math]
    and from [parseInt] is written out here. *)

Module Binary64.

Definition float : Set := PrimFloat.float.

(** The number nearest to an integer: the value of an array length, and
    of the decimal digits [parseInt] reads (past its twentieth digit an
    engine may read zeros, which changes the last bits of the number at
    most; a number too large for binary64 is the infinity either way). *)
Definition of_Z (z : Z) : float :=
  FloatOps.SF2Prim
    (SpecFloat.binary_normalize FloatOps.prec FloatOps.emax z 0 false).

Definition of_nat (n : nat) : float := of_Z (Z.of_nat n).

(** [Math.round]: the nearest integer, halves towards plus infinity.  NaN,
    the infinities, the zeros and the numbers without a fractional part
    are returned as they are; for [m * 2^-p] the integer is the floor of
    [(2m + 2^p) / 2^(p+1)], and a result of zero keeps the sign of the
    argument. *)
Definition round (x : float) : float :=
  match FloatOps.Prim2SF x with
  | SpecFloat.S754_finite s m (Zneg p) =>
      let d := Z.pow_pos 2 p in
      let sm := if s then Z.opp (Zpos m) else Zpos m in
      let n := Z.div (2 * sm + d) (2 * d) in
      if Z.eqb n 0
      then (if s then PrimFloat.opp PrimFloat.zero else PrimFloat.zero)
      else of_Z n
  | _ => x
  end.

(** [Math.max] and [Math.min]: NaN if an argument is NaN, and the
    positive zero is the larger of the two zeros. *)
Definition max (a b : float) : float :=
  if PrimFloat.is_nan a || PrimFloat.is_nan b then PrimFloat.nan
  else if PrimFloat.ltb a b then b
  else if PrimFloat.ltb b a then a
  else match PrimFloat.classify a with
       | FloatClass.NZero => b
       | _ => a
       end.

Definition min (a b : float) : float :=
  if PrimFloat.is_nan a || PrimFloat.is_nan b then PrimFloat.nan
  else if PrimFloat.ltb a b then a
  else if PrimFloat.ltb b a then b
  else match PrimFloat.classify a with
       | FloatClass.PZero => b
       | _ => a
       end.

(** The falsy numbers are the two zeros and NaN. *)
Definition truthy (x : float) : bool :=
  negb (PrimFloat.eqb x PrimFloat.zero || PrimFloat.is_nan x).


End Binary64.

#[export] Instance FloatNumber : JSNumber Binary64.float | 10 := {
  num_zero := PrimFloat.zero;
  num_one := PrimFloat.one;
  num_two := PrimFloat.two;
  num_default_ratio :=                  (* 1.5 is 3/2 exactly *)
    PrimFloat.div (Binary64.of_nat 3) PrimFloat.two;
  num_of_nat := Binary64.of_nat;
  num_add := PrimFloat.add;
  num_sub := PrimFloat.sub;
  num_mul := PrimFloat.mul;
  num_div := PrimFloat.div;
  num_abs := PrimFloat.abs;
  num_round_sqrt := fun x => Binary64.round (PrimFloat.sqrt x);
  num_min := Binary64.min;
  num_max := Binary64.max;
  num_lt := PrimFloat.ltb;
  num_gt := fun a b => PrimFloat.ltb b a;
  num_eq := PrimFloat.eqb;
  num_truthy := Binary64.truthy
}.

(** ** The regular expression of [getAspectRatioFromUrl]

    A small backtracking matcher for the constructs the pattern uses:
    literals, a greedy starred or plussed character class, capture groups
    (not nested; numbered in the order they close), a greedy optional part
    and the end anchor.  Strings are sequences of one-byte code units, so
    the two line separators beyond a byte, which [.] also refuses, do not
    occur. *)

Module Regex.

Inductive cclass : Type :=
| Dot                                   (* .   any unit but a line end *)
| Digit.                                (* \d  0..9 *)

Inductive regex : Type :=
| Lit (l : list ascii)
| Star (c : cclass)
| Plus (c : cclass)
| Group (r : regex)
| Opt (r : regex)
| End
| Seq (r1 r2 : regex).

Definition is_digit (c : ascii) : bool :=
  let n := nat_of_ascii c in (48 <=? n)%nat && (n <=? 57)%nat.

Definition is_line_end (c : ascii) : bool :=
  let n := nat_of_ascii c in (n =? 10)%nat || (n =? 13)%nat.

Definition in_class (cl : cclass) (c : ascii) : bool :=
  match cl with
  | Dot => negb (is_line_end c)
  | Digit => is_digit c
  end.

Fixpoint strip_prefix (l s : list ascii) : option (list ascii) :=
  match l, s with
  | [], _ => Some s
  | a :: l', b :: s' => if Ascii.eqb a b then strip_prefix l' s' else None
  | _ :: _, [] => None
  end.

Definition or_else {A} (x y : option A) : option A :=
  match x with Some _ => x | None => y end.

Section Matcher.
Context {A : Type}.

(** Greedy repetition: take as many units as the class allows, and give
    units back one at a time while the rest of the pattern fails. *)
Fixpoint star (p : ascii -> bool) (s : list ascii)
         (k : list ascii -> option A) : option A :=
  match s with
  | c :: s' => if p c then or_else (star p s' k) (k s) else k s
  | [] => k []
  end.

Fixpoint rmatch (r : regex) (s : list ascii) (caps : list (list ascii))
         (k : list ascii -> list (list ascii) -> option A) : option A :=
  match r with
  | Lit l =>
      match strip_prefix l s with
      | Some s' => k s' caps
      | None => None
      end
  | Star c => star (in_class c) s (fun s' => k s' caps)
  | Plus c =>
      match s with
      | a :: s' =>
          if in_class c a then star (in_class c) s' (fun s'' => k s'' caps)
          else None
      | [] => None
      end
  | Group r1 =>
      rmatch r1 s caps
        (fun s' caps' =>
           k s' (caps' ++ [firstn (length s - length s') s]))
  | Opt r1 => or_else (rmatch r1 s caps k) (k s caps)
  | End =>
      match s with
      | [] => k [] caps
      | _ :: _ => None
      end
  | Seq r1 r2 => rmatch r1 s caps (fun s' caps' => rmatch r2 s' caps' k)
  end.
End Matcher.

(** [re.exec(src)]: the leftmost start position at which the pattern
    matches; the result is the list of captured groups. *)
Fixpoint exec (r : regex) (s : list ascii) : option (list (list ascii)) :=
  or_else (rmatch r s [] (fun _ caps => Some caps))
          (match s with
           | [] => None
           | _ :: s' => exec r s'
           end).

(** What the pattern language means: [matches r s s' caps] when [r] matches
    the beginning of [s], leaves [s'] and captures [caps]. *)
Inductive matches : regex -> list ascii -> list ascii -> list (list ascii)
                    -> Prop :=
| M_Lit l s' : matches (Lit l) (l ++ s') s' []
| M_Star c u s' :
    Forall (fun a => in_class c a = true) u ->
    matches (Star c) (u ++ s') s' []
| M_Plus c a u s' :
    in_class c a = true ->
    Forall (fun a => in_class c a = true) u ->
    matches (Plus c) (a :: u ++ s') s' []
| M_Group r s s' caps :
    matches r s s' caps ->
    matches (Group r) s s' (caps ++ [firstn (length s - length s') s])
| M_OptSome r s s' caps : matches r s s' caps -> matches (Opt r) s s' caps
| M_OptNone r s : matches (Opt r) s s []
| M_End : matches End [] [] []
| M_Seq r1 r2 s s1 s2 caps1 caps2 :
    matches r1 s s1 caps1 ->
    matches r2 s1 s2 caps2 ->
    matches (Seq r1 r2) s s2 (caps1 ++ caps2).

(** [parseInt(digits, 10)] on a string of decimal digits. *)
Definition digit_value (c : ascii) : nat := nat_of_ascii c - 48.

Definition parseInt (ds : list ascii) : nat :=
  fold_left (fun acc c => 10 * acc + digit_value c) ds 0.

End Regex.

Import Regex.

(** /picsum\.photos\/.*\/(\d+)\/(\d+)(?:\/)?$/ *)
Definition picsumPattern : regex :=
  Seq (Lit (list_ascii_of_string "picsum.photos/"))
  (Seq (Star Dot)
  (Seq (Lit (list_ascii_of_string "/"))
  (Seq (Group (Plus Digit))
  (Seq (Lit (list_ascii_of_string "/"))
  (Seq (Group (Plus Digit))
  (Seq (Opt (Lit (list_ascii_of_string "/")))
       End)))))).

Definition slash : ascii := "/"%char.

(** The sources the pattern accepts, spelled out: somewhere the host and a
    slash, any units but line ends, and at the very end [/W/H] with an
    optional last slash, [W] and [H] being non-empty runs of digits. *)
Definition PicsumShape (s W H : list ascii) : Prop :=
  exists pre mid opt,
    s = pre ++ list_ascii_of_string "picsum.photos/" ++ mid
            ++ [slash] ++ W ++ [slash] ++ H ++ opt
    /\ Forall (fun a => in_class Dot a = true) mid
    /\ W <> [] /\ Forall (fun a => in_class Digit a = true) W
    /\ H <> [] /\ Forall (fun a => in_class Digit a = true) H
    /\ (opt = [] \/ opt = [slash]).

(** The two parsed integers [w] and [h] of a matching source. *)
Definition picsumDims (src : string) : option (nat * nat) :=
  match exec picsumPattern (list_ascii_of_string src) with
  | Some [w; h] => Some (parseInt w, parseInt h)
  | _ => None
  end.

Section Layout.
Context {num : Type} {JS : JSNumber num}.
Local Open Scope js_scope.

(** [getAspectRatioFromUrl]: [null] is [None]. *)
Definition getAspectRatioFromUrl (src : string) : option num :=
  match picsumDims src with
  | None => None
  | Some (w, h) =>
      if Nat.eqb h 0 then None else Some (num_of_nat w / num_of_nat h)
  end.

(** [a || b] where [a] may be absent ([undefined] or [null]). *)
Definition js_or (a : option num) (b : num) : num :=
  match a with
  | Some v => if num_truthy v then v else b
  | None => b
  end.

(** [ratios[src] || getAspectRatioFromUrl(src) || 1.5] *)
Definition resolveRatio (ratios : string -> option num) (src : string) : num :=
  match ratios src with
  | Some v =>
      if num_truthy v then v
      else js_or (getAspectRatioFromUrl src) num_default_ratio
  | None => js_or (getAspectRatioFromUrl src) num_default_ratio
  end.

(** The same line for any object passed as [ratios].  A lookup answers
    [undefined], a number, or some other value, of which only the
    truthiness plays a part: a plain object answers the names of the
    properties it inherits ([constructor], [toString], ...) with a
    function, which is truthy.  [getAspectRatioFromUrl] answers a number
    or [null], which is falsy. *)
Inductive JSValue : Type :=
| VUndefined
| VNumber (v : num)
| VOther (truthy : bool).

Definition truthyValue (v : JSValue) : bool :=
  match v with
  | VUndefined => false
  | VNumber v => num_truthy v
  | VOther truthy => truthy
  end.

(** [a || b] *)
Definition orValue (a b : JSValue) : JSValue :=
  if truthyValue a then a else b.

Definition ofNullable (o : option num) : JSValue :=
  match o with
  | Some v => VNumber v
  | None => VOther false
  end.

(** [ratios[src] || getAspectRatioFromUrl(src) || 1.5] *)
Definition ratioValue (ratios : string -> JSValue) (src : string)
  : JSValue :=
  orValue (orValue (ratios src) (ofNullable (getAspectRatioFromUrl src)))
          (VNumber num_default_ratio).

(** A mapping that answers with numbers or not at all, as a mapping of
    values. *)
Definition numericMapping (ratios : string -> option num)
  : string -> JSValue :=
  fun src =>
    match ratios src with
    | Some v => VNumber v
    | None => VUndefined
    end.

(** *** Data of [computeMosaicLayout] *)

Record Item : Type := mkItem {
  item_src : string;
  item_index : nat;
  item_ratio : num
}.

Record Row : Type := mkRow {
  row_items : list Item;
  sumRatio : num
}.

(** An entry of [RowLayout.items]. *)
Record Cell : Type := mkCell {
  cell_index : nat;
  cell_src : string;
  cell_x : num;
  cell_width : num;
  cell_height : num
}.

Record RowLayout : Type := mkRowLayout {
  rl_height : num;
  rl_items : list Cell
}.

(** An entry of [LayoutResult.items]. *)
Record LayoutItem : Type := mkLayoutItem {
  li_index : nat;
  li_src : string;
  li_x : num;
  li_y : num;
  li_width : num;
  li_height : num
}.

Record LayoutResult : Type := mkLayoutResult {
  items : list LayoutItem;
  totalHeight : num;
  scale : num;
  topOffset : num;
  leftOffset : num
}.

(** *** Array iteration *)

(** [arr.map((x, i) => f x i)], counting from [i]. *)
Fixpoint mapi_from {A B : Type} (f : A -> nat -> B) (i : nat) (l : list A)
  : list B :=
  match l with
  | [] => []
  | a :: l' => f a i :: mapi_from f (S i) l'
  end.

(** [arr.forEach((x, i) => ...)] threading the variables the callback
    assigns as a state, counting from [i]. *)
Fixpoint forEachi_from {A St : Type} (f : St -> A -> nat -> St) (i : nat)
         (l : list A) (st : St) : St :=
  match l with
  | [] => st
  | a :: l' => forEachi_from f (S i) l' (f st a i)
  end.

(** *** Step 1: items and their ratios *)

Definition makeItems (images : list string) (ratios : string -> option num)
  : list Item :=
  mapi_from (fun src index => mkItem src index (resolveRatio ratios src))
            0 images.

Definition sumRatios (its : list Item) : num :=
  fold_left (fun sum item => sum + item_ratio item) its num_zero.

(** *** Step 2: the number of rows *)

Definition estimateRowCount (totalRatio containerRatio : num) (n : nat)
  : num :=
  let K := num_round_sqrt (totalRatio / containerRatio) in
  num_max num_one (num_min K (num_of_nat n)).

(** *** Step 3: partition into rows *)

Record PartState : Type := mkPartState {
  ps_rows : list Row;
  ps_currentSlice : list Item;
  ps_currentSum : num
}.

(** The body of the [items.forEach] of the partition.  [items[i + 1]] is
    read only when [i] is not the last index, where it is in range
    (lemma [next_item_in_range]); the [None] branch stands for the
    out-of-range read, which the loop never performs. *)
Definition partitionStep (its : list Item) (K idealRatioPerRow : num)
           (st : PartState) (item : Item) (i : nat) : PartState :=
  let currentSlice := ps_currentSlice st ++ [item] in
  let currentSum := ps_currentSum st + item_ratio item in
  if Nat.eqb i (length its - 1) then
    mkPartState (ps_rows st ++ [mkRow currentSlice currentSum])
                currentSlice currentSum
  else if num_of_nat (length (ps_rows st)) <? K - num_one then
    match nth_error its (i + 1) with
    | Some next =>
        let currentDiff := num_abs (currentSum - idealRatioPerRow) in
        let nextRatio := item_ratio next in
        let nextDiff :=
          num_abs ((currentSum + nextRatio) - idealRatioPerRow) in
        if nextDiff >? currentDiff then
          mkPartState (ps_rows st ++ [mkRow currentSlice currentSum])
                      [] num_zero
        else mkPartState (ps_rows st) currentSlice currentSum
    | None => mkPartState (ps_rows st) currentSlice currentSum
    end
  else mkPartState (ps_rows st) currentSlice currentSum.

Definition partitionRows (its : list Item) (totalRatio K : num) : list Row :=
  if K =? num_one then [mkRow its totalRatio]
  else
    let idealRatioPerRow := totalRatio / K in
    ps_rows (forEachi_from (partitionStep its K idealRatioPerRow) 0 its
                           (mkPartState [] [] num_zero)).

(** *** Step 4: geometry of the rows *)

Definition rowHeightOf (row : Row) (containerWidth gap : num) : num :=
  let availableWidth :=
    containerWidth - (num_of_nat (length (row_items row)) - num_one) * gap in
  availableWidth / sumRatio row.

(** The inner [row.items.forEach]: the cells pushed so far and [currentX]. *)
Definition cellStep (rowHeight gap : num) (st : list Cell * num)
           (item : Item) : list Cell * num :=
  let '(cells, currentX) := st in
  let itemWidth := item_ratio item * rowHeight in
  (cells ++ [mkCell (item_index item) (item_src item) currentX itemWidth
                    rowHeight],
   currentX + (itemWidth + gap)).

Definition buildRow (row : Row) (containerWidth gap : num) : RowLayout :=
  let rowHeight := rowHeightOf row containerWidth gap in
  mkRowLayout rowHeight
    (fst (fold_left (cellStep rowHeight gap) (row_items row)
                    ([], num_zero))).

(** The outer [rows.forEach]: empty rows are skipped. *)
Definition buildRowLayouts (rows : list Row) (containerWidth gap : num)
  : list RowLayout :=
  fold_left
    (fun rowLayouts row =>
       if Nat.eqb (length (row_items row)) 0 then rowLayouts
       else rowLayouts ++ [buildRow row containerWidth gap])
    rows [].

(** *** Vertical fit *)

Definition rowSpacingCountOf (rowLayouts : list RowLayout) : num :=
  num_max num_zero (num_of_nat (length rowLayouts) - num_one).

Definition sumRowHeightsOf (rowLayouts : list RowLayout) : num :=
  fold_left (fun sum row => sum + rl_height row) rowLayouts num_zero.

(** [totalHeight] as first computed, with the configured gap. *)
Definition initialTotalHeight (rowLayouts : list RowLayout) (gap : num)
  : num :=
  sumRowHeightsOf rowLayouts + gap * rowSpacingCountOf rowLayouts.

(** The pair [(verticalGap, totalHeight)] after the stretching test. *)
Definition fitVertical (rowLayouts : list RowLayout)
           (gap containerHeight : num) : num * num :=
  let rowSpacingCount := rowSpacingCountOf rowLayouts in
  let sumRowHeights := sumRowHeightsOf rowLayouts in
  let verticalGap := gap in
  let totalHeight := sumRowHeights + verticalGap * rowSpacingCount in
  if (rowSpacingCount >? num_zero) && (totalHeight <? containerHeight) then
    let extra := containerHeight - totalHeight in
    let verticalGap := gap + extra / rowSpacingCount in
    (verticalGap, sumRowHeights + verticalGap * rowSpacingCount)
  else (verticalGap, totalHeight).

(** [{ ...item, y: currentY }] *)
Definition placeCell (currentY : num) (c : Cell) : LayoutItem :=
  mkLayoutItem (cell_index c) (cell_src c) (cell_x c) currentY
               (cell_width c) (cell_height c).

(** The stacking loop: the items pushed so far and [currentY].  The
    final adjustment of [currentY] after the loop is not read again and
    is left out. *)
Definition stackStep (verticalGap : num) (st : list LayoutItem * num)
           (row : RowLayout) : list LayoutItem * num :=
  let '(layoutItems, currentY) := st in
  (fold_left (fun acc c => acc ++ [placeCell currentY c]) (rl_items row)
             layoutItems,
   currentY + (rl_height row + verticalGap)).

Definition stackRows (rowLayouts : list RowLayout) (verticalGap : num)
  : list LayoutItem :=
  fst (fold_left (stackStep verticalGap) rowLayouts ([], num_zero)).

(** *** Step 5: fit to the container *)

Definition scaleOf (totalHeight containerHeight : num) : num :=
  if totalHeight >? containerHeight then containerHeight / totalHeight
  else num_one.

(** *** The whole function *)

Definition mosaicRows (images : list string) (ratios : string -> option num)
           (containerWidth containerHeight : num) : list Row :=
  let its := makeItems images ratios in
  let totalRatio := sumRatios its in
  let containerRatio := containerWidth / containerHeight in
  let K := estimateRowCount totalRatio containerRatio (length its) in
  partitionRows its totalRatio K.

Definition computeMosaicLayout (images : list string)
           (ratios : string -> option num)
           (containerWidth containerHeight gap : num) : LayoutResult :=
  if Nat.eqb (length images) 0 then
    mkLayoutResult [] num_zero num_one num_zero num_zero
  else
    let rows := mosaicRows images ratios containerWidth containerHeight in
    let rowLayouts := buildRowLayouts rows containerWidth gap in
    let '(verticalGap, totalHeight) :=
      fitVertical rowLayouts gap containerHeight in
    let layoutItems := stackRows rowLayouts verticalGap in
    let scale := scaleOf totalHeight containerHeight in
    let finalWidth := containerWidth * scale in
    let finalHeight := totalHeight * scale in
    let leftOffset := (containerWidth - finalWidth) / num_two in
    let topOffset := (containerHeight - finalHeight) / num_two in
    mkLayoutResult layoutItems totalHeight scale topOffset leftOffset.

(** *** The divisions of [computeMosaicLayout]

    The divisors of the divisions a call performs, in the order of the
    source.  [getAspectRatioFromUrl] is only called for a source whose
    mapped ratio is absent or falsy, and only divides after its test of
    [h]. *)
Definition urlDivisors (ratios : string -> option num) (src : string)
  : list num :=
  let parserDivisors :=
    match picsumDims src with
    | Some (w, h) => if Nat.eqb h 0 then [] else [num_of_nat h]
    | None => []
    end in
  match ratios src with
  | Some v => if num_truthy v then [] else parserDivisors
  | None => parserDivisors
  end.

Definition divisorsOf (images : list string)
           (ratios : string -> option num)
           (containerWidth containerHeight gap : num) : list num :=
  if Nat.eqb (length images) 0 then []
  else
    let its := makeItems images ratios in
    let totalRatio := sumRatios its in
    let containerRatio := containerWidth / containerHeight in
    let K := estimateRowCount totalRatio containerRatio (length its) in
    let rows := mosaicRows images ratios containerWidth containerHeight in
    let rowLayouts := buildRowLayouts rows containerWidth gap in
    let rowSpacingCount := rowSpacingCountOf rowLayouts in
    let totalHeight0 := initialTotalHeight rowLayouts gap in
    let totalHeight := snd (fitVertical rowLayouts gap containerHeight) in
    (* w / h in getAspectRatioFromUrl *)
    flat_map (urlDivisors ratios) images
    (* containerWidth / containerHeight *)
    ++ [containerHeight]
    (* totalRatio / containerRatio *)
    ++ [containerRatio]
    (* totalRatio / K, in the branch K !== 1 *)
    ++ (if K =? num_one then [] else [K])
    (* availableWidth / row.sumRatio, for the rows that are not skipped *)
    ++ map sumRatio
           (filter (fun row => negb (Nat.eqb (length (row_items row)) 0))
                   rows)
    (* extra / rowSpacingCount, in the stretching branch *)
    ++ (if (rowSpacingCount >? num_zero) && (totalHeight0 <? containerHeight)
        then [rowSpacingCount] else [])
    (* containerHeight / totalHeight, in the overflow branch *)
    ++ (if totalHeight >? containerHeight then [totalHeight] else [])
    (* the two halvings of the offsets *)
    ++ [num_two; num_two].

(** *** The consumer: placement in [mountImgCollage]

    The rectangle [render] gives the wrapper of an item: [left], [top],
    [width], [height]. *)
Record Placed : Type := mkPlaced {
  placed_left : num;
  placed_top : num;
  placed_width : num;
  placed_height : num
}.

Definition placeItem (layout : LayoutResult) (item : LayoutItem) : Placed :=
  let scaledWidth := li_width item * scale layout in
  let scaledHeight := li_height item * scale layout in
  let scaledX := leftOffset layout + li_x item * scale layout in
  let scaledY := topOffset layout + li_y item * scale layout in
  mkPlaced scaledX scaledY scaledWidth scaledHeight.

End Layout.

Arguments JSValue : clear implicits.
Arguments Item : clear implicits.
Arguments Row : clear implicits.
Arguments Cell : clear implicits.
Arguments RowLayout : clear implicits.
Arguments LayoutItem : clear implicits.
Arguments LayoutResult : clear implicits.
Arguments PartState : clear implicits.
Arguments Placed : clear implicits.

(** ** The divisions of a call

    [computeMosaicLayout] once more, statement for statement, with every
    [/] replaced by a division that also records its divisor: a run
    returns the result together with the divisors of the divisions it
    performed, in the order it performed them.  The run is proved below to
    return what [computeMosaicLayout] returns, and to record the list
    [divisorsOf]. *)

Section Traced.
Context {num : Type} {JS : JSNumber num}.
Local Open Scope js_scope.

Definition Traced (A : Type) : Type := (A * list num)%type.

Definition ret {A : Type} (a : A) : Traced A := (a, []).

Definition bind {A B : Type} (m : Traced A) (f : A -> Traced B)
  : Traced B :=
  (fst (f (fst m)), snd m ++ snd (f (fst m))).

(** [a / b] *)
Definition divT (a b : num) : Traced num := (a / b, [b]).

Local Notation "x <- m ;; k" :=
  (bind m (fun x => k)) (at level 61, m at next level, right associativity).

Fixpoint mapiT_from {A B : Type} (f : A -> nat -> Traced B) (i : nat)
         (l : list A) : Traced (list B) :=
  match l with
  | [] => ret []
  | a :: l' =>
      b <- f a i ;;
      bs <- mapiT_from f (S i) l' ;;
      ret (b :: bs)
  end.

Fixpoint foldT {A S : Type} (f : S -> A -> Traced S) (l : list A) (s : S)
  : Traced S :=
  match l with
  | [] => ret s
  | a :: l' => s' <- f s a ;; foldT f l' s'
  end.

Definition getAspectRatioFromUrlT (src : string) : Traced (option num) :=
  match picsumDims src with
  | None => ret None
  | Some (w, h) =>
      if Nat.eqb h 0 then ret None
      else q <- divT (num_of_nat w) (num_of_nat h) ;; ret (Some q)
  end.

(** The parser is only called when the mapped value is absent or falsy. *)
Definition resolveRatioT (ratios : string -> option num) (src : string)
  : Traced num :=
  match ratios src with
  | Some v =>
      if num_truthy v then ret v
      else u <- getAspectRatioFromUrlT src ;; ret (js_or u num_default_ratio)
  | None => u <- getAspectRatioFromUrlT src ;; ret (js_or u num_default_ratio)
  end.

Definition makeItemsT (images : list string) (ratios : string -> option num)
  : Traced (list (Item num)) :=
  mapiT_from (fun src index =>
                r <- resolveRatioT ratios src ;; ret (mkItem src index r))
             0 images.

Definition estimateRowCountT (totalRatio containerRatio : num) (n : nat)
  : Traced num :=
  q <- divT totalRatio containerRatio ;;
  ret (num_max num_one (num_min (num_round_sqrt q) (num_of_nat n))).

Definition partitionRowsT (its : list (Item num)) (totalRatio K : num)
  : Traced (list (Row num)) :=
  if K =? num_one then ret [mkRow its totalRatio]
  else
    idealRatioPerRow <- divT totalRatio K ;;
    ret (ps_rows (forEachi_from (partitionStep its K idealRatioPerRow) 0 its
                                (mkPartState [] [] num_zero))).

Definition buildRowT (row : Row num) (containerWidth gap : num)
  : Traced (RowLayout num) :=
  let availableWidth :=
    containerWidth - (num_of_nat (length (row_items row)) - num_one) * gap in
  rowHeight <- divT availableWidth (sumRatio row) ;;
  ret (mkRowLayout rowHeight
         (fst (fold_left (cellStep rowHeight gap) (row_items row)
                         ([], num_zero)))).

Definition buildRowLayoutsT (rows : list (Row num)) (containerWidth gap : num)
  : Traced (list (RowLayout num)) :=
  foldT (fun rowLayouts row =>
           if Nat.eqb (length (row_items row)) 0 then ret rowLayouts
           else
             rowLayout <- buildRowT row containerWidth gap ;;
             ret (rowLayouts ++ [rowLayout]))
        rows [].

Definition fitVerticalT (rowLayouts : list (RowLayout num))
           (gap containerHeight : num) : Traced (num * num) :=
  let rowSpacingCount := rowSpacingCountOf rowLayouts in
  let sumRowHeights := sumRowHeightsOf rowLayouts in
  let verticalGap := gap in
  let totalHeight := sumRowHeights + verticalGap * rowSpacingCount in
  if (rowSpacingCount >? num_zero) && (totalHeight <? containerHeight) then
    let extra := containerHeight - totalHeight in
    stretch <- divT extra rowSpacingCount ;;
    let verticalGap := gap + stretch in
    ret (verticalGap, sumRowHeights + verticalGap * rowSpacingCount)
  else ret (verticalGap, totalHeight).

Definition scaleOfT (totalHeight containerHeight : num) : Traced num :=
  if totalHeight >? containerHeight then divT containerHeight totalHeight
  else ret num_one.

Definition computeMosaicLayoutT (images : list string)
           (ratios : string -> option num)
           (containerWidth containerHeight gap : num)
  : Traced (LayoutResult num) :=
  if Nat.eqb (length images) 0 then
    ret (mkLayoutResult [] num_zero num_one num_zero num_zero)
  else
    its <- makeItemsT images ratios ;;
    let totalRatio := sumRatios its in
    containerRatio <- divT containerWidth containerHeight ;;
    K <- estimateRowCountT totalRatio containerRatio (length its) ;;
    rows <- partitionRowsT its totalRatio K ;;
    rowLayouts <- buildRowLayoutsT rows containerWidth gap ;;
    fit <- fitVerticalT rowLayouts gap containerHeight ;;
    let verticalGap := fst fit in
    let totalHeight := snd fit in
    let layoutItems := stackRows rowLayouts verticalGap in
    scale <- scaleOfT totalHeight containerHeight ;;
    let finalWidth := containerWidth * scale in
    let finalHeight := totalHeight * scale in
    leftOffset <- divT (containerWidth - finalWidth) num_two ;;
    topOffset <- divT (containerHeight - finalHeight) num_two ;;
    ret (mkLayoutResult layoutItems totalHeight scale topOffset leftOffset).

End Traced.

(** ** The row count over the reals

    [Math.round] read over the real numbers (the largest integer not above
    [r + 1/2]), to compare the rational [Qround_sqrt] with. *)


(** ** The loops unfolded

    Recursive readings of the loops of the source, each proved equal to the
    loop it reads ([partitionRows_spec], [buildRow_cells], [stackRows_eq]).

    The partition in the words of its contract:

    Before item [i+1] is admitted, and while fewer than [K-1] rows have been
    closed, the distance of the running sum from the ideal is compared with
    the distance it would have with the next item; the row is closed when the
    next item would increase it.  The last row takes whatever remains. *)

Section GreedySpec.
Context {num : Type} {JS : JSNumber num}.
Local Open Scope js_scope.

Definition closesBefore (K ideal : num) (closed : nat) (currentSum : num)
           (next : Item num) : bool :=
  (num_of_nat closed <? K - num_one)
  && (num_abs ((currentSum + item_ratio next) - ideal)
      >? num_abs (currentSum - ideal)).

Fixpoint greedyRows (K ideal : num) (closed : nat) (cur : list (Item num))
         (sum : num) (l : list (Item num)) : list (Row num) :=
  match l with
  | [] => []
  | x :: rest =>
      let cur' := cur ++ [x] in
      let sum' := sum + item_ratio x in
      match rest with
      | [] => [mkRow cur' sum']
      | next :: _ =>
          if closesBefore K ideal closed sum' next
          then mkRow cur' sum' :: greedyRows K ideal (S closed) [] num_zero rest
          else greedyRows K ideal closed cur' sum' rest
      end
  end.

(** The number of rows the pass closes before its last row. *)
Fixpoint closeCount (K ideal : num) (closed : nat) (sum : num)
         (l : list (Item num)) : nat :=
  match l with
  | [] => 0
  | x :: rest =>
      let sum' := sum + item_ratio x in
      match rest with
      | [] => 0
      | next :: _ =>
          if closesBefore K ideal closed sum' next
          then S (closeCount K ideal (S closed) num_zero rest)
          else closeCount K ideal closed sum' rest
      end
  end.

Definition partitionSpec (its : list (Item num)) (totalRatio K : num) : list (Row num) :=
  if K =? num_one then [mkRow its totalRatio]
  else greedyRows K (totalRatio / K) 0 [] num_zero its.

(** The cells of a row from a given [currentX] on. *)
Fixpoint cellsFrom (rowHeight gap currentX : num) (its : list (Item num))
  : list (Cell num) :=
  match its with
  | [] => []
  | item :: rest =>
      let itemWidth := item_ratio item * rowHeight in
      mkCell (item_index item) (item_src item) currentX itemWidth rowHeight
      :: cellsFrom rowHeight gap (currentX + (itemWidth + gap)) rest
  end.

(** The stacked items of the rows from a given [currentY] on. *)
Fixpoint stackFrom (verticalGap currentY : num)
         (rowLayouts : list (RowLayout num)) : list (LayoutItem num) :=
  match rowLayouts with
  | [] => []
  | row :: rest =>
      map (placeCell currentY) (rl_items row)
      ++ stackFrom verticalGap (currentY + (rl_height row + verticalGap))
                   rest
  end.

(** The [currentY] every row is stacked at, from a given [currentY] on. *)
Fixpoint rowTops (verticalGap currentY : num)
         (rowLayouts : list (RowLayout num)) : list num :=
  match rowLayouts with
  | [] => []
  | row :: rest =>
      currentY
      :: rowTops verticalGap (currentY + (rl_height row + verticalGap)) rest
  end.

(** An output item without its [y]: the cell it was made from. *)
Definition cellOf (item : LayoutItem num) : Cell num :=
  mkCell (li_index item) (li_src item) (li_x item) (li_width item)
         (li_height item).

End GreedySpec.

(** ** Sample inputs *)

Module Demo.

(** Two measured sources, of ratios 16:9 and 1:1. *)
Definition ratios (s : string) : option Q :=
  if String.eqb s "a" then Some (16 # 9)%Q
  else if String.eqb s "b" then Some 1%Q
  else None.

Definition images2 : list string := ["a"; "b"]%string.

Definition images4 : list string := ["a"; "b"; "b"; "a"]%string.

Definition picsum : string := "https://picsum.photos/id/237/200/300".

(** The rows of [images4] in a container of 400 by 400. *)
Definition rows4 : list (Row Q) := mosaicRows images4 ratios 400%Q 400%Q.

Definition row0 : Row Q := hd (mkRow [] 0%Q) rows4.

Definition rowLayouts4 : list (RowLayout Q) :=
  buildRowLayouts rows4 400%Q 10%Q.

End Demo.

(** Inputs in binary64. *)
Module Demo64.

Definition float : Set := Binary64.float.

Definition none : string -> option float := fun _ => None.

(** A picsum source of 300 by 500. *)
Definition tall : string := "https://picsum.photos/id/1/300/500".


(** Picsum sources of ratios 4/3, 3/2 and 4/3. *)
Definition triple : list string :=
  ["https://picsum.photos/id/1/4/3"; "https://picsum.photos/id/1/3/2";
   "https://picsum.photos/id/1/4/3"]%string.

(** Measured ratios that binary64 holds exactly: [9/4 - 2^-50] and 2,
    and the same ratios as rationals. *)
Definition ratios (s : string) : option float :=
  if String.eqb s "a"
  then Some (PrimFloat.div (Binary64.of_Z 2533274790395903)
                           (Binary64.of_Z (2 ^ 50)))
  else if String.eqb s "b" then Some PrimFloat.two
  else None.


Definition images : list string := ["a"; "b"; "b"]%string.

(** [2^-700] and [2^700] *)
Definition tiny : float :=
  PrimFloat.div PrimFloat.one (Binary64.of_Z (2 ^ 700)).

Definition vast : float := Binary64.of_Z (2 ^ 700).

End Demo64.

(** ** Pointer interaction in [render]

    The drag handlers of [attachDragHandlers] and the resize handlers of
    [attachResizeHandle], as transitions on the geometry of one wrapper.
    The wrapper keeps its geometry in style strings that these handlers
    write as a number followed by [px] and read back with [parseFloat];
    the model keeps the number, and [read] is the [|| 0] applied to what
    is read.  The z-index and the shadow set along the way are left out. *)

Section Interaction.
Context {num : Type} {JS : JSNumber num}.
Local Open Scope js_scope.

(** [Math.min(Math.max(value, min), max)] *)
Definition clamp (value min max : num) : num :=
  num_min (num_max value min) max.

(** [Math.max(10, minImageSize)] *)
Definition normalizedMinSizeOf (minImageSize : num) : num :=
  num_max (num_of_nat 10) minImageSize.

Record Wrapper : Type := mkWrapper {
  w_left : num;
  w_top : num;
  w_width : num;
  w_height : num
}.

(** [parseFloat(style) || 0] *)
Definition read (v : num) : num := if num_truthy v then v else num_zero.

Record DragState : Type := mkDragState {
  d_startX : num;
  d_startY : num;
  d_initialLeft : num;
  d_initialTop : num;
  dragging : bool
}.

Record ResizeState : Type := mkResizeState {
  r_startX : num;
  r_startWidth : num;
  resizing : bool
}.

(** The pointer events the handlers listen to.  [Down] carries the button
    and whether the target is the resize handle. *)
Inductive PointerEvent : Type :=
| Down (button : nat) (onResizeHandle : bool) (clientX clientY : num)
| Move (clientX clientY : num)
| Up.

(** [handlePointerMove] of [attachDragHandlers], for a container of
    [width] by [height]. *)
Definition dragMove (width height : num) (d : DragState) (w : Wrapper)
           (clientX clientY : num) : Wrapper :=
  if negb (dragging d) then w
  else
    let dx := clientX - d_startX d in
    let dy := clientY - d_startY d in
    let wrapperWidth := read (w_width w) in
    let wrapperHeight := read (w_height w) in
    let maxLeft := num_max num_zero (width - wrapperWidth) in
    let maxTop := num_max num_zero (height - wrapperHeight) in
    let nextLeft := clamp (d_initialLeft d + dx) num_zero maxLeft in
    let nextTop := clamp (d_initialTop d + dy) num_zero maxTop in
    mkWrapper nextLeft nextTop (w_width w) (w_height w).

(** [handlePointerDown] of [attachDragHandlers]. *)
Definition dragDown (d : DragState) (w : Wrapper) (button : nat)
           (onResizeHandle : bool) (clientX clientY : num) : DragState :=
  if negb (Nat.eqb button 0) then d
  else if onResizeHandle then d
  else mkDragState clientX clientY (read (w_left w)) (read (w_top w)) true.

(** [handlePointerUp] of [attachDragHandlers]. *)
Definition dragUp (d : DragState) : DragState :=
  if negb (dragging d) then d
  else mkDragState (d_startX d) (d_startY d) (d_initialLeft d)
                   (d_initialTop d) false.

(** [handlePointerMove] of [attachResizeHandle]. *)
Definition resizeMove (width height normalizedMinSize ratio : num)
           (r : ResizeState) (w : Wrapper) (clientX : num) : Wrapper :=
  if negb (resizing r) then w
  else
    let dx := clientX - r_startX r in
    let currentLeft := read (w_left w) in
    let currentTop := read (w_top w) in
    let maxWidthByBounds :=
      num_min (num_max normalizedMinSize (width - currentLeft))
              (num_max normalizedMinSize ((height - currentTop) * ratio)) in
    let rawWidth := r_startWidth r + dx in
    let nextWidth := clamp rawWidth normalizedMinSize maxWidthByBounds in
    let nextHeight := nextWidth / ratio in
    mkWrapper (w_left w) (w_top w) nextWidth nextHeight.

(** The [pointerdown] listener of the handle. *)
Definition resizeDown (r : ResizeState) (w : Wrapper) (button : nat)
           (clientX : num) : ResizeState :=
  if negb (Nat.eqb button 0) then r
  else mkResizeState clientX (read (w_width w)) true.

(** [handlePointerUp] of [attachResizeHandle]. *)
Definition resizeUp (r : ResizeState) : ResizeState :=
  if negb (resizing r) then r
  else mkResizeState (r_startX r) (r_startWidth r) false.

(** One wrapper with the handlers [render] attaches to it when
    [enableDrag] and [enableResize] say so.  The [pointermove] and
    [pointerup] listeners are registered on the window by the [pointerdown]
    handlers and removed by the [pointerup] handlers; [i_listeners] is the
    list of the registered pairs, in the order of registration, which is
    the order the window calls them in. *)
Inductive ListenerKind : Type := DragListeners | ResizeListeners.

Definition kind_eqb (a b : ListenerKind) : bool :=
  match a, b with
  | DragListeners, DragListeners => true
  | ResizeListeners, ResizeListeners => true
  | _, _ => false
  end.

(** [addEventListener]: a listener that is registered is not added again. *)
Definition addListener (k : ListenerKind) (l : list ListenerKind)
  : list ListenerKind :=
  if existsb (kind_eqb k) l then l else l ++ [k].

(** [removeEventListener] *)
Definition removeListener (k : ListenerKind) (l : list ListenerKind)
  : list ListenerKind :=
  filter (fun k' => negb (kind_eqb k k')) l.

Record Interactive : Type := mkInteractive {
  i_wrapper : Wrapper;
  i_drag : DragState;
  i_resize : ResizeState;
  i_listeners : list ListenerKind
}.

(** A [pointerdown].  On the handle the listener of the handle runs first;
    it stops the propagation once it has accepted the button, so that the
    listener of the wrapper runs for a refused button only, and ignores
    it.  Elsewhere on the wrapper only the listener of the wrapper runs. *)
Definition pointerDown (enableDrag enableResize : bool) (st : Interactive)
           (button : nat) (onHandle : bool) (clientX clientY : num)
  : Interactive :=
  let w := i_wrapper st in
  if enableResize && onHandle && Nat.eqb button 0 then
    mkInteractive w (i_drag st)
                  (resizeDown (i_resize st) w button clientX)
                  (addListener ResizeListeners (i_listeners st))
  else if enableDrag && negb onHandle && Nat.eqb button 0 then
    mkInteractive w
                  (dragDown (i_drag st) w button onHandle clientX clientY)
                  (i_resize st)
                  (addListener DragListeners (i_listeners st))
  else
    mkInteractive w
      (if enableDrag
       then dragDown (i_drag st) w button onHandle clientX clientY
       else i_drag st)
      (if enableResize && onHandle
       then resizeDown (i_resize st) w button clientX
       else i_resize st)
      (i_listeners st).

(** A [pointermove] on the window: the registered handlers in order. *)
Definition pointerMove (width height normalizedMinSize ratio : num)
           (st : Interactive) (clientX clientY : num) : Interactive :=
  let w' :=
    fold_left
      (fun w k =>
         match k with
         | DragListeners =>
             dragMove width height (i_drag st) w clientX clientY
         | ResizeListeners =>
             resizeMove width height normalizedMinSize ratio (i_resize st)
                        w clientX
         end)
      (i_listeners st) (i_wrapper st) in
  mkInteractive w' (i_drag st) (i_resize st) (i_listeners st).

(** A [pointerup] on the window: each registered handler ends its gesture
    and removes its own listeners. *)
Definition pointerUp (st : Interactive) : Interactive :=
  fold_left
    (fun st' k =>
       match k with
       | DragListeners =>
           if negb (dragging (i_drag st')) then st'
           else mkInteractive (i_wrapper st') (dragUp (i_drag st'))
                              (i_resize st')
                              (removeListener DragListeners (i_listeners st'))
       | ResizeListeners =>
           if negb (resizing (i_resize st')) then st'
           else mkInteractive (i_wrapper st') (i_drag st')
                              (resizeUp (i_resize st'))
                              (removeListener ResizeListeners
                                              (i_listeners st'))
       end)
    (i_listeners st) st.

Definition pointerStep (width height normalizedMinSize ratio : num)
           (enableDrag enableResize : bool) (st : Interactive)
           (ev : PointerEvent) : Interactive :=
  match ev with
  | Down button onHandle clientX clientY =>
      pointerDown enableDrag enableResize st button onHandle clientX clientY
  | Move clientX clientY =>
      pointerMove width height normalizedMinSize ratio st clientX clientY
  | Up => pointerUp st
  end.

(** The wrapper as [render] creates it, with idle handlers. *)
Definition freshInteractive (w : Wrapper) : Interactive :=
  mkInteractive w
    (mkDragState num_zero num_zero num_zero num_zero false)
    (mkResizeState num_zero num_zero false)
    [].

(** A sequence of pointer events. *)
Definition runPointer (width height normalizedMinSize ratio : num)
           (enableDrag enableResize : bool) (evs : list PointerEvent)
           (st : Interactive) : Interactive :=
  fold_left
    (pointerStep width height normalizedMinSize ratio enableDrag enableResize)
    evs st.

(** A press of the main button. *)
Definition primaryDown (ev : PointerEvent) : bool :=
  match ev with
  | Down button _ _ _ => Nat.eqb button 0
  | _ => false
  end.

End Interaction.

Arguments Wrapper : clear implicits.
Arguments DragState : clear implicits.
Arguments ResizeState : clear implicits.
Arguments PointerEvent : clear implicits.
Arguments Interactive : clear implicits.

(** ** Strings of the markup

    The string operations the entry scripts and [ensureBaseLayout] use, on
    sequences of one-byte code units: [split] on a separator and on runs of
    white space, [trim], [toLowerCase], [filter(Boolean)] and [join]. *)

Module Markup.

Definition jsString : Type := list ascii.

(** White space and line ends, as [trim] and [\s] understand them. *)
Definition is_space (c : ascii) : bool :=
  let n := nat_of_ascii c in
  (n =? 9)%nat || (n =? 10)%nat || (n =? 11)%nat || (n =? 12)%nat
  || (n =? 13)%nat || (n =? 32)%nat || (n =? 160)%nat.

Fixpoint trimStart (s : jsString) : jsString :=
  match s with
  | c :: s' => if is_space c then trimStart s' else s
  | [] => []
  end.

Definition trimEnd (s : jsString) : jsString := rev (trimStart (rev s)).

(** [s.trim()] *)
Definition trim (s : jsString) : jsString := trimEnd (trimStart s).

(** [s.split(sep)] for a separator of one unit. *)
Fixpoint splitOn (sep : ascii) (s : jsString) : list jsString :=
  match s with
  | [] => [[]]
  | c :: s' =>
      if Ascii.eqb c sep then [] :: splitOn sep s'
      else match splitOn sep s' with
           | piece :: pieces => (c :: piece) :: pieces
           | [] => [[c]]
           end
  end.

(** [s.split(/\s+/)]: the pieces between the maximal runs of white space;
    [piece] is the piece being read, [in_run] says that the last unit read
    was white space. *)
Fixpoint splitSpacesFrom (in_run : bool) (piece : jsString) (s : jsString)
  : list jsString :=
  match s with
  | [] => [piece]
  | c :: s' =>
      if is_space c then
        if in_run then splitSpacesFrom true piece s'
        else piece :: splitSpacesFrom true [] s'
      else splitSpacesFrom false (piece ++ [c]) s'
  end.

Definition splitSpaces (s : jsString) : list jsString :=
  splitSpacesFrom false [] s.

(** [l.filter(Boolean)] on strings: the empty string is the falsy one. *)
Definition nonEmpty (s : jsString) : bool :=
  match s with [] => false | _ :: _ => true end.

Definition filterBoolean (l : list jsString) : list jsString :=
  filter nonEmpty l.

(** [l.join(sep)] *)
Fixpoint join (sep : jsString) (l : list jsString) : jsString :=
  match l with
  | [] => []
  | [x] => x
  | x :: rest => x ++ sep ++ join sep rest
  end.

(** [s.toLowerCase()] on one-byte units: the letters A to Z, and the
    capital letters of the upper half but the multiplication sign. *)
Definition lowerUnit (c : ascii) : ascii :=
  let n := nat_of_ascii c in
  if ((65 <=? n) && (n <=? 90))%nat then ascii_of_nat (n + 32)
  else if ((192 <=? n) && (n <=? 222) && negb (n =? 215))%nat
       then ascii_of_nat (n + 32)
  else c.

Definition toLowerCase (s : jsString) : jsString := map lowerUnit s.

Definition str (s : string) : jsString := list_ascii_of_string s.

Definition jsString_eqb (a b : jsString) : bool :=
  String.eqb (string_of_list_ascii a) (string_of_list_ascii b).

(** [list.includes(s)] *)
Definition includes (l : list jsString) (s : jsString) : bool :=
  existsb (jsString_eqb s) l.

(** [parseImageList] of the entry scripts: [None] is [undefined]. *)
Definition parseImageList (value : option jsString)
  : option (list jsString) :=
  match value with
  | None => None
  | Some v => Some (filterBoolean (map trim (splitOn ","%char v)))
  end.

(** [parseBooleanAttr] of the entry script. *)
Definition parseBooleanAttr (value : option jsString) : option bool :=
  match value with
  | None => None
  | Some v =>
      if negb (nonEmpty v) then None
      else
        let normalized := toLowerCase (trim v) in
        if includes [str "true"; str "1"; str "yes"; str "on"] normalized
        then Some true
        else if includes [str "false"; str "0"; str "no"; str "off"]
                         normalized
        then Some false
        else None
  end.

(** The class list of an element: [add] refuses the empty token and a token
    with white space in it ([None] is the exception it throws), and adds a
    token that is not there yet at the end. *)
Definition is_ascii_space (c : ascii) : bool :=
  let n := nat_of_ascii c in
  (n =? 9)%nat || (n =? 10)%nat || (n =? 12)%nat || (n =? 13)%nat
  || (n =? 32)%nat.

Definition classListAdd (classes : list jsString) (token : jsString)
  : option (list jsString) :=
  if negb (nonEmpty token) then None
  else if existsb is_ascii_space token then None
  else if includes classes token then Some classes
  else Some (classes ++ [token]).

(** What [ensureBaseLayout] sets on the target. *)
Record BaseLayout : Type := mkBaseLayout {
  b_position : option jsString;
  b_overflow : option jsString;
  b_display : option jsString;
  b_classes : list jsString
}.

Fixpoint addClasses (classes : list jsString) (tokens : list jsString)
  : option (list jsString) :=
  match tokens with
  | [] => Some classes
  | cls :: rest =>
      match classListAdd classes cls with
      | Some classes' => addClasses classes' rest
      | None => None
      end
  end.

(** [ensureBaseLayout(target, className)]; [None] is an exception. *)
Definition ensureBaseLayout (target : BaseLayout)
           (className : option jsString) : option BaseLayout :=
  let styled :=
    mkBaseLayout (Some (str "relative")) (Some (str "hidden"))
                 (Some (str "block")) (b_classes target) in
  match className with
  | None => Some styled
  | Some name =>
      if negb (nonEmpty name) then Some styled
      else
        match addClasses (b_classes styled)
                         (filterBoolean (splitSpaces name)) with
        | Some classes =>
            Some (mkBaseLayout (b_position styled) (b_overflow styled)
                               (b_display styled) classes)
        | None => None
        end
  end.

(** *** The strings the theorems are stated with *)

(** No white space at either end. *)
Definition noEdgeSpace (s : jsString) : Prop :=
  (forall c t, s = c :: t -> is_space c = false)
  /\ (forall t c, s = t ++ [c] -> is_space c = false).

(** A source as [parseImageList] returns it: not empty, no white space at
    either end, no comma. *)
Definition cleanSource (src : jsString) : Prop :=
  src <> [] /\ noEdgeSpace src /\ ~ In ","%char src.

(** A token that [classList.add] accepts. *)
Definition validToken (token : jsString) : Prop :=
  token <> [] /\ forall c, In c token -> is_space c = false.

End Markup.

(** ** The component: [mountImgCollage]

    The closure state of a mounted collage ([state], [loadedRatios],
    [pendingLoads], [destroyed]) and what it shows in its target.  The
    completions of the image probes are events from outside: [onload] with
    the natural size of the image, or [onerror].  The click callback of the
    options only decides the cursor and a click listener and is left
    out.

    [loadedRatios] starts as the empty object and is read as a map from
    sources to numbers: a source that is the name of a property every
    object inherits ([constructor], [toString], ...) is outside the
    model. *)

Section Component.
Context {num : Type} {JS : JSNumber num}.
Local Open Scope js_scope.

Record Options : Type := mkOptions {
  o_images : list string;
  o_width : option num;
  o_height : option num;
  o_className : option Markup.jsString;
  o_gap : option num;
  o_enableDrag : option bool;
  o_enableResize : option bool;
  o_minImageSize : option num
}.

(** [Partial<ImgCollageOptions>]: [None] is a property that is not there;
    an optional property that is there may hold [undefined]. *)
Record PartialOptions : Type := mkPartialOptions {
  p_images : option (list string);
  p_width : option (option num);
  p_height : option (option num);
  p_className : option (option Markup.jsString);
  p_gap : option (option num);
  p_enableDrag : option (option bool);
  p_enableResize : option (option bool);
  p_minImageSize : option (option num)
}.

Definition override {A : Type} (old : A) (next : option A) : A :=
  match next with Some v => v | None => old end.

(** [{ ...state, ...next }] *)
Definition mergeOptions (state : Options) (next : PartialOptions) : Options :=
  mkOptions (override (o_images state) (p_images next))
            (override (o_width state) (p_width next))
            (override (o_height state) (p_height next))
            (override (o_className state) (p_className next))
            (override (o_gap state) (p_gap next))
            (override (o_enableDrag state) (p_enableDrag next))
            (override (o_enableResize state) (p_enableResize next))
            (override (o_minImageSize state) (p_minImageSize next)).

(** A wrapper of the stage: the index it reports on a click, the source of
    its image, its rectangle, whether it can be dragged, and the ratio of
    its resize handle if it has one. *)
Record WrapperView : Type := mkWrapperView {
  wv_index : nat;
  wv_src : string;
  wv_rect : Placed num;
  wv_drag : bool;
  wv_resize : option num
}.

(** What the target holds: nothing ([innerHTML = '']), the text
    [No Images], or the stage with its wrappers. *)
Inductive Content : Type :=
| Cleared
| NoImages
| Stage (wrappers : list WrapperView).

Record Target : Type := mkTarget {
  t_base : Markup.BaseLayout;
  t_width : option num;
  t_height : option num;
  t_content : Content
}.

Record Component : Type := mkComponent {
  c_state : Options;
  c_loadedRatios : string -> option num;
  c_pendingLoads : list string;
  c_destroyed : bool;
  c_target : Target
}.

Definition default {A : Type} (o : option A) (d : A) : A :=
  match o with Some v => v | None => d end.

(** The width, height and gap [render] works with. *)
Definition widthOf (o : Options) : num := default (o_width o) (num_of_nat 400).
Definition heightOf (o : Options) : num :=
  default (o_height o) (num_of_nat 500).
Definition gapOf (o : Options) : num := default (o_gap o) num_two.

Definition wrapperOf (layout : LayoutResult num)
           (enableDrag enableResize : bool) (item : LayoutItem num)
  : WrapperView :=
  let rect := placeItem layout item in
  mkWrapperView (li_index item) (li_src item) rect enableDrag
    (if enableResize
     then Some (js_or (Some (placed_width rect / placed_height rect))
                      num_one)
     else None).

(** What [render] puts into the target. *)
Definition renderContent (o : Options) (loadedRatios : string -> option num)
  : Content :=
  if Nat.eqb (length (o_images o)) 0 then NoImages
  else
    let layout :=
      computeMosaicLayout (o_images o) loadedRatios (widthOf o) (heightOf o)
                          (gapOf o) in
    Stage (map (wrapperOf layout (default (o_enableDrag o) false)
                          (default (o_enableResize o) false))
               (items layout)).

Definition render (c : Component) : Component :=
  mkComponent (c_state c) (c_loadedRatios c) (c_pendingLoads c)
              (c_destroyed c)
              (mkTarget (t_base (c_target c))
                        (Some (widthOf (c_state c)))
                        (Some (heightOf (c_state c)))
                        (renderContent (c_state c) (c_loadedRatios c))).

(** Truthiness of a number that may be [undefined] or [null]. *)
Definition truthyOpt (o : option num) : bool :=
  match o with Some v => num_truthy v | None => false end.

(** [pendingLoads.has], [add] and [delete]. *)
Definition pendingHas (pending : list string) (src : string) : bool :=
  existsb (String.eqb src) pending.

Definition pendingAdd (pending : list string) (src : string) : list string :=
  if pendingHas pending src then pending else pending ++ [src].

Definition pendingDelete (pending : list string) (src : string)
  : list string :=
  filter (fun s => negb (String.eqb src s)) pending.

(** The body of the [forEach] of [loadMissingRatios]: the pending set and
    the probes started so far. *)
Definition probeStep (loadedRatios : string -> option num)
           (st : list string * list string) (src : string)
  : list string * list string :=
  let '(pending, started) := st in
  if truthyOpt (loadedRatios src) then st
  else if truthyOpt (getAspectRatioFromUrl src) then st
  else if pendingHas pending src then st
  else (pendingAdd pending src, started ++ [src]).

(** [loadMissingRatios]: the component, and the sources for which an image
    probe was started. *)
Definition loadMissingRatios (c : Component) : Component * list string :=
  let '(pending, started) :=
    fold_left (probeStep (c_loadedRatios c)) (o_images (c_state c))
              (c_pendingLoads c, []) in
  (mkComponent (c_state c) (c_loadedRatios c) pending (c_destroyed c)
               (c_target c),
   started).

Definition setRatio (loadedRatios : string -> option num) (src : string)
           (v : num) : string -> option num :=
  fun s => if String.eqb s src then Some v else loadedRatios s.

(** [img.onload] of the probe of [src], for an image of the given natural
    size. *)
Definition onload (c : Component) (src : string)
           (naturalWidth naturalHeight : nat) : Component :=
  let pending := pendingDelete (c_pendingLoads c) src in
  let c1 := mkComponent (c_state c) (c_loadedRatios c) pending
                        (c_destroyed c) (c_target c) in
  if c_destroyed c then c1
  else if Nat.eqb naturalHeight 0 then c1
  else
    render (mkComponent (c_state c)
                        (setRatio (c_loadedRatios c) src
                                  (num_of_nat naturalWidth
                                   / num_of_nat naturalHeight))
                        pending (c_destroyed c) (c_target c)).

(** [img.onerror] of the probe of [src]. *)
Definition onerror (c : Component) (src : string) : Component :=
  mkComponent (c_state c) (c_loadedRatios c)
              (pendingDelete (c_pendingLoads c) src) (c_destroyed c)
              (c_target c).

(** [ensureBaseLayout] on the target.  It is proved below never to throw;
    the [None] branch stands for the exception. *)
Definition ensureBase (c : Component) : Component :=
  match Markup.ensureBaseLayout (t_base (c_target c))
                                (o_className (c_state c)) with
  | Some base =>
      mkComponent (c_state c) (c_loadedRatios c) (c_pendingLoads c)
                  (c_destroyed c)
                  (mkTarget base (t_width (c_target c))
                            (t_height (c_target c))
                            (t_content (c_target c)))
  | None => c
  end.

(** [update(next)] *)
Definition update (c : Component) (next : PartialOptions)
  : Component * list string :=
  let c1 := mkComponent (mergeOptions (c_state c) next) (c_loadedRatios c)
                        (c_pendingLoads c) (c_destroyed c) (c_target c) in
  loadMissingRatios (render (ensureBase c1)).

(** [destroy()] *)
Definition destroy (c : Component) : Component :=
  mkComponent (c_state c) (c_loadedRatios c) [] true
              (mkTarget (t_base (c_target c)) (t_width (c_target c))
                        (t_height (c_target c)) Cleared).

(** [mountImgCollage(target, options)], on a target with the given base
    layout and content. *)
Definition mountImgCollage (target : Target) (options : Options)
  : Component * list string :=
  let c0 := mkComponent options (fun _ => None) [] false target in
  loadMissingRatios (render (ensureBase c0)).

(** The names a plain object answers without their having been set: the
    properties of [Object.prototype] (its own property names, as the
    language and its annex on legacy features define them).  For every
    other source [loadedRatios[src]] is what was stored under the source,
    or [undefined]. *)
Definition inheritedKeys : list string :=
  ["constructor"; "__defineGetter__"; "__defineSetter__"; "hasOwnProperty";
   "__lookupGetter__"; "__lookupSetter__"; "isPrototypeOf";
   "propertyIsEnumerable"; "toString"; "valueOf"; "__proto__";
   "toLocaleString"]%string.

Definition inheritedKey (src : string) : bool :=
  existsb (String.eqb src) inheritedKeys.

(** What happens to a mounted component. *)
Inductive Event : Type :=
| Loaded (src : string) (naturalWidth naturalHeight : nat)
| Failed (src : string)
| Updated (next : PartialOptions)
| Destroyed.

Definition componentStep (c : Component) (ev : Event)
  : Component * list string :=
  match ev with
  | Loaded src nw nh => (onload c src nw nh, [])
  | Failed src => (onerror c src, [])
  | Updated next => update c next
  | Destroyed => (destroy c, [])
  end.

(** The component after a sequence of events. *)
Definition runComponent (evs : list Event) (c : Component) : Component :=
  fold_left (fun c ev => fst (componentStep c ev)) evs c.

End Component.

Arguments Options : clear implicits.
Arguments PartialOptions : clear implicits.
Arguments WrapperView : clear implicits.
Arguments Content : clear implicits.
Arguments Target : clear implicits.
Arguments Component : clear implicits.
Arguments Event : clear implicits.

(** ** The first version of the layout

    [computeMosaicLayout] of [0_backup/v1/.../components/ImgCollage.ts].
    Its steps 1 to 3 are those of the current function, word for word; its
    geometry is one loop that pushes every item with its [y], and it keeps
    the configured gap between the rows. *)

Module V1.
Section LayoutV1.
Context {num : Type} {JS : JSNumber num}.
Local Open Scope js_scope.

(** The inner [row.items.forEach]: the items pushed so far and
    [currentX]. *)
Definition itemStep (rowHeight gap currentY : num)
           (st : list (LayoutItem num) * num) (item : Item num)
  : list (LayoutItem num) * num :=
  let '(layoutItems, currentX) := st in
  let itemWidth := item_ratio item * rowHeight in
  (layoutItems ++ [mkLayoutItem (item_index item) (item_src item) currentX
                                currentY itemWidth rowHeight],
   currentX + (itemWidth + gap)).

(** The outer [rows.forEach]: the items pushed so far and [currentY]. *)
Definition rowStep (containerWidth gap : num)
           (st : list (LayoutItem num) * num) (row : Row num)
  : list (LayoutItem num) * num :=
  let '(layoutItems, currentY) := st in
  if Nat.eqb (length (row_items row)) 0 then st
  else
    let rowHeight := rowHeightOf row containerWidth gap in
    (fst (fold_left (itemStep rowHeight gap currentY) (row_items row)
                    (layoutItems, num_zero)),
     currentY + (rowHeight + gap)).

Definition computeMosaicLayout (images : list string)
           (ratios : string -> option num)
           (containerWidth containerHeight gap : num) : LayoutResult num :=
  if Nat.eqb (length images) 0 then
    mkLayoutResult [] num_zero num_one num_zero num_zero
  else
    let rows := mosaicRows images ratios containerWidth containerHeight in
    let '(layoutItems, currentY) :=
      fold_left (rowStep containerWidth gap) rows ([], num_zero) in
    let totalHeight :=
      if currentY >? num_zero then currentY - gap else num_zero in
    let scale := scaleOf totalHeight containerHeight in
    let finalWidth := containerWidth * scale in
    let finalHeight := totalHeight * scale in
    let leftOffset := (containerWidth - finalWidth) / num_two in
    let topOffset := (containerHeight - finalHeight) / num_two in
    mkLayoutResult layoutItems totalHeight scale topOffset leftOffset.

(** [currentY] after the rows, from a given [currentY] on. *)
Definition yAfter (gap currentY : num) (rowLayouts : list (RowLayout num))
  : num :=
  fold_left (fun y rl => y + (rl_height rl + gap)) rowLayouts currentY.

End LayoutV1.
End V1.

(** ** The properties the theorems are stated with *)

Section Properties.
Context {num : Type} {JS : JSNumber num}.

(** What holds of every state the handlers reach: a pair of listeners is
    registered once, and exactly while its gesture is going on. *)
Definition listening (st : Interactive num) : Prop :=
  NoDup (i_listeners st)
  /\ (In DragListeners (i_listeners st) <-> dragging (i_drag st) = true)
  /\ (In ResizeListeners (i_listeners st)
      <-> resizing (i_resize st) = true).

(** The geometry of the layout of a row, in the arithmetic of the
    program: the height is the available width over the ratio sum; there
    is a cell for every item, with its index and source, of the height of
    the row and of width ratio times height; the first cell starts at 0
    and every next cell starts at the start of the one before plus that
    cell's width plus the gap. *)
Definition rowGeometry (cw gap : num) (row : Row num) (rl : RowLayout num)
  : Prop :=
  rl_height rl
  = ((cw - (num_of_nat (length (row_items row)) - num_one) * gap)
     / sumRatio row)%js
  /\ length (rl_items rl) = length (row_items row)
  /\ (forall i item c,
        nth_error (row_items row) i = Some item ->
        nth_error (rl_items rl) i = Some c ->
        cell_index c = item_index item /\ cell_src c = item_src item
        /\ cell_height c = rl_height rl
        /\ cell_width c = (item_ratio item * rl_height rl)%js)
  /\ (forall c, nth_error (rl_items rl) 0 = Some c -> cell_x c = num_zero)
  /\ (forall i c c',
        nth_error (rl_items rl) i = Some c ->
        nth_error (rl_items rl) (S i) = Some c' ->
        cell_x c' = (cell_x c + (cell_width c + gap))%js).

(** A row that the geometry loop does not skip. *)
Definition notSkipped (row : Row num) : bool :=
  negb (Nat.eqb (length (row_items row)) 0).

(** A source needs a probe when neither a measured ratio nor the ratio of
    its address is there to be used. *)
Definition needsProbe (loadedRatios : string -> option num) (src : string)
  : Prop :=
  truthyOpt (loadedRatios src) = false
  /\ truthyOpt (getAspectRatioFromUrl (num := num) src) = false.

(** The target shows what [render] makes of the current state, or it
    was cleared by [destroy]. *)
Definition fresh (c : Component num) : Prop :=
  (t_width (c_target c) = Some (widthOf (c_state c))
   /\ t_height (c_target c) = Some (heightOf (c_state c))
   /\ t_content (c_target c)
      = renderContent (c_state c) (c_loadedRatios c))
  \/ (c_destroyed c = true /\ t_content (c_target c) = Cleared).

(** No source is pending twice, and every pending source needs its
    probe. *)
Definition pendingOk (c : Component num) : Prop :=
  NoDup (c_pendingLoads c)
  /\ Forall (needsProbe (c_loadedRatios c)) (c_pendingLoads c).

(** Every ratio on record is the quotient of the natural width and the
    natural height of an image whose natural height is not 0. *)
Definition recorded (c : Component num) : Prop :=
  forall src v,
    c_loadedRatios c src = Some v ->
    exists naturalWidth naturalHeight : nat,
      naturalHeight <> 0%nat
      /\ v = (num_of_nat naturalWidth / num_of_nat naturalHeight)%js.

(** Sources none of which is the name of an inherited property, and an
    event that sets no other images. *)
Definition plainSources (images : list string) : Prop :=
  Forall (fun src => inheritedKey src = false) images.

Definition plainEvent (ev : Event num) : Prop :=
  match ev with
  | Updated next =>
      match p_images next with
      | Some images => plainSources images
      | None => True
      end
  | _ => True
  end.

(** The events that are completions of probes. *)
Definition isCompletion (ev : Event num) : bool :=
  match ev with
  | Loaded _ _ _ | Failed _ => true
  | Updated _ | Destroyed => false
  end.

End Properties.

Section RationalProperties.
Local Open Scope Q_scope.

(** The inputs the geometry is stated for: a positive container, a gap
    that is not negative, measured ratios that are not negative, and a
    width with room for the gaps of one row of all the images. *)
Definition wellFormed (images : list string) (ratios : string -> option Q)
           (cw ch gap : Q) : Prop :=
  0 < cw /\ 0 < ch /\ 0 <= gap
  /\ (forall s v, ratios s = Some v -> 0 <= v)
  /\ (inject_Z (Z.of_nat (length images)) - 1) * gap < cw.

(** A row layout as the geometry step builds it for a container of width
    [cw]: positive height, at least one cell, every cell as high as the row
    and between 0 and [cw]. *)
Definition rowLayoutOk (cw : Q) (rl : RowLayout Q) : Prop :=
  0 < rl_height rl
  /\ rl_items rl <> []
  /\ Forall (fun c : Cell Q =>
               cell_height c = rl_height rl
               /\ 0 <= cell_x c /\ 0 < cell_width c
               /\ cell_x c + cell_width c <= cw)
            (rl_items rl).

(** A placed rectangle that lies within the container and has a positive
    width and height. *)
Definition placedInside (cw ch : Q) (p : Placed Q) : Prop :=
  (0 <= placed_left p /\ placed_left p + placed_width p <= cw)
  /\ (0 <= placed_top p /\ placed_top p + placed_height p <= ch)
  /\ 0 < placed_width p /\ 0 < placed_height p.

(** [a] comes before [b] with at least the gap between them: to the left
    of it in the same row, or in a row above it. *)
Definition separated (gap : Q) (a b : LayoutItem Q) : Prop :=
  (li_y a = li_y b /\ li_x a + li_width a + gap <= li_x b)
  \/ li_y a + li_height a + gap <= li_y b.

(** A row layout with at least one cell whose cells are as high as the
    row. *)
Definition rowShape (rl : RowLayout Q) : Prop :=
  rl_items rl <> []
  /\ Forall (fun c : Cell Q => cell_height c = rl_height rl) (rl_items rl).

(** A wrapper that lies within the container. *)
Definition insideContainer (width height : Q) (w : Wrapper Q) : Prop :=
  (0 <= w_left w /\ w_left w + w_width w <= width)
  /\ (0 <= w_top w /\ w_top w + w_height w <= height).

(** No measured ratio is negative. *)
Definition ratiosNonneg (c : Component Q) : Prop :=
  forall s v, c_loadedRatios c s = Some v -> 0 <= v.

(** The options the layout is well-formed for: a positive width and
    height, a gap that is not negative, and a width that has room for the
    gaps of one row of all the images. *)
Definition optionsOk (o : Options Q) : Prop :=
  0 < widthOf o /\ 0 < heightOf o /\ 0 <= gapOf o
  /\ (inject_Z (Z.of_nat (length (o_images o))) - 1) * gapOf o < widthOf o.

End RationalProperties.

(** ** A sample page *)

Module DemoPage.

Definition target0 : Target Q :=
  mkTarget (Markup.mkBaseLayout None None None []) None None Cleared.

(** Four images in 400 by 300 with a gap of 10, draggable and
    resizable. *)
Definition options : Options Q :=
  mkOptions ["a"; "c"; Demo.picsum; "c"]%string (Some 400%Q) (Some 300%Q)
            (Some (Markup.str "collage  wide")) (Some 10%Q) (Some true)
            (Some true) None.

(** [update({ width: 600 })] *)
Definition wider : PartialOptions Q :=
  mkPartialOptions None (Some (Some 600%Q)) None None None None None None.

Definition mounted : Component Q := fst (mountImgCollage target0 options).

Definition events : list (Event Q) :=
  [Loaded "a" 1600 900; Failed "c"; Updated wider; Loaded "c" 100 100].

(** The wrappers shown after the events. *)
Definition shown : list (WrapperView Q) :=
  match t_content (c_target (runComponent events mounted)) with
  | Stage wrappers => wrappers
  | _ => []
  end.

Definition wrapper0 : Wrapper Q := mkWrapper 10%Q 20%Q 100%Q 50%Q.

(** A press on the wrapper, a move far out of the container and a move
    back. *)
Definition gesture : list (PointerEvent Q) :=
  [Down 0 false 15%Q 25%Q; Move 500%Q (-40)%Q; Move 30%Q 30%Q].

Definition sources : list Markup.jsString :=
  [Markup.str "a.jpg"; Markup.str "b.png"].

End DemoPage.

(** ** The matcher and the meaning of the pattern *)

Module RegexFacts.

Lemma strip_prefix_sound l : forall s s',
  strip_prefix l s = Some s' -> s = l ++ s'.
Proof.
  induction l as [|a l IH]; intros s s' H; simpl in H.
  - now inversion H.
  - destruct s as [|b s0]; [discriminate|].
    destruct (Ascii.eqb a b) eqn:E; [|discriminate].
    apply Ascii.eqb_eq in E. subst b. simpl. f_equal. now apply IH.
Qed.

Lemma strip_prefix_complete l s' : strip_prefix l (l ++ s') = Some s'.
Proof.
  induction l as [|a l IH]; simpl; [reflexivity|].
  now rewrite Ascii.eqb_refl.
Qed.

Section Star.
Context {A : Type}.

Lemma star_sound (p : ascii -> bool) : forall s (k : list ascii -> option A) a,
  star p s k = Some a ->
  exists u s', s = u ++ s' /\ Forall (fun c => p c = true) u /\ k s' = Some a.
Proof.
  induction s as [|c s0 IH]; intros k a H; simpl in H.
  - exists [], []. auto.
  - destruct (p c) eqn:Ec.
    + destruct (star p s0 k) as [a0|] eqn:E0; simpl in H.
      * inversion H; subst a0.
        destruct (IH _ _ E0) as (u & s' & -> & Hu & Hk).
        exists (c :: u), s'. auto.
      * exists [], (c :: s0). auto.
    + exists [], (c :: s0). auto.
Qed.

Lemma star_any (p : ascii -> bool) s (k : list ascii -> option A) a :
  k s = Some a -> exists a', star p s k = Some a'.
Proof.
  intros Hk. destruct s as [|c s0]; simpl; [eauto|].
  destruct (p c); [|eauto].
  destruct (star p s0 k); simpl; eauto.
Qed.

Lemma star_complete (p : ascii -> bool) :
  forall u s' (k : list ascii -> option A) a,
    Forall (fun c => p c = true) u -> k s' = Some a ->
    exists a', star p (u ++ s') k = Some a'.
Proof.
  induction u as [|c u IH]; intros s' k a Hu Hk.
  - now apply star_any with a.
  - inversion Hu as [|? ? Hc Hu']; subst. simpl. rewrite Hc.
    destruct (IH s' k a Hu' Hk) as [a' ->]. simpl. eauto.
Qed.

(** Whatever the matcher finds is a match of the pattern... *)
Lemma rmatch_sound : forall r s caps
    (k : list ascii -> list (list ascii) -> option A) a,
  rmatch r s caps k = Some a ->
  exists s' c, matches r s s' c /\ k s' (caps ++ c) = Some a.
Proof.
  induction r as [l|c|c|r1 IH1|r1 IH1| |r1 IH1 r2 IH2];
    intros s caps k a H; simpl in H.
  - destruct (strip_prefix l s) as [s'|] eqn:E; [|discriminate].
    apply strip_prefix_sound in E. subst s.
    exists s', []. rewrite app_nil_r. split; [constructor | exact H].
  - apply star_sound in H. destruct H as (u & s' & -> & Hu & Hk).
    exists s', []. rewrite app_nil_r. split; [now constructor | exact Hk].
  - destruct s as [|a0 s0]; [discriminate|].
    destruct (in_class c a0) eqn:E0; [|discriminate].
    apply star_sound in H. destruct H as (u & s' & -> & Hu & Hk).
    exists s', []. rewrite app_nil_r. split; [now constructor | exact Hk].
  - apply IH1 in H. destruct H as (s' & c & Hm & Hk).
    exists s', (c ++ [firstn (length s - length s') s]).
    rewrite app_assoc. split; [now constructor | exact Hk].
  - destruct (rmatch r1 s caps k) as [a1|] eqn:E1; simpl in H.
    + inversion H; subst a1. apply IH1 in E1.
      destruct E1 as (s' & c & Hm & Hk).
      exists s', c. split; [now apply M_OptSome | exact Hk].
    + exists s, []. rewrite app_nil_r. split; [apply M_OptNone | exact H].
  - destruct s; [|discriminate].
    exists [], []. rewrite app_nil_r. split; [constructor | exact H].
  - apply IH1 in H. destruct H as (s1 & c1 & Hm1 & H).
    apply IH2 in H. destruct H as (s2 & c2 & Hm2 & Hk).
    exists s2, (c1 ++ c2). rewrite app_assoc.
    split; [econstructor; eassumption | exact Hk].
Qed.

(** ... and where the pattern has a match that the continuation accepts,
    the matcher finds one. *)
Lemma rmatch_complete : forall r s s' c,
  matches r s s' c ->
  forall caps (k : list ascii -> list (list ascii) -> option A) a,
    k s' (caps ++ c) = Some a ->
    exists a', rmatch r s caps k = Some a'.
Proof.
  induction 1 as [l s'|c u s' Hu|c a0 u s' Ha Hu|r s s' c Hm IH
                  |r s s' c Hm IH|r s| |r1 r2 s s1 s2 c1 c2 Hm1 IH1 Hm2 IH2];
    intros caps k a Hk; simpl.
  - rewrite strip_prefix_complete. rewrite app_nil_r in Hk. eauto.
  - rewrite app_nil_r in Hk.
    now apply star_complete with (k := fun s'' => k s'' caps) (a := a).
  - rewrite Ha. rewrite app_nil_r in Hk.
    now apply star_complete with (k := fun s'' => k s'' caps) (a := a).
  - rewrite app_assoc in Hk. eapply IH. exact Hk.
  - destruct (IH caps k a Hk) as [a' ->]. simpl. eauto.
  - rewrite app_nil_r in Hk. destruct (rmatch r s caps k); simpl; eauto.
  - rewrite app_nil_r in Hk. eauto.
  - rewrite app_assoc in Hk.
    destruct (IH2 (caps ++ c1) k a Hk) as [a2 H2].
    eapply IH1. exact H2.
Qed.

End Star.

Lemma exec_sound r : forall s caps,
  exec r s = Some caps ->
  exists pre s0 s', s = pre ++ s0 /\ matches r s0 s' caps.
Proof.
  induction s as [|a s IH]; intros caps H; simpl in H.
  - destruct (rmatch r [] [] (fun _ c => Some c)) as [c0|] eqn:E;
      simpl in H; [|discriminate].
    inversion H; subst c0. apply rmatch_sound in E.
    destruct E as (s' & c & Hm & Hk). inversion Hk; subst.
    exists [], [], s'. auto.
  - destruct (rmatch r (a :: s) [] (fun _ c => Some c)) as [c0|] eqn:E;
      simpl in H.
    + inversion H; subst c0. apply rmatch_sound in E.
      destruct E as (s' & c & Hm & Hk). inversion Hk; subst.
      exists [], (a :: s), s'. auto.
    + apply IH in H. destruct H as (pre & s0 & s' & -> & Hm).
      exists (a :: pre), s0, s'. auto.
Qed.

Lemma exec_complete r : forall pre s0 s' caps,
  matches r s0 s' caps -> exists caps', exec r (pre ++ s0) = Some caps'.
Proof.
  intros pre s0 s' caps Hm.
  assert (Hhere : exists caps', exec r s0 = Some caps').
  { destruct (rmatch_complete r s0 s' caps Hm [] (fun _ c => Some c) caps
                              eq_refl) as [c' Hc'].
    exists c'. destruct s0; simpl; now rewrite Hc'. }
  induction pre as [|a pre IH]; [exact Hhere|].
  destruct IH as [c' Hc']. simpl.
  destruct (rmatch r (a :: pre ++ s0) [] (fun _ c => Some c)); simpl; eauto.
Qed.

(** *** Inversion of matches *)

Lemma firstn_consumed {A : Type} (u s' : list A) :
  firstn (length (u ++ s') - length s') (u ++ s') = u.
Proof.
  rewrite length_app.
  replace (length u + length s' - length s') with (length u + 0) by lia.
  rewrite firstn_app_2. simpl. apply app_nil_r.
Qed.

Lemma matches_Seq_inv r1 r2 s s2 c :
  matches (Seq r1 r2) s s2 c ->
  exists s1 c1 c2,
    matches r1 s s1 c1 /\ matches r2 s1 s2 c2 /\ c = c1 ++ c2.
Proof. inversion 1; subst. eauto 7. Qed.

Lemma matches_Lit_inv l s s' c :
  matches (Lit l) s s' c -> s = l ++ s' /\ c = [].
Proof. inversion 1; subst. auto. Qed.

Lemma matches_Star_inv cl s s' c :
  matches (Star cl) s s' c ->
  exists u, s = u ++ s' /\ Forall (fun a => in_class cl a = true) u /\ c = [].
Proof. inversion 1; subst. eauto. Qed.

Lemma matches_Group_Plus_inv cl s s' c :
  matches (Group (Plus cl)) s s' c ->
  exists u,
    s = u ++ s' /\ u <> [] /\ Forall (fun a => in_class cl a = true) u
    /\ c = [u].
Proof.
  inversion 1 as [| | |r s0 s0' c0 Hm| | | |]; subst.
  inversion Hm as [| |cl0 a u s0 Ha Hu| | | | |]; subst.
  exists (a :: u). split; [reflexivity|]. split; [discriminate|].
  split; [now constructor|].
  simpl app at 1. f_equal.
  exact (firstn_consumed (a :: u) s').
Qed.

Lemma matches_Opt_Lit_inv l s s' c :
  matches (Opt (Lit l)) s s' c -> (s = l ++ s' \/ s = s') /\ c = [].
Proof.
  inversion 1 as [| | | |r s0 s0' c0 Hm|r s0| |]; subst.
  - apply matches_Lit_inv in Hm. destruct Hm as [-> ->]. auto.
  - auto.
Qed.

Lemma matches_End_inv s s' c : matches End s s' c -> s = [] /\ s' = [] /\ c = [].
Proof. inversion 1; subst. auto. Qed.

(** What a match of the pattern of the source looks like. *)
Lemma picsum_match_shape s0 s' caps :
  matches picsumPattern s0 s' caps ->
  exists mid W H opt,
    s0 = list_ascii_of_string "picsum.photos/" ++ mid
         ++ [slash] ++ W ++ [slash] ++ H ++ opt
    /\ s' = [] /\ caps = [W; H]
    /\ Forall (fun a => in_class Dot a = true) mid
    /\ W <> [] /\ Forall (fun a => in_class Digit a = true) W
    /\ H <> [] /\ Forall (fun a => in_class Digit a = true) H
    /\ (opt = [] \/ opt = [slash]).
Proof.
  unfold picsumPattern. intros Hm.
  apply matches_Seq_inv in Hm. destruct Hm as (s1 & c1 & d1 & Hhost & Hm & ->).
  apply matches_Lit_inv in Hhost. destruct Hhost as [-> ->].
  apply matches_Seq_inv in Hm. destruct Hm as (s2 & c2 & d2 & Hmid & Hm & ->).
  apply matches_Star_inv in Hmid. destruct Hmid as (mid & -> & Hdot & ->).
  apply matches_Seq_inv in Hm. destruct Hm as (s3 & c3 & d3 & Hsl & Hm & ->).
  apply matches_Lit_inv in Hsl. destruct Hsl as [-> ->].
  apply matches_Seq_inv in Hm. destruct Hm as (s4 & c4 & d4 & Hw & Hm & ->).
  apply matches_Group_Plus_inv in Hw.
  destruct Hw as (W & -> & HWne & HW & ->).
  apply matches_Seq_inv in Hm. destruct Hm as (s5 & c5 & d5 & Hsl & Hm & ->).
  apply matches_Lit_inv in Hsl. destruct Hsl as [-> ->].
  apply matches_Seq_inv in Hm. destruct Hm as (s6 & c6 & d6 & Hh & Hm & ->).
  apply matches_Group_Plus_inv in Hh.
  destruct Hh as (H & -> & HHne & HH & ->).
  apply matches_Seq_inv in Hm. destruct Hm as (s7 & c7 & d7 & Hopt & Hend & ->).
  apply matches_End_inv in Hend. destruct Hend as (-> & -> & ->).
  apply matches_Opt_Lit_inv in Hopt. destruct Hopt as [Hopt ->].
  exists mid, W, H, s6.
  split; [reflexivity|]. split; [reflexivity|]. split; [reflexivity|].
  split; [exact Hdot|]. split; [exact HWne|]. split; [exact HW|].
  split; [exact HHne|]. split; [exact HH|].
  destruct Hopt as [-> | ->]; [right | left]; reflexivity.
Qed.

Lemma shape_matches mid W H opt :
  Forall (fun a => in_class Dot a = true) mid ->
  W <> [] -> Forall (fun a => in_class Digit a = true) W ->
  H <> [] -> Forall (fun a => in_class Digit a = true) H ->
  opt = [] \/ opt = [slash] ->
  exists caps,
    matches picsumPattern
            (list_ascii_of_string "picsum.photos/" ++ mid
             ++ [slash] ++ W ++ [slash] ++ H ++ opt)
            [] caps.
Proof.
  intros Hmid HWne HW HHne HH Hopt.
  destruct W as [|w0 W']; [congruence|]. destruct H as [|h0 H']; [congruence|].
  inversion HW as [|? ? Hw0 HW']; inversion HH as [|? ? Hh0 HH']; subst.
  eexists. unfold picsumPattern.
  eapply M_Seq; [apply M_Lit|].
  eapply M_Seq; [apply M_Star; exact Hmid|].
  eapply M_Seq; [apply (M_Lit [slash])|].
  eapply M_Seq.
  { apply M_Group.
    exact (M_Plus Digit w0 W' ([slash] ++ (h0 :: H') ++ opt) Hw0 HW'). }
  eapply M_Seq; [apply (M_Lit [slash])|].
  eapply M_Seq.
  { apply M_Group. exact (M_Plus Digit h0 H' opt Hh0 HH'). }
  eapply M_Seq; [|apply M_End].
  destruct Hopt as [-> | ->].
  - apply M_OptNone.
  - apply M_OptSome. apply (M_Lit [slash] []).
Qed.

(** *** The width and the height of a source are determined *)

Lemma digit_run_unique : forall u u' x x' r r',
  Forall (fun a => is_digit a = true) u ->
  Forall (fun a => is_digit a = true) u' ->
  is_digit x = false -> is_digit x' = false ->
  u ++ x :: r = u' ++ x' :: r' ->
  u = u' /\ r = r'.
Proof.
  induction u as [|a u IH]; intros u' x x' r r' Hu Hu' Hx Hx' E.
  - destruct u' as [|a' u'].
    + simpl in E. inversion E. auto.
    + simpl in E. inversion E; subst.
      inversion Hu'; subst. congruence.
  - destruct u' as [|a' u'].
    + simpl in E. inversion E; subst. inversion Hu; subst. congruence.
    + simpl in E. inversion E; subst.
      inversion Hu; inversion Hu'; subst.
      destruct (IH u' x x' r r') as [-> ->]; auto.
Qed.

Lemma rev_digits u :
  Forall (fun a => is_digit a = true) u ->
  Forall (fun a => is_digit a = true) (rev u).
Proof. apply Forall_rev. Qed.

Lemma shape_unique s W H W' H' :
  PicsumShape s W H -> PicsumShape s W' H' -> W = W' /\ H = H'.
Proof.
  intros (pre & mid & opt & E & _ & HWne & HW & HHne & HH & Hopt)
         (pre' & mid' & opt' & E' & _ & HWne' & HW' & HHne' & HH' & Hopt').
  apply (f_equal (@rev ascii)) in E, E'.
  rewrite E in E'. clear E.
  repeat rewrite ?rev_app_distr, <- ?app_assoc in E'.
  simpl in HW, HH, HW', HH'. apply rev_digits in HW, HH, HW', HH'.
  assert (Hne : rev H <> []).
  { intros Hn. apply (f_equal (@rev ascii)) in Hn.
    rewrite rev_involutive in Hn. contradiction. }
  assert (Hne' : rev H' <> []).
  { intros Hn. apply (f_equal (@rev ascii)) in Hn.
    rewrite rev_involutive in Hn. contradiction. }
  assert (Etail :
    rev H ++ rev [slash] ++ rev W ++ rev [slash]
        ++ rev mid ++ rev (list_ascii_of_string "picsum.photos/") ++ rev pre
    = rev H' ++ rev [slash] ++ rev W' ++ rev [slash]
        ++ rev mid' ++ rev (list_ascii_of_string "picsum.photos/")
        ++ rev pre').
  { destruct Hopt as [-> | ->], Hopt' as [-> | ->]; simpl rev at 1 in E';
      try (simpl rev at 5 in E'); simpl app at 1 in E'.
    - exact E'.
    - exfalso. destruct (rev H) as [|d t]; [congruence|].
      inversion HH; subst. simpl in E'. inversion E'; subst.
      discriminate.
    - exfalso. destruct (rev H') as [|d t]; [congruence|].
      inversion HH'; subst. simpl in E'. inversion E'; subst.
      discriminate.
    - simpl in E'. now inversion E'. }
  set (R := rev mid ++ rev (list_ascii_of_string "picsum.photos/") ++ rev pre)
    in Etail.
  set (R' := rev mid' ++ rev (list_ascii_of_string "picsum.photos/")
                 ++ rev pre') in Etail.
  destruct (digit_run_unique (rev H) (rev H') slash slash
              (rev W ++ slash :: R) (rev W' ++ slash :: R')
              HH HH' eq_refl eq_refl Etail) as [EH Erest].
  destruct (digit_run_unique (rev W) (rev W') slash slash R R'
              HW HW' eq_refl eq_refl Erest) as [EW _].
  split.
  - rewrite <- (rev_involutive W), EW. apply rev_involutive.
  - rewrite <- (rev_involutive H), EH. apply rev_involutive.
Qed.

(** *** The parser on every source *)

Lemma exec_picsum_sound s caps :
  exec picsumPattern s = Some caps ->
  exists W H, PicsumShape s W H /\ caps = [W; H].
Proof.
  intros He. apply exec_sound in He.
  destruct He as (pre & s0 & s' & -> & Hm).
  apply picsum_match_shape in Hm.
  destruct Hm as (mid & W & H & opt & -> & _ & -> & Hrest).
  exists W, H. split; [|reflexivity].
  exists pre, mid, opt. split; [reflexivity | exact Hrest].
Qed.

Lemma exec_picsum_complete s W H :
  PicsumShape s W H -> exec picsumPattern s = Some [W; H].
Proof.
  intros Hs.
  destruct Hs as (pre & mid & opt & E & Hmid & HWne & HW & HHne & HH & Hopt).
  destruct (shape_matches mid W H opt Hmid HWne HW HHne HH Hopt)
    as [caps Hm].
  destruct (exec_complete picsumPattern pre _ _ _ Hm) as [caps' He].
  rewrite <- E in He.
  destruct (exec_picsum_sound s caps' He) as (W' & H' & Hs' & ->).
  assert (Hs : PicsumShape s W H)
    by (exists pre, mid, opt; repeat split; assumption).
  destruct (shape_unique s W H W' H' Hs Hs') as [-> ->]. exact He.
Qed.

(** A source has the shape exactly when the parser finds its two
    integers. *)
Theorem picsumDims_of_shape src W H :
  PicsumShape (list_ascii_of_string src) W H ->
  picsumDims src = Some (parseInt W, parseInt H).
Proof.
  intros Hs. unfold picsumDims. now rewrite (exec_picsum_complete _ W H Hs).
Qed.

Theorem picsumDims_shape src w h :
  picsumDims src = Some (w, h) ->
  exists W H,
    PicsumShape (list_ascii_of_string src) W H
    /\ w = parseInt W /\ h = parseInt H.
Proof.
  unfold picsumDims. intros Hd.
  destruct (exec picsumPattern (list_ascii_of_string src)) as [caps|] eqn:E;
    [|discriminate].
  destruct (exec_picsum_sound _ _ E) as (W & H & Hs & ->).
  inversion Hd; subst. eauto.
Qed.

Theorem picsumDims_none src :
  picsumDims src = None
  <-> forall W H, ~ PicsumShape (list_ascii_of_string src) W H.
Proof.
  split.
  - intros Hd W H Hs. rewrite (picsumDims_of_shape src W H Hs) in Hd.
    discriminate.
  - intros Hno. destruct (picsumDims src) as [[w h]|] eqn:E; [|reflexivity].
    destruct (picsumDims_shape src w h E) as (W & H & Hs & _).
    now destruct (Hno W H).
Qed.

End RegexFacts.

(** ** Facts that hold for every arithmetic *)

Section Structure.
Context {num : Type} {JS : JSNumber num}.

Lemma mapi_from_length {A B : Type} (f : A -> nat -> B) l i :
  length (mapi_from f i l) = length l.
Proof.
  revert i; induction l as [|a l IH]; intros i; simpl; [reflexivity|].
  now rewrite IH.
Qed.

Lemma makeItems_indices_from (ratios : string -> option num) images i :
  map (@item_index num)
      (mapi_from (fun src index => mkItem src index (resolveRatio ratios src))
                 i images)
  = seq i (length images).
Proof.
  revert i; induction images as [|s l IH]; intros i; simpl; [reflexivity|].
  now rewrite IH.
Qed.

Lemma makeItems_indices (ratios : string -> option num) images :
  map (@item_index num) (makeItems images ratios) = seq 0 (length images).
Proof. apply makeItems_indices_from. Qed.

Lemma makeItems_length (ratios : string -> option num) images :
  length (makeItems images ratios) = length images.
Proof. apply mapi_from_length. Qed.

(** The read of [items[i + 1]] in the partition loop is in range at every
    index but the last. *)
Lemma next_item_in_range (its : list (Item num)) (i : nat) :
  i < length its -> Nat.eqb i (length its - 1) = false ->
  exists next, nth_error its (i + 1) = Some next.
Proof.
  intros Hi Hne. apply Nat.eqb_neq in Hne.
  destruct (nth_error its (i + 1)) eqn:E; [eauto|].
  apply nth_error_None in E. lia.
Qed.

(** The loop of the source computes the rows of the contract. *)
Lemma partition_loop_refines K ideal (its : list (Item num)) :
  forall l pre st,
    its = pre ++ l ->
    ps_rows (forEachi_from (partitionStep its K ideal) (length pre) l st)
    = ps_rows st
      ++ greedyRows K ideal (length (ps_rows st)) (ps_currentSlice st)
                    (ps_currentSum st) l.
Proof.
  induction l as [|x rest IH]; intros pre st Hits.
  - simpl. now rewrite app_nil_r.
  - cbn [forEachi_from greedyRows].
    assert (Hpre : its = (pre ++ [x]) ++ rest)
      by (rewrite <- app_assoc; exact Hits).
    assert (Hlen : S (length pre) = length (pre ++ [x]))
      by (rewrite length_app; simpl; lia).
    rewrite Hlen, (IH _ _ Hpre). clear IH.
    unfold partitionStep at 1 2 3 4.
    assert (Hn : length its = length pre + S (length rest))
      by (rewrite Hits, length_app; reflexivity).
    destruct rest as [|next rest'].
    + replace (Nat.eqb (length pre) (length its - 1)) with true
        by (symmetry; apply Nat.eqb_eq; simpl in Hn; lia).
      cbn [ps_rows ps_currentSlice ps_currentSum greedyRows].
      now rewrite app_nil_r.
    + replace (Nat.eqb (length pre) (length its - 1)) with false
        by (symmetry; apply Nat.eqb_neq; simpl in Hn; lia).
      assert (Hnext : nth_error its (length pre + 1) = Some next).
      { rewrite Hits, nth_error_app2 by lia.
        replace (length pre + 1 - length pre) with 1 by lia. reflexivity. }
      rewrite Hnext. unfold closesBefore.
      destruct (num_of_nat (length (ps_rows st)) <? K - num_one)%js;
        cbn [andb]; [|reflexivity].
      destruct (num_abs (ps_currentSum st + item_ratio x + item_ratio next - ideal)
                >? num_abs (ps_currentSum st + item_ratio x - ideal))%js;
        cbn [ps_rows ps_currentSlice ps_currentSum]; [|reflexivity].
      rewrite length_app, <- app_assoc. simpl.
      now rewrite Nat.add_1_r.
Qed.

Lemma partitionRows_spec (its : list (Item num)) totalRatio K :
  partitionRows its totalRatio K = partitionSpec its totalRatio K.
Proof.
  unfold partitionRows, partitionSpec.
  destruct (K =? num_one)%js; [reflexivity|].
  change 0 with (length (@nil (Item num))).
  rewrite partition_loop_refines with (pre := []) by reflexivity.
  reflexivity.
Qed.

Lemma greedyRows_concat K ideal :
  forall l closed cur sum,
    l <> [] ->
    concat (map (@row_items num) (greedyRows K ideal closed cur sum l))
    = cur ++ l.
Proof.
  induction l as [|x rest IH]; intros closed cur sum Hne; [congruence|].
  cbn [greedyRows]. destruct rest as [|next rest'].
  - simpl. now rewrite app_nil_r.
  - destruct (closesBefore K ideal closed (sum + item_ratio x)%js next).
    + cbn [map concat row_items]. rewrite IH by discriminate.
      rewrite <- app_assoc. reflexivity.
    + rewrite IH by discriminate. rewrite <- app_assoc. reflexivity.
Qed.

Lemma greedyRows_nonempty K ideal :
  forall l closed cur sum,
    Forall (fun r : Row num => row_items r <> [])
           (greedyRows K ideal closed cur sum l).
Proof.
  induction l as [|x rest IH]; intros closed cur sum; [constructor|].
  cbn [greedyRows]. destruct rest as [|next rest'].
  - constructor; [|constructor]. simpl. now destruct cur.
  - destruct (closesBefore K ideal closed (sum + item_ratio x)%js next).
    + constructor; [simpl; now destruct cur | apply IH].
    + apply IH.
Qed.

Lemma partitionRows_concat (its : list (Item num)) totalRatio K :
  its <> [] ->
  concat (map (@row_items num) (partitionRows its totalRatio K)) = its.
Proof.
  intros Hne. rewrite partitionRows_spec. unfold partitionSpec.
  destruct (K =? num_one)%js.
  - simpl. apply app_nil_r.
  - now rewrite greedyRows_concat.
Qed.

Lemma partitionRows_nonempty (its : list (Item num)) totalRatio K :
  its <> [] ->
  Forall (fun r : Row num => row_items r <> [])
         (partitionRows its totalRatio K).
Proof.
  intros Hne. rewrite partitionRows_spec. unfold partitionSpec.
  destruct (K =? num_one)%js.
  - constructor; [exact Hne | constructor].
  - apply greedyRows_nonempty.
Qed.

(** The inner loop of the geometry step. *)
Lemma cells_loop rowHeight gap :
  forall (its : list (Item num)) cells currentX,
    fst (fold_left (cellStep rowHeight gap) its (cells, currentX))
    = cells ++ cellsFrom rowHeight gap currentX its.
Proof.
  induction its as [|item rest IH]; intros cells currentX; simpl.
  - now rewrite app_nil_r.
  - rewrite IH, <- app_assoc. reflexivity.
Qed.

Lemma buildRow_cells (row : Row num) containerWidth gap :
  rl_items (buildRow row containerWidth gap)
  = cellsFrom (rowHeightOf row containerWidth gap) gap num_zero
              (row_items row).
Proof. unfold buildRow. simpl. now rewrite cells_loop. Qed.

Lemma buildRow_height (row : Row num) containerWidth gap :
  rl_height (buildRow row containerWidth gap)
  = rowHeightOf row containerWidth gap.
Proof. reflexivity. Qed.

Lemma cellsFrom_indices rowHeight gap :
  forall (its : list (Item num)) currentX,
    map (@cell_index num) (cellsFrom rowHeight gap currentX its)
    = map (@item_index num) its.
Proof.
  induction its as [|item rest IH]; intros currentX; simpl;
    [reflexivity | now rewrite IH].
Qed.

(** The outer loop of the geometry step skips nothing when no row is
    empty. *)
Lemma rowLayouts_loop containerWidth gap :
  forall (rows : list (Row num)) acc,
    Forall (fun r : Row num => row_items r <> []) rows ->
    fold_left
      (fun rowLayouts row =>
         if Nat.eqb (length (row_items row)) 0 then rowLayouts
         else rowLayouts ++ [buildRow row containerWidth gap])
      rows acc
    = acc ++ map (fun row => buildRow row containerWidth gap) rows.
Proof.
  induction rows as [|row rest IH]; intros acc Hall; simpl.
  - now rewrite app_nil_r.
  - inversion Hall as [|? ? Hrow Hrest]; subst.
    destruct (row_items row) as [|i0 r0] eqn:E; [congruence|].
    simpl. rewrite IH by assumption. now rewrite <- app_assoc.
Qed.

Lemma buildRowLayouts_map (rows : list (Row num)) containerWidth gap :
  Forall (fun r : Row num => row_items r <> []) rows ->
  buildRowLayouts rows containerWidth gap
  = map (fun row => buildRow row containerWidth gap) rows.
Proof. intros H. unfold buildRowLayouts. now rewrite rowLayouts_loop. Qed.

Lemma push_loop {A B : Type} (f : A -> B) :
  forall (l : list A) (acc : list B),
    fold_left (fun acc c => acc ++ [f c]) l acc = acc ++ map f l.
Proof.
  induction l as [|a l IH]; intros acc; simpl.
  - now rewrite app_nil_r.
  - rewrite IH, <- app_assoc. reflexivity.
Qed.

Lemma stack_loop verticalGap :
  forall (rowLayouts : list (RowLayout num)) acc currentY,
    fst (fold_left (stackStep verticalGap) rowLayouts (acc, currentY))
    = acc ++ stackFrom verticalGap currentY rowLayouts.
Proof.
  induction rowLayouts as [|row rest IH]; intros acc currentY; simpl.
  - now rewrite app_nil_r.
  - rewrite IH, push_loop, <- app_assoc. reflexivity.
Qed.

Lemma stackRows_eq (rowLayouts : list (RowLayout num)) verticalGap :
  stackRows rowLayouts verticalGap
  = stackFrom verticalGap num_zero rowLayouts.
Proof. unfold stackRows. now rewrite stack_loop. Qed.

Lemma stackFrom_indices verticalGap :
  forall (rowLayouts : list (RowLayout num)) currentY,
    map (@li_index num) (stackFrom verticalGap currentY rowLayouts)
    = concat (map (fun row => map (@cell_index num) (rl_items row))
                  rowLayouts).
Proof.
  induction rowLayouts as [|row rest IH]; intros currentY; simpl;
    [reflexivity|].
  rewrite map_app, map_map, IH. reflexivity.
Qed.

Lemma rows_indices (rows : list (Row num)) containerWidth gap :
  concat (map (fun row => map (@cell_index num) (rl_items row))
              (map (fun row => buildRow row containerWidth gap) rows))
  = map (@item_index num) (concat (map (@row_items num) rows)).
Proof.
  induction rows as [|row rest IH]; cbn [map concat]; [reflexivity|].
  rewrite map_app, IH, buildRow_cells, cellsFrom_indices. reflexivity.
Qed.

Lemma mosaicRows_concat images (ratios : string -> option num) cw ch :
  images <> [] ->
  concat (map (@row_items num) (mosaicRows images ratios cw ch))
  = makeItems images ratios.
Proof.
  intros Hne. unfold mosaicRows. apply partitionRows_concat.
  intros E. apply (f_equal (@length _)) in E.
  rewrite makeItems_length in E. destruct images; [congruence|discriminate].
Qed.

Lemma mosaicRows_nonempty images (ratios : string -> option num) cw ch :
  images <> [] ->
  Forall (fun r : Row num => row_items r <> [])
         (mosaicRows images ratios cw ch).
Proof.
  intros Hne. unfold mosaicRows. apply partitionRows_nonempty.
  intros E. apply (f_equal (@length _)) in E.
  rewrite makeItems_length in E. destruct images; [congruence|discriminate].
Qed.

(** The result of a non-empty input, step by step. *)
Lemma computeMosaicLayout_nonempty images (ratios : string -> option num)
      cw ch gap :
  images <> [] ->
  let rowLayouts :=
    map (fun row => buildRow row cw gap) (mosaicRows images ratios cw ch) in
  let verticalGap := fst (fitVertical rowLayouts gap ch) in
  let total := snd (fitVertical rowLayouts gap ch) in
  let sc := scaleOf total ch in
  computeMosaicLayout images ratios cw ch gap
  = mkLayoutResult (stackFrom verticalGap num_zero rowLayouts) total sc
      ((ch - total * sc) / num_two)%js ((cw - cw * sc) / num_two)%js.
Proof.
  intros Hne. unfold computeMosaicLayout.
  destruct images as [|s l]; [congruence|]. cbn [length Nat.eqb].
  rewrite buildRowLayouts_map by (apply mosaicRows_nonempty; discriminate).
  cbv zeta.
  destruct (fitVertical _ gap ch) as [vg th]. cbn [fst snd].
  now rewrite stackRows_eq.
Qed.

(** C1. The items returned by [computeMosaicLayout] carry the indices
    [0 .. n-1] of the input, each once and in increasing order; this holds
    for every list of images, every ratio mapping, every container and
    gap, and whatever the arithmetic computes. *)
Theorem C1_indices_exactly_once images (ratios : string -> option num)
        cw ch gap :
  map (@li_index num) (items (computeMosaicLayout images ratios cw ch gap))
  = seq 0 (length images).
Proof.
  destruct images as [|s l] eqn:E; [reflexivity|]. rewrite <- E.
  assert (Hne : images <> []) by (subst; discriminate).
  rewrite computeMosaicLayout_nonempty by assumption.
  cbn [items]. rewrite stackFrom_indices, rows_indices.
  rewrite mosaicRows_concat by assumption.
  apply makeItems_indices.
Qed.

(** C8. An empty list of images yields the empty layout, whatever the
    other arguments are. *)
Theorem C8_empty_input (ratios : string -> option num) cw ch gap :
  computeMosaicLayout [] ratios cw ch gap
  = mkLayoutResult [] num_zero num_one num_zero num_zero.
Proof. reflexivity. Qed.

Lemma stackFrom_cells verticalGap :
  forall (rowLayouts : list (RowLayout num)) currentY,
    map (@cellOf num) (stackFrom verticalGap currentY rowLayouts)
    = concat (map (@rl_items num) rowLayouts).
Proof.
  induction rowLayouts as [|row rest IH]; intros currentY; simpl;
    [reflexivity|].
  rewrite map_app, map_map, IH. f_equal.
  unfold cellOf, placeCell. simpl.
  rewrite <- (map_id (rl_items row)) at 2.
  apply map_ext. now intros [].
Qed.

Lemma sumRatios_snoc (its : list (Item num)) (x : Item num) :
  sumRatios (its ++ [x]) = (sumRatios its + item_ratio x)%js.
Proof. unfold sumRatios. now rewrite fold_left_app. Qed.

(** Every row records the sum of the ratios of its own items. *)
Lemma greedyRows_sums K ideal :
  forall l closed cur sum,
    sum = sumRatios cur ->
    Forall (fun r : Row num => sumRatio r = sumRatios (row_items r))
           (greedyRows K ideal closed cur sum l).
Proof.
  induction l as [|x rest IH]; intros closed cur sum Hsum; [constructor|].
  cbn [greedyRows].
  assert (Hsum' : (sum + item_ratio x)%js = sumRatios (cur ++ [x]))
    by (rewrite sumRatios_snoc; now subst).
  destruct rest as [|next rest'].
  - constructor; [exact Hsum' | constructor].
  - destruct (closesBefore K ideal closed (sum + item_ratio x)%js next).
    + constructor; [exact Hsum' | now apply IH].
    + now apply IH.
Qed.

Lemma mosaicRows_sums images (ratios : string -> option num) cw ch :
  Forall (fun r : Row num => sumRatio r = sumRatios (row_items r))
         (mosaicRows images ratios cw ch).
Proof.
  unfold mosaicRows. rewrite partitionRows_spec. unfold partitionSpec.
  destruct (_ =? num_one)%js.
  - constructor; [reflexivity | constructor].
  - now apply greedyRows_sums.
Qed.

Lemma cellsFrom_length rowHeight gap :
  forall (its : list (Item num)) currentX,
    length (cellsFrom rowHeight gap currentX its) = length its.
Proof.
  induction its as [|item rest IH]; intros currentX; simpl;
    [reflexivity | now rewrite IH].
Qed.

Lemma cellsFrom_nth rowHeight gap :
  forall (its : list (Item num)) currentX i item c,
    nth_error its i = Some item ->
    nth_error (cellsFrom rowHeight gap currentX its) i = Some c ->
    cell_index c = item_index item
    /\ cell_src c = item_src item
    /\ cell_height c = rowHeight
    /\ cell_width c = (item_ratio item * rowHeight)%js.
Proof.
  induction its as [|it rest IH]; intros currentX i item c Hi Hc.
  - destruct i; discriminate.
  - destruct i as [|i'].
    + simpl in Hi, Hc. inversion Hi; inversion Hc; subst. now simpl.
    + simpl in Hi, Hc. eapply IH; eassumption.
Qed.

Lemma cellsFrom_first rowHeight gap (its : list (Item num)) currentX c :
  nth_error (cellsFrom rowHeight gap currentX its) 0 = Some c ->
  cell_x c = currentX.
Proof.
  destruct its; simpl; [discriminate|]. now inversion 1.
Qed.

Lemma cellsFrom_next rowHeight gap :
  forall (its : list (Item num)) currentX i c c',
    nth_error (cellsFrom rowHeight gap currentX its) i = Some c ->
    nth_error (cellsFrom rowHeight gap currentX its) (S i) = Some c' ->
    cell_x c' = (cell_x c + (cell_width c + gap))%js.
Proof.
  induction its as [|it rest IH]; intros currentX i c c' Hc Hc'.
  - destruct i; discriminate.
  - destruct i as [|i'].
    + cbn [cellsFrom nth_error] in Hc, Hc'.
      inversion Hc; subst. cbn [cell_x cell_width].
      now apply cellsFrom_first in Hc'.
    + cbn [cellsFrom nth_error] in Hc, Hc'. eapply IH; eassumption.
Qed.

(** The first item of a layout sits at the origin of the raw
    coordinates. *)
Lemma first_item_origin images (ratios : string -> option num) cw ch gap
      item :
  nth_error (items (computeMosaicLayout images ratios cw ch gap)) 0
  = Some item ->
  li_x item = num_zero /\ li_y item = num_zero.
Proof.
  destruct images as [|s l] eqn:E; [discriminate|]. rewrite <- E.
  assert (Hne : images <> []) by (subst; discriminate).
  rewrite computeMosaicLayout_nonempty by assumption. cbn [items].
  pose proof (mosaicRows_nonempty images ratios cw ch Hne) as Hall.
  pose proof (mosaicRows_concat images ratios cw ch Hne) as Hcat.
  destruct (mosaicRows images ratios cw ch) as [|r0 rest].
  - simpl in Hcat. symmetry in Hcat.
    apply (f_equal (@length _)) in Hcat.
    rewrite makeItems_length in Hcat. subst. discriminate.
  - inversion Hall as [|? ? Hr0 _]; subst.
    cbn [map stackFrom]. rewrite buildRow_cells.
    destruct (row_items r0) as [|i0 its0]; [congruence|].
    cbn. intros H. inversion H. now simpl.
Qed.

(** *** The row layouts of any list of rows *)

Lemma rowLayouts_loop_filter containerWidth gap :
  forall (rows : list (Row num)) acc,
    fold_left
      (fun rowLayouts row =>
         if Nat.eqb (length (row_items row)) 0 then rowLayouts
         else rowLayouts ++ [buildRow row containerWidth gap])
      rows acc
    = acc ++ map (fun row => buildRow row containerWidth gap)
                 (filter notSkipped rows).
Proof.
  induction rows as [|row rest IH]; intros acc; simpl.
  - now rewrite app_nil_r.
  - unfold notSkipped at 1.
    destruct (Nat.eqb (length (row_items row)) 0); cbn [negb].
    + apply IH.
    + rewrite IH. cbn [map]. now rewrite <- app_assoc.
Qed.

Lemma buildRowLayouts_filter (rows : list (Row num)) containerWidth gap :
  buildRowLayouts rows containerWidth gap
  = map (fun row => buildRow row containerWidth gap)
        (filter notSkipped rows).
Proof. unfold buildRowLayouts. now rewrite rowLayouts_loop_filter. Qed.

Lemma buildRow_rowGeometry (row : Row num) cw gap :
  rowGeometry cw gap row (buildRow row cw gap).
Proof.
  unfold rowGeometry. rewrite buildRow_cells, buildRow_height.
  split; [reflexivity|]. split; [apply cellsFrom_length|].
  split; [|split].
  - intros i item c Hi Hc. eapply cellsFrom_nth; eassumption.
  - intros c Hc. now apply cellsFrom_first in Hc.
  - intros i c c' Hc Hc'. eapply cellsFrom_next; eassumption.
Qed.

Lemma buildRowLayouts_geometry (rows : list (Row num)) cw gap :
  Forall2 (rowGeometry cw gap) (filter notSkipped rows)
          (buildRowLayouts rows cw gap).
Proof.
  rewrite buildRowLayouts_filter.
  induction (filter notSkipped rows) as [|row rest IH]; simpl;
    constructor; [apply buildRow_rowGeometry | exact IH].
Qed.

Lemma mosaicRows_empty (ratios : string -> option num) cw ch gap :
  buildRowLayouts (mosaicRows [] ratios cw ch) cw gap = [].
Proof.
  unfold mosaicRows, partitionRows. cbn [makeItems mapi_from].
  destruct (_ =? num_one)%js; reflexivity.
Qed.

(** The items returned are the cells of the row layouts, row after row. *)
Lemma layout_cells images (ratios : string -> option num) cw ch gap :
  map (@cellOf num) (items (computeMosaicLayout images ratios cw ch gap))
  = concat (map (@rl_items num)
                (buildRowLayouts (mosaicRows images ratios cw ch) cw gap)).
Proof.
  destruct (list_eq_dec string_dec images []) as [-> | Hne].
  - now rewrite mosaicRows_empty.
  - rewrite computeMosaicLayout_nonempty by assumption. cbn [items].
    rewrite buildRowLayouts_map by now apply mosaicRows_nonempty.
    apply stackFrom_cells.
Qed.

(** *** The number of rows *)

Lemma greedyRows_closeCount K ideal :
  forall (l : list (Item num)) closed cur sum,
    l <> [] ->
    length (greedyRows K ideal closed cur sum l)
    = S (closeCount K ideal closed sum l).
Proof.
  induction l as [|x rest IH]; intros closed cur sum Hne; [congruence|].
  cbn [greedyRows closeCount]. destruct rest as [|next rest'];
    [reflexivity|].
  destruct (closesBefore K ideal closed (sum + item_ratio x)%js next).
  - cbn [length]. f_equal. apply IH. discriminate.
  - apply IH. discriminate.
Qed.

(** A row is closed only while the test [rows.length < K - 1] holds: if
    that test only holds of counts [c] with [c + 1 < k], at most [k - 1]
    rows are closed. *)
Lemma closeCount_bound K ideal (k n : nat) :
  (forall c, (c < n)%nat -> (num_of_nat c <? K - num_one)%js = true ->
             (S c < k)%nat) ->
  forall (l : list (Item num)) closed sum,
    (closed < k)%nat -> (closed + length l <= n)%nat ->
    (closeCount K ideal closed sum l + closed < k)%nat.
Proof.
  intros Hguard. induction l as [|x rest IH]; intros closed sum Hc Hn;
    [simpl; lia|].
  cbn [closeCount]. destruct rest as [|next rest']; [simpl; lia|].
  destruct (closesBefore K ideal closed (sum + item_ratio x)%js next) eqn:E.
  - unfold closesBefore in E. apply andb_true_iff in E.
    destruct E as [E _]. cbn [length] in Hn.
    assert (Hs : (S closed < k)%nat) by (apply Hguard; [lia | exact E]).
    specialize (IH (S closed) num_zero Hs). cbn [length] in IH.
    specialize (IH ltac:(lia)). lia.
  - apply IH; [exact Hc|]. cbn [length] in *. lia.
Qed.

(** C2. The partition loop of the source, for a non-empty list of items,
    in whatever arithmetic the numbers have: it computes the rows of the
    contract ([partitionSpec]: one row when [K === 1]; otherwise a row is
    closed before the next item exactly when fewer than [K - 1] rows have
    been closed and the next item would increase the distance to the
    ideal, both as the program computes them, and the last row takes the
    rest).  The rows are non-empty and their concatenation is the list of
    items.  There is one row more than rows were closed; if [K] counts as
    the integer [k >= 1] in the test that guards the closing, at most
    [k - 1] rows are closed, so that there are at most [k] rows, and
    exactly [k] when [k - 1] rows were closed. *)
Theorem C2_greedy_partition (its : list (Item num)) (totalRatio K : num)
        (k : nat) :
  its <> [] -> (1 <= k)%nat ->
  (forall c, (c < length its)%nat ->
             (num_of_nat c <? K - num_one)%js = true -> (S c < k)%nat) ->
  let rows := partitionRows its totalRatio K in
  let closes := closeCount K (totalRatio / K)%js 0 num_zero its in
  rows = partitionSpec its totalRatio K
  /\ ((K =? num_one)%js = true -> rows = [mkRow its totalRatio])
  /\ ((K =? num_one)%js = false ->
      rows = greedyRows K (totalRatio / K)%js 0 [] num_zero its
      /\ length rows = S closes /\ (closes <= k - 1)%nat
      /\ (closes = (k - 1)%nat <-> length rows = k))
  /\ Forall (fun r : Row num => row_items r <> []) rows
  /\ concat (map (@row_items num) rows) = its
  /\ (1 <= length rows <= k)%nat.
Proof.
  intros Hne Hk Hguard rows closes.
  assert (Hspec : rows = partitionSpec its totalRatio K)
    by apply partitionRows_spec.
  assert (Hcount : (closes + 0 < k)%nat).
  { apply (closeCount_bound K (totalRatio / K)%js k (length its) Hguard);
      simpl; lia. }
  assert (Hlen : (K =? num_one)%js = false -> length rows = S closes).
  { intros E. rewrite Hspec. unfold partitionSpec. rewrite E.
    now apply greedyRows_closeCount. }
  split; [exact Hspec|].
  split; [|split; [|split; [|split]]].
  - intros E. rewrite Hspec. unfold partitionSpec. now rewrite E.
  - intros E. split; [rewrite Hspec; unfold partitionSpec; now rewrite E|].
    split; [now apply Hlen|]. split; [lia|]. rewrite (Hlen E). lia.
  - now apply partitionRows_nonempty.
  - now apply partitionRows_concat.
  - destruct (K =? num_one)%js eqn:E.
    + rewrite Hspec. unfold partitionSpec. rewrite E. simpl. lia.
    + rewrite (Hlen eq_refl). lia.
Qed.

(** *** The ratio of an item *)

Lemma ratioValue_numeric (ratios : string -> option num) src :
  ratioValue (numericMapping ratios) src = VNumber (resolveRatio ratios src).
Proof.
  unfold ratioValue, numericMapping, resolveRatio, orValue, js_or.
  destruct (ratios src) as [v|]; cbn [truthyValue].
  - destruct (num_truthy v) eqn:E; cbn [truthyValue]; [now rewrite E|].
    destruct (getAspectRatioFromUrl src) as [u|]; cbn [ofNullable truthyValue];
      [|reflexivity].
    destruct (num_truthy u) eqn:Eu; cbn [truthyValue]; now rewrite ?Eu.
  - destruct (getAspectRatioFromUrl src) as [u|]; cbn [ofNullable truthyValue];
      [|reflexivity].
    destruct (num_truthy u) eqn:Eu; cbn [truthyValue]; now rewrite ?Eu.
Qed.

Lemma makeItems_ratios_from (ratios : string -> option num) images :
  forall i,
    map (@item_ratio num)
        (mapi_from (fun src index => mkItem src index (resolveRatio ratios src))
                   i images)
    = map (resolveRatio ratios) images.
Proof.
  induction images as [|s l IH]; intros i; simpl; [reflexivity|].
  now rewrite IH.
Qed.

(** C6. The ratio of an item, for every source, every object passed as
    the mapping and every arithmetic: the value the mapping answers with
    when that value is truthy, be it a number or not; otherwise the ratio
    the parser finds in the source when it finds one and that ratio is
    truthy; otherwise 1.5, that is when the parser answers [null] or its
    ratio is falsy (zero, or NaN).  The parser answers [w / h] for a
    source of the shape of the pattern whose [h] is not 0, and [null] for
    every other source.  For a mapping that answers with numbers or not at
    all this is the ratio the layout gives the item. *)
Theorem C6_ratio_priority (ratios : string -> JSValue num) (src : string) :
  let mapped := ratios src in
  let parsed := getAspectRatioFromUrl (num := num) src in
  let r := ratioValue ratios src in
  (truthyValue mapped = true -> r = mapped)
  /\ (truthyValue mapped = false ->
      (forall v, parsed = Some v -> num_truthy v = true -> r = VNumber v)
      /\ (parsed = None
          \/ (exists v, parsed = Some v /\ num_truthy v = false) ->
          r = VNumber num_default_ratio))
  /\ (forall W H,
         PicsumShape (list_ascii_of_string src) W H ->
         parsed
         = if Nat.eqb (parseInt H) 0 then None
           else Some (num_of_nat (parseInt W) / num_of_nat (parseInt H))%js)
  /\ ((forall W H, ~ PicsumShape (list_ascii_of_string src) W H) ->
      parsed = None)
  /\ (forall numbers : string -> option num,
         ratios src = numericMapping numbers src ->
         r = VNumber (resolveRatio numbers src))
  /\ (forall (numbers : string -> option num) images,
         map (@item_ratio num) (makeItems images numbers)
         = map (resolveRatio numbers) images).
Proof.
  intros mapped parsed r. subst mapped parsed r.
  split; [|split; [|split; [|split; [|split]]]].
  - intros Ht. unfold ratioValue, orValue. rewrite Ht. now rewrite Ht.
  - intros Hf. unfold ratioValue, orValue. rewrite Hf. split.
    + intros v -> Hv. cbn [ofNullable truthyValue]. now rewrite Hv.
    + intros [-> | (v & -> & Hv)]; cbn [ofNullable truthyValue];
        [reflexivity | now rewrite Hv].
  - intros W H Hs. unfold getAspectRatioFromUrl.
    now rewrite (RegexFacts.picsumDims_of_shape src W H Hs).
  - intros Hno. unfold getAspectRatioFromUrl.
    now rewrite (proj2 (RegexFacts.picsumDims_none src) Hno).
  - intros numbers E. rewrite <- ratioValue_numeric.
    unfold ratioValue. now rewrite E.
  - intros numbers images. apply makeItems_ratios_from.
Qed.

(** *** Raw coordinates and the transform *)

Lemma filter_notSkipped (rows : list (Row num)) :
  Forall (fun r : Row num => row_items r <> []) rows ->
  filter notSkipped rows = rows.
Proof.
  induction 1 as [|row rest Hrow _ IH]; [reflexivity|].
  simpl. unfold notSkipped at 1.
  destruct (row_items row); [congruence|]. simpl. now rewrite IH.
Qed.

Lemma rowTops_length verticalGap :
  forall (rls : list (RowLayout num)) y,
    length (rowTops verticalGap y rls) = length rls.
Proof.
  induction rls as [|rl rest IH]; intros y; simpl; [reflexivity|].
  now rewrite IH.
Qed.

Lemma rowTops_next verticalGap :
  forall (rls : list (RowLayout num)) y k y1 rl y2,
    nth_error (rowTops verticalGap y rls) k = Some y1 ->
    nth_error rls k = Some rl ->
    nth_error (rowTops verticalGap y rls) (S k) = Some y2 ->
    y2 = (y1 + (rl_height rl + verticalGap))%js.
Proof.
  induction rls as [|r0 rest IH]; intros y k y1 rl y2 H1 Hrl H2.
  - destruct k; discriminate.
  - destruct k as [|k'].
    + cbn [rowTops nth_error] in H1, Hrl, H2.
      inversion H1; inversion Hrl; subst.
      destruct rest as [|r1 rest']; [discriminate|].
      cbn [rowTops nth_error] in H2. now inversion H2.
    + cbn [rowTops nth_error] in H1, Hrl, H2. eapply IH; eassumption.
Qed.

Lemma stackFrom_tops verticalGap :
  forall (rls : list (RowLayout num)) y,
    stackFrom verticalGap y rls
    = concat (map (fun p => map (placeCell (snd p)) (rl_items (fst p)))
                  (combine rls (rowTops verticalGap y rls))).
Proof.
  induction rls as [|rl rest IH]; intros y; [reflexivity|].
  cbn [stackFrom rowTops combine map concat fst snd]. now rewrite IH.
Qed.

(** C9. What a call on a non-empty list returns, in whatever arithmetic
    the numbers have.  The items are raw: they are the cells of the row
    layouts, whose geometry is that of their rows (the first cell of a row
    at 0, heights and widths from the container width, the gap and the
    ratios alone), every cell with the top of its row as [y]; the first
    row is at 0 and every next row starts at the top of the row before
    plus that row's height plus the vertical gap, which is the gap or the
    stretched gap.  The total height is the sum of the row heights plus
    the vertical gaps between them.  The transform is returned beside
    them: the scale is 1, or it is [containerHeight / totalHeight] where
    the total height exceeds the container height, so that a scale below 1
    comes with a total height above the container height; the offsets are
    the centring offsets.  Scale and offsets enter no item: it is the
    consumer that multiplies and adds them. *)
Theorem C9_raw_coordinates_plus_transform images
        (ratios : string -> option num) (cw ch gap : num) :
  images <> [] ->
  let r := computeMosaicLayout images ratios cw ch gap in
  let rows := mosaicRows images ratios cw ch in
  let rowLayouts := buildRowLayouts rows cw gap in
  exists (verticalGap : num) (tops : list num),
    Forall2 (rowGeometry cw gap) rows rowLayouts
    /\ length tops = length rowLayouts
    /\ (forall y, nth_error tops 0 = Some y -> y = num_zero)
    /\ (forall k y rl y',
          nth_error tops k = Some y ->
          nth_error rowLayouts k = Some rl ->
          nth_error tops (S k) = Some y' ->
          y' = (y + (rl_height rl + verticalGap))%js)
    /\ items r
       = concat (map (fun p => map (placeCell (snd p)) (rl_items (fst p)))
                     (combine rowLayouts tops))
    /\ (verticalGap = gap
        \/ verticalGap
           = (gap + (ch - initialTotalHeight rowLayouts gap)
                    / rowSpacingCountOf rowLayouts)%js)
    /\ totalHeight r
       = (sumRowHeightsOf rowLayouts
          + verticalGap * rowSpacingCountOf rowLayouts)%js
    /\ (scale r = num_one
        \/ ((totalHeight r >? ch)%js = true
            /\ scale r = (ch / totalHeight r)%js))
    /\ ((scale r <? num_one)%js = true ->
        (num_one <? num_one)%js = false ->
        (totalHeight r >? ch)%js = true)
    /\ leftOffset r = ((cw - cw * scale r) / num_two)%js
    /\ topOffset r = ((ch - totalHeight r * scale r) / num_two)%js
    /\ (forall item,
          placeItem r item
          = mkPlaced (leftOffset r + li_x item * scale r)%js
                     (topOffset r + li_y item * scale r)%js
                     (li_width item * scale r)%js
                     (li_height item * scale r)%js).
Proof.
  intros Hne r rows rowLayouts.
  pose proof (mosaicRows_nonempty images ratios cw ch Hne) as Hall.
  assert (Hrows : rowLayouts = map (fun row => buildRow row cw gap) rows)
    by (apply buildRowLayouts_map; exact Hall).
  assert (Hgeo : Forall2 (rowGeometry cw gap) rows rowLayouts).
  { pose proof (buildRowLayouts_geometry rows cw gap) as H.
    now rewrite (filter_notSkipped rows Hall) in H. }
  subst r. rewrite computeMosaicLayout_nonempty by assumption. cbv zeta.
  fold rows. rewrite <- Hrows. clearbody rowLayouts.
  cbn [items totalHeight scale topOffset leftOffset].
  exists (fst (fitVertical rowLayouts gap ch)),
         (rowTops (fst (fitVertical rowLayouts gap ch)) num_zero rowLayouts).
  assert (Hfit : (fst (fitVertical rowLayouts gap ch) = gap
                  \/ fst (fitVertical rowLayouts gap ch)
                     = (gap + (ch - initialTotalHeight rowLayouts gap)
                              / rowSpacingCountOf rowLayouts)%js)
                 /\ snd (fitVertical rowLayouts gap ch)
                    = (sumRowHeightsOf rowLayouts
                       + fst (fitVertical rowLayouts gap ch)
                         * rowSpacingCountOf rowLayouts)%js).
  { unfold fitVertical, initialTotalHeight.
    destruct ((rowSpacingCountOf rowLayouts >? num_zero)%js
              && (sumRowHeightsOf rowLayouts
                  + gap * rowSpacingCountOf rowLayouts <? ch)%js);
      cbn [fst snd]; auto. }
  destruct Hfit as [Hvg Htotal].
  set (total := snd (fitVertical rowLayouts gap ch)) in *.
  assert (Hscale : scaleOf total ch = num_one
                   \/ ((total >? ch)%js = true
                       /\ scaleOf total ch = (ch / total)%js)).
  { unfold scaleOf. destruct (total >? ch)%js; auto. }
  split; [exact Hgeo|].
  split; [apply rowTops_length|].
  split; [destruct rowLayouts; cbn; [discriminate | now inversion 1]|].
  split; [intros k y rl y'; apply rowTops_next|].
  split; [apply stackFrom_tops|].
  split; [exact Hvg|]. split; [exact Htotal|]. split; [exact Hscale|].
  split; [|repeat split].
  intros Hlt Hirr. destruct Hscale as [E | [H _]]; [|exact H].
  rewrite E in Hlt. congruence.
Qed.

End Structure.

(** ** The recorded divisions *)

Section TracedFacts.
Context {num : Type} {JS : JSNumber num}.
Local Open Scope js_scope.

(** A run that records its divisors returns what [computeMosaicLayout]
    returns, and records [divisorsOf]. *)

Lemma bind_run {A B : Type} (m : Traced (num := num) A)
      (f : A -> Traced (num := num) B) a (l : list num) b (l' : list num) :
  m = (a, l) -> f a = (b, l') -> bind m f = (b, l ++ l').
Proof. intros -> E. unfold bind. cbn [fst snd]. now rewrite E. Qed.

Lemma getAspectRatioFromUrlT_run src :
  getAspectRatioFromUrlT (num := num) src
  = (getAspectRatioFromUrl src,
     match picsumDims src with
     | Some (w, h) => if Nat.eqb h 0 then [] else [num_of_nat h]
     | None => []
     end).
Proof.
  unfold getAspectRatioFromUrlT, getAspectRatioFromUrl.
  destruct (picsumDims src) as [[w h]|]; [|reflexivity].
  destruct (Nat.eqb h 0); reflexivity.
Qed.

Lemma resolveRatioT_run (ratios : string -> option num) src :
  resolveRatioT ratios src = (resolveRatio ratios src, urlDivisors ratios src).
Proof.
  unfold resolveRatioT, resolveRatio, urlDivisors, bind.
  rewrite getAspectRatioFromUrlT_run. cbn [fst snd ret].
  rewrite app_nil_r.
  destruct (ratios src) as [v|]; [destruct (num_truthy v)|]; reflexivity.
Qed.

Lemma makeItemsT_run (ratios : string -> option num) images :
  forall i,
    mapiT_from (fun src index =>
                  bind (resolveRatioT ratios src)
                       (fun r => ret (mkItem src index r)))
               i images
    = (mapi_from (fun src index => mkItem src index (resolveRatio ratios src))
                 i images,
       flat_map (urlDivisors ratios) images).
Proof.
  induction images as [|s l IH]; intros i; [reflexivity|].
  cbn [mapiT_from mapi_from flat_map]. unfold bind.
  rewrite resolveRatioT_run, IH. cbn [fst snd ret].
  now rewrite !app_nil_r.
Qed.

Lemma estimateRowCountT_run totalRatio containerRatio n :
  estimateRowCountT totalRatio containerRatio n
  = (estimateRowCount totalRatio containerRatio n, [containerRatio]).
Proof. reflexivity. Qed.

Lemma partitionRowsT_run (its : list (Item num)) totalRatio K :
  partitionRowsT its totalRatio K
  = (partitionRows its totalRatio K, if K =? num_one then [] else [K]).
Proof.
  unfold partitionRowsT, partitionRows. destruct (K =? num_one); reflexivity.
Qed.

Lemma buildRowT_run (row : Row num) cw gap :
  buildRowT row cw gap = (buildRow row cw gap, [sumRatio row]).
Proof. reflexivity. Qed.

Lemma rowLayoutsT_loop cw gap :
  forall (rows : list (Row num)) acc,
    foldT (fun rowLayouts row =>
             if Nat.eqb (length (row_items row)) 0 then ret rowLayouts
             else bind (buildRowT row cw gap)
                       (fun rowLayout => ret (rowLayouts ++ [rowLayout])))
          rows acc
    = (fold_left
         (fun rowLayouts row =>
            if Nat.eqb (length (row_items row)) 0 then rowLayouts
            else rowLayouts ++ [buildRow row cw gap])
         rows acc,
       map (@sumRatio num)
           (filter (fun row => negb (Nat.eqb (length (row_items row)) 0))
                   rows)).
Proof.
  induction rows as [|row rest IH]; intros acc; [reflexivity|].
  cbn [foldT fold_left filter]. unfold bind at 1.
  destruct (Nat.eqb (length (row_items row)) 0); cbn [negb].
  - cbn [fst snd ret]. now rewrite IH.
  - rewrite buildRowT_run. unfold bind. cbn [fst snd ret app map].
    now rewrite IH.
Qed.

Lemma fitVerticalT_run (rls : list (RowLayout num)) gap ch :
  fitVerticalT rls gap ch
  = (fitVertical rls gap ch,
     if (rowSpacingCountOf rls >? num_zero)
        && (initialTotalHeight rls gap <? ch)
     then [rowSpacingCountOf rls] else []).
Proof.
  unfold fitVerticalT, fitVertical, initialTotalHeight.
  destruct ((rowSpacingCountOf rls >? num_zero)
            && (sumRowHeightsOf rls + gap * rowSpacingCountOf rls <? ch));
    reflexivity.
Qed.

Lemma scaleOfT_run total ch :
  scaleOfT total ch
  = (scaleOf total ch, if total >? ch then [total] else []).
Proof. unfold scaleOfT, scaleOf. destruct (total >? ch); reflexivity. Qed.

Lemma computeMosaicLayoutT_run images (ratios : string -> option num)
        cw ch gap :
  computeMosaicLayoutT images ratios cw ch gap
  = (computeMosaicLayout images ratios cw ch gap,
     divisorsOf images ratios cw ch gap).
Proof.
  unfold computeMosaicLayoutT, computeMosaicLayout, divisorsOf.
  destruct (Nat.eqb (length images) 0); [reflexivity|].
  cbv zeta.
  eapply bind_run; [apply makeItemsT_run|]. fold (makeItems images ratios).
  eapply bind_run; [reflexivity|].
  eapply bind_run; [apply estimateRowCountT_run|].
  eapply bind_run; [apply partitionRowsT_run|].
  fold (mosaicRows images ratios cw ch).
  eapply bind_run; [apply rowLayoutsT_loop|].
  fold (buildRowLayouts (mosaicRows images ratios cw ch) cw gap).
  eapply bind_run; [apply fitVerticalT_run|].
  eapply bind_run; [apply scaleOfT_run|].
  unfold bind, divT, ret. cbn [fst snd app].
  destruct (fitVertical _ gap ch) as [vg total]. reflexivity.
Qed.

End TracedFacts.

(** ** Exact rational arithmetic: the numeric contracts *)

Ltac qnum :=
  cbn [num_zero num_one num_two num_default_ratio num_of_nat num_add num_sub
       num_mul num_div num_abs num_round_sqrt num_min num_max num_lt num_gt
       num_eq num_truthy QNumber] in *.

Ltac qnum_goal :=
  cbn [num_zero num_one num_two num_default_ratio num_of_nat num_add num_sub
       num_mul num_div num_abs num_round_sqrt num_min num_max num_lt num_gt
       num_eq num_truthy QNumber].

Tactic Notation "qnum_in" hyp(H) :=
  cbn [num_zero num_one num_two num_default_ratio num_of_nat num_add num_sub
       num_mul num_div num_abs num_round_sqrt num_min num_max num_lt num_gt
       num_eq num_truthy QNumber] in H.

Section Rational.
Local Open Scope Q_scope.

Lemma Qltb_lt (a b : Q) : Qltb a b = true <-> a < b.
Proof.
  unfold Qltb. rewrite negb_true_iff, <- not_true_iff_false, Qle_bool_iff.
  split; [apply Qnot_le_lt | apply Qlt_not_le].
Qed.

Lemma Qltb_ge (a b : Q) : Qltb a b = false <-> b <= a.
Proof.
  unfold Qltb. rewrite negb_false_iff. apply Qle_bool_iff.
Qed.

Lemma inject_nat_lt (a b : nat) :
  inject_Z (Z.of_nat a) < inject_Z (Z.of_nat b) <-> (a < b)%nat.
Proof. rewrite <- Zlt_Qlt. lia. Qed.

(** At most [k] rows: a row is closed only while fewer than [k - 1] rows
    have been closed. *)
Lemma greedyRows_count (K ideal : Q) (k : nat) :
  K == inject_Z (Z.of_nat k) ->
  forall (l : list (Item Q)) closed cur sum,
    (closed < k)%nat ->
    (length (greedyRows K ideal closed cur sum l) + closed <= k)%nat.
Proof.
  intros HK. induction l as [|x rest IH]; intros closed cur sum Hc;
    [simpl; lia|].
  cbn [greedyRows]. destruct rest as [|next rest'].
  - simpl. lia.
  - destruct (closesBefore K ideal closed (num_add sum (item_ratio x)) next)
      eqn:E.
    + unfold closesBefore in E. apply andb_true_iff in E.
      destruct E as [E _]. qnum. apply Qltb_lt in E.
      assert (Hlt : inject_Z (Z.of_nat closed + 1) < inject_Z (Z.of_nat k)).
      { rewrite inject_Z_plus. change (inject_Z 1) with 1. lra. }
      rewrite <- Zlt_Qlt in Hlt.
      cbn [length]. specialize (IH (S closed) [] 0 ltac:(lia)). lia.
    + apply IH. exact Hc.
Qed.

Lemma partitionRows_count (its : list (Item Q)) (totalRatio K : Q)
      (k : nat) :
  its <> [] -> (1 <= k)%nat -> K == inject_Z (Z.of_nat k) ->
  (1 <= length (partitionRows its totalRatio K) <= k)%nat.
Proof.
  intros Hne Hk HK.
  rewrite partitionRows_spec. unfold partitionSpec. qnum.
  destruct (Qeq_bool K 1) eqn:E; [simpl; lia|].
  pose proof (greedyRows_count K (totalRatio / K) k HK its 0%nat [] 0)
    as Hcount.
  pose proof (greedyRows_concat K (totalRatio / K) its 0%nat [] 0 Hne) as Hcat.
  destruct (greedyRows K (totalRatio / K) 0 [] 0 its) as [|r rs] eqn:Er.
  - simpl in Hcat. congruence.
  - cbn [length] in *. lia.
Qed.

(** In exact arithmetic a row count [K = k] counts as [k] in the test
    that guards the closing of a row. *)
Lemma row_guard_exact (K : Q) (k : nat) :
  K == inject_Z (Z.of_nat k) ->
  forall c : nat,
    (num_of_nat c <? K - num_one)%js = true -> (S c < k)%nat.
Proof.
  intros HK c E. qnum. apply Qltb_lt in E.
  assert (Hlt : inject_Z (Z.of_nat c + 1) < inject_Z (Z.of_nat k)).
  { rewrite inject_Z_plus. change (inject_Z 1) with 1. lra. }
  rewrite <- Zlt_Qlt in Hlt. lia.
Qed.

Lemma inject_nat_pos (n : nat) : n <> 0%nat -> 0 < inject_Z (Z.of_nat n).
Proof.
  intros Hn. change 0 with (inject_Z 0). rewrite <- Zlt_Qlt. lia.
Qed.

Lemma nat_ratio_pos (w h : nat) :
  w <> 0%nat -> h <> 0%nat ->
  0 < inject_Z (Z.of_nat w) / inject_Z (Z.of_nat h).
Proof.
  intros Hw Hh. apply Qlt_shift_div_l; [now apply inject_nat_pos|].
  rewrite Qmult_0_l. now apply inject_nat_pos.
Qed.

Lemma truthy_true (v : Q) : ~ v == 0 -> negb (Qeq_bool v 0) = true.
Proof.
  intros H. apply negb_true_iff, not_true_iff_false.
  now rewrite Qeq_bool_iff.
Qed.

Lemma truthy_false (v : Q) : v == 0 -> negb (Qeq_bool v 0) = false.
Proof. intros H. apply negb_false_iff. now apply Qeq_bool_iff. Qed.

(** The ratio of an item in exact arithmetic, for a mapping of numbers:
    the mapped value when there is one and it is not zero; otherwise
    [w / h] when the source has the shape of the pattern, with [w] and [h]
    both non-zero; otherwise [3/2]. *)
Lemma resolveRatio_exact (ratios : string -> option Q) (src : string) :
  (forall v, ratios src = Some v -> ~ v == 0 ->
             resolveRatio ratios src = v)
  /\ ((ratios src = None \/ exists v, ratios src = Some v /\ v == 0) ->
      (forall W H,
          PicsumShape (list_ascii_of_string src) W H ->
          parseInt H <> 0%nat -> parseInt W <> 0%nat ->
          resolveRatio ratios src
          = inject_Z (Z.of_nat (parseInt W))
            / inject_Z (Z.of_nat (parseInt H)))
      /\ (forall W H,
             PicsumShape (list_ascii_of_string src) W H ->
             parseInt H = 0%nat \/ parseInt W = 0%nat ->
             resolveRatio ratios src = 3 # 2)
      /\ ((forall W H, ~ PicsumShape (list_ascii_of_string src) W H) ->
          resolveRatio ratios src = 3 # 2))
  /\ (getAspectRatioFromUrl (num := Q) src = None
      <-> (forall W H, ~ PicsumShape (list_ascii_of_string src) W H)
          \/ exists W H,
               PicsumShape (list_ascii_of_string src) W H
               /\ parseInt H = 0%nat).
Proof.
  split; [|split].
  - intros v Hv Hnz. unfold resolveRatio. rewrite Hv. qnum.
    now rewrite truthy_true.
  - intros Hmap.
    assert (Hfall : resolveRatio ratios src
                    = js_or (getAspectRatioFromUrl src) (3 # 2)).
    { unfold resolveRatio. destruct Hmap as [-> | [v [-> Hz]]];
        [reflexivity|]. qnum. now rewrite truthy_false. }
    rewrite Hfall. unfold getAspectRatioFromUrl, js_or. qnum.
    split; [|split].
    + intros W H Hs Hh Hw.
      rewrite (RegexFacts.picsumDims_of_shape src W H Hs).
      destruct (parseInt H) as [|h']; [congruence|]. cbn [Nat.eqb].
      rewrite truthy_true; [reflexivity|].
      pose proof (nat_ratio_pos (parseInt W) (S h') Hw Hh). lra.
    + intros W H Hs Hzero.
      rewrite (RegexFacts.picsumDims_of_shape src W H Hs).
      destruct (parseInt H) as [|h']; [reflexivity|]. cbn [Nat.eqb].
      destruct Hzero as [Hz | Hz]; [discriminate|]. rewrite Hz.
      rewrite truthy_false; [reflexivity|].
      unfold Qdiv. simpl (Z.of_nat 0). apply Qmult_0_l.
    + intros Hno. now rewrite (proj2 (RegexFacts.picsumDims_none src) Hno).
  - unfold getAspectRatioFromUrl.
    destruct (picsumDims src) as [[w h]|] eqn:E.
    + destruct (RegexFacts.picsumDims_shape src w h E)
        as (W & H & Hs & -> & ->).
      destruct (parseInt H) as [|h'] eqn:Eh; cbn [Nat.eqb].
      * split; [intros _; right; eauto | reflexivity].
      * split; [discriminate|].
        intros [Hno | (W' & H' & Hs' & Hz)].
        -- now destruct (Hno W H).
        -- destruct (RegexFacts.shape_unique _ _ _ _ _ Hs Hs') as [_ <-].
           congruence.
    + pose proof (proj1 (RegexFacts.picsumDims_none src) E) as Hno.
      split; [intros _; now left | reflexivity].
Qed.

(** The transform of step 5, for any pre-scale height. *)
Lemma scaleOf_range (total ch : Q) :
  0 < ch ->
  0 < scaleOf total ch <= 1
  /\ (ch < total -> scaleOf total ch = ch / total)
  /\ (total <= ch -> scaleOf total ch = 1)
  /\ (scaleOf total ch == 1 <-> total <= ch)
  /\ total * scaleOf total ch <= ch.
Proof.
  intros Hch. unfold scaleOf. qnum.
  destruct (Qltb ch total) eqn:E.
  - apply Qltb_lt in E.
    assert (Hpos : 0 < ch / total)
      by (apply Qlt_shift_div_l; lra).
    assert (Hlt : ch / total < 1)
      by (apply Qlt_shift_div_r; lra).
    assert (Hmul : total * (ch / total) == ch) by (field; lra).
    split; [split; lra|]. split; [reflexivity|]. split; [lra|].
    split; [split; lra | lra].
  - apply Qltb_ge in E.
    split; [split; lra|]. split; [lra|]. split; [reflexivity|].
    split; [split; [intros _; exact E | intros _; reflexivity] | lra].
Qed.

(** C5 (as amended). For a non-empty list of images and a container of
    positive width and height: the scale is in (0, 1]; it is
    [containerHeight / totalHeight] when the pre-scale height exceeds the
    container and 1 otherwise, so it is 1 exactly when the pre-scale
    height fits; both offsets are the centring offsets of the scaled
    block and are non-negative. *)
Theorem C5_scale_and_offsets images (ratios : string -> option Q)
        (cw ch gap : Q) :
  images <> [] -> 0 < cw -> 0 < ch ->
  let r := computeMosaicLayout images ratios cw ch gap in
  (0 < scale r /\ scale r <= 1)
  /\ (ch < totalHeight r -> scale r == ch / totalHeight r)
  /\ (totalHeight r <= ch -> scale r == 1)
  /\ (scale r == 1 <-> totalHeight r <= ch)
  /\ leftOffset r == (cw - cw * scale r) / 2
  /\ topOffset r == (ch - totalHeight r * scale r) / 2
  /\ 0 <= leftOffset r
  /\ 0 <= topOffset r.
Proof.
  intros Hne Hcw Hch r. subst r.
  rewrite computeMosaicLayout_nonempty by assumption.
  cbn [scale totalHeight leftOffset topOffset]. qnum.
  set (total := snd (fitVertical _ gap ch)).
  destruct (scaleOf_range total ch Hch)
    as [[Hs0 Hs1] [Hover [Hfit [Hiff Hfinal]]]].
  set (sc := scaleOf total ch) in *.
  split; [split; lra|].
  split; [intros H; rewrite (Hover H); reflexivity|].
  split; [intros H; rewrite (Hfit H); reflexivity|].
  split; [exact Hiff|].
  split; [reflexivity|]. split; [reflexivity|].
  assert (Hw : cw * sc <= cw) by nra.
  split; apply Qle_shift_div_l; lra.
Qed.

Lemma rowSpacingCount_many (rowLayouts : list (RowLayout Q)) :
  (1 < length rowLayouts)%nat ->
  rowSpacingCountOf rowLayouts
  == inject_Z (Z.of_nat (length rowLayouts)) - 1
  /\ 0 < rowSpacingCountOf rowLayouts.
Proof.
  intros Hlen. unfold rowSpacingCountOf. qnum.
  assert (H1 : inject_Z (Z.of_nat 1) < inject_Z (Z.of_nat (length rowLayouts)))
    by (apply inject_nat_lt; exact Hlen).
  change (inject_Z (Z.of_nat 1)) with 1 in H1.
  rewrite Q.max_r by lra. split; [reflexivity | lra].
Qed.

Lemma rowSpacingCount_few (rowLayouts : list (RowLayout Q)) :
  (length rowLayouts <= 1)%nat -> rowSpacingCountOf rowLayouts == 0.
Proof.
  intros Hlen. unfold rowSpacingCountOf. qnum.
  assert (H1 : inject_Z (Z.of_nat (length rowLayouts)) <= inject_Z (Z.of_nat 1))
    by (rewrite <- Zle_Qle; lia).
  change (inject_Z (Z.of_nat 1)) with 1 in H1.
  rewrite Q.max_l by lra. reflexivity.
Qed.


Lemma sum_loop_shift (its : list (Item Q)) :
  forall a,
    fold_left (fun sum item => num_add sum (item_ratio item)) its a
    == a + sumRatios its.
Proof.
  unfold sumRatios. qnum.
  induction its as [|x rest IH]; intros a; simpl; [lra|].
  rewrite (IH (a + item_ratio x)), (IH (0 + item_ratio x)). lra.
Qed.

Lemma sumRatios_cons (x : Item Q) (rest : list (Item Q)) :
  sumRatios (x :: rest) == item_ratio x + sumRatios rest.
Proof.
  unfold sumRatios at 1. simpl. rewrite sum_loop_shift. qnum. lra.
Qed.

Lemma inject_nat_succ (n : nat) :
  inject_Z (Z.of_nat (S n)) == inject_Z (Z.of_nat n) + 1.
Proof.
  rewrite Nat2Z.inj_succ. unfold Z.succ. rewrite inject_Z_plus.
  reflexivity.
Qed.

(** Where the last cell of a row ends. *)
Lemma cellsFrom_last (rowHeight gap : Q) :
  forall (its : list (Item Q)) currentX c,
    nth_error (cellsFrom rowHeight gap currentX its) (length its - 1)
    = Some c ->
    cell_x c + cell_width c
    == currentX + sumRatios its * rowHeight
       + (inject_Z (Z.of_nat (length its)) - 1) * gap.
Proof.
  induction its as [|x rest IH]; intros currentX c Hc; [discriminate|].
  destruct rest as [|y rest'].
  - simpl in Hc. inversion Hc; subst. cbn [cell_x cell_width]. qnum.
    rewrite sumRatios_cons. unfold sumRatios. simpl. qnum. ring.
  - replace (length (x :: y :: rest') - 1)%nat
      with (S (length (y :: rest') - 1)) in Hc by (simpl; lia).
    cbn [cellsFrom nth_error] in Hc. apply IH in Hc. rewrite Hc. qnum.
    rewrite (sumRatios_cons x (y :: rest')).
    change (length (x :: y :: rest')) with (S (length (y :: rest'))).
    rewrite inject_nat_succ. ring.
Qed.

(** A non-empty row built by the layout, with a positive ratio sum and
    room for its gaps, in exact arithmetic. *)
Lemma buildRow_geometry images (ratios : string -> option Q)
        (cw ch gap : Q) (row : Row Q) :
  In row (mosaicRows images ratios cw ch) ->
  row_items row <> [] ->
  0 < sumRatio row ->
  (inject_Z (Z.of_nat (length (row_items row))) - 1) * gap < cw ->
  let rl := buildRow row cw gap in
  let rowHeight :=
    (cw - (inject_Z (Z.of_nat (length (row_items row))) - 1) * gap)
    / sumRatio row in
  rl_height rl == rowHeight
  /\ 0 < rowHeight
  /\ length (rl_items rl) = length (row_items row)
  /\ (forall i item c,
        nth_error (row_items row) i = Some item ->
        nth_error (rl_items rl) i = Some c ->
        cell_index c = item_index item
        /\ cell_height c == rowHeight
        /\ cell_width c == item_ratio item * rowHeight)
  /\ (forall c, nth_error (rl_items rl) 0 = Some c -> cell_x c == 0)
  /\ (forall i c c',
        nth_error (rl_items rl) i = Some c ->
        nth_error (rl_items rl) (S i) = Some c' ->
        cell_x c' == cell_x c + cell_width c + gap)
  /\ (forall c,
        nth_error (rl_items rl) (length (rl_items rl) - 1) = Some c ->
        cell_x c + cell_width c == cw).
Proof.
  intros Hin Hne Hsum Hroom rl rowHeight.
  assert (Hh : rowHeightOf row cw gap = rowHeight) by reflexivity.
  assert (Hcells : rl_items rl = cellsFrom rowHeight gap 0 (row_items row))
    by (subst rl; rewrite buildRow_cells, Hh; reflexivity).
  assert (Hconsistent : sumRatio row = sumRatios (row_items row)).
  { pose proof (mosaicRows_sums images ratios cw ch) as Hall.
    rewrite Forall_forall in Hall. now apply Hall. }
  rewrite Hcells.
  split; [reflexivity|].
  split; [subst rowHeight; apply Qlt_shift_div_l; lra|].
  split; [apply cellsFrom_length|].
  split; [|split; [|split]].
  - intros i item c Hi Hc.
    destruct (cellsFrom_nth _ _ _ _ _ _ _ Hi Hc) as [Hidx [_ [Hht Hwd]]].
    rewrite Hidx, Hht, Hwd. qnum. repeat split; reflexivity.
  - intros c Hc. apply cellsFrom_first in Hc. rewrite Hc. reflexivity.
  - intros i c c' Hc Hc'.
    rewrite (cellsFrom_next _ _ _ _ _ _ _ Hc Hc'). qnum. ring.
  - intros c Hc. rewrite cellsFrom_length in Hc.
    apply cellsFrom_last in Hc. rewrite Hc.
    subst rowHeight. rewrite <- Hconsistent. field. lra.
Qed.

(** C3. Whatever the arithmetic and whatever the rows: the geometry
    loop builds one row layout for every row that is not empty, in order,
    and every row layout has the geometry of its row: the height is
    [(containerWidth - (count - 1) * gap) / sumRatio], every cell has that
    height and the width [ratio * height], the first cell starts at 0 and
    every next cell starts at the previous start plus the previous width
    plus the gap.  The items the layout returns are these cells, row after
    row.  In exact arithmetic, for a row of the layout with a positive
    ratio sum and room for its gaps, the height is positive and the last
    cell ends at the container width. *)
Theorem C3_row_geometry :
  (forall (num : Type) (JS : JSNumber num) (rows : list (Row num))
          (cw gap : num),
      Forall2 (rowGeometry cw gap) (filter notSkipped rows)
              (buildRowLayouts rows cw gap))
  /\ (forall (num : Type) (JS : JSNumber num) images
             (ratios : string -> option num) (cw ch gap : num),
         map (@cellOf num)
             (items (computeMosaicLayout images ratios cw ch gap))
         = concat (map (@rl_items num)
                       (buildRowLayouts (mosaicRows images ratios cw ch)
                                        cw gap)))
  /\ (forall images (ratios : string -> option Q) (cw ch gap : Q)
             (row : Row Q) (rl : RowLayout Q),
         In (row, rl)
            (combine (mosaicRows images ratios cw ch)
                     (buildRowLayouts (mosaicRows images ratios cw ch)
                                      cw gap)) ->
         row_items row <> [] ->
         0 < sumRatio row ->
         (inject_Z (Z.of_nat (length (row_items row))) - 1) * gap < cw ->
         0 < rl_height rl
         /\ forall c,
              nth_error (rl_items rl) (length (rl_items rl) - 1) = Some c ->
              cell_x c + cell_width c == cw).
Proof.
  split; [intros; apply buildRowLayouts_geometry|].
  split; [intros; apply layout_cells|].
  intros images ratios cw ch gap row rl Hin Hne Hsum Hroom.
  assert (Himages : images <> []).
  { intros ->. rewrite mosaicRows_empty in Hin.
    destruct (mosaicRows [] ratios cw ch); contradiction. }
  rewrite buildRowLayouts_map in Hin by now apply mosaicRows_nonempty.
  assert (Hrow : In row (mosaicRows images ratios cw ch)
                 /\ rl = buildRow row cw gap).
  { revert Hin. induction (mosaicRows images ratios cw ch) as [|r0 rs IH];
      simpl; [contradiction|].
    intros [E | Hin]; [inversion E; subst; auto|].
    destruct (IH Hin) as [H1 H2]. auto. }
  destruct Hrow as [Hrow ->].
  destruct (buildRow_geometry images ratios cw ch gap row Hrow Hne Hsum
                              Hroom)
    as (Hh & Hpos & _ & _ & _ & _ & Hlast).
  split; [rewrite Hh; exact Hpos | exact Hlast].
Qed.

(** *** Positivity *)

Lemma resolveRatio_pos (ratios : string -> option Q) (src : string) :
  (forall s v, ratios s = Some v -> 0 < v) ->
  0 < resolveRatio ratios src.
Proof.
  intros Hpos.
  assert (Hurl : 0 < js_or (getAspectRatioFromUrl src) (3 # 2)).
  { unfold js_or, getAspectRatioFromUrl.
    destruct (picsumDims src) as [[w h]|]; [|reflexivity].
    destruct h as [|h']; cbn [Nat.eqb]; [reflexivity|]. qnum.
    destruct w as [|w'].
    - rewrite truthy_false; [reflexivity|].
      unfold Qdiv. simpl (Z.of_nat 0). apply Qmult_0_l.
    - pose proof (nat_ratio_pos (S w') (S h') ltac:(discriminate)
                                 ltac:(discriminate)) as Hr.
      rewrite truthy_true by lra. exact Hr. }
  unfold resolveRatio. destruct (ratios src) as [v|] eqn:E; [|exact Hurl].
  destruct (num_truthy v); [eapply Hpos; eassumption | exact Hurl].
Qed.

Lemma makeItems_pos (ratios : string -> option Q) images :
  (forall s v, ratios s = Some v -> 0 < v) ->
  Forall (fun item : Item Q => 0 < item_ratio item)
         (makeItems images ratios).
Proof.
  intros Hpos. unfold makeItems. generalize 0%nat.
  induction images as [|src rest IH]; intros i; simpl; constructor.
  - simpl. now apply resolveRatio_pos.
  - apply IH.
Qed.

Lemma sumRatios_pos (its : list (Item Q)) :
  its <> [] ->
  Forall (fun item : Item Q => 0 < item_ratio item) its ->
  0 < sumRatios its.
Proof.
  induction its as [|x rest IH]; intros Hne Hall; [congruence|].
  inversion Hall as [|? ? Hx Hrest]; subst.
  rewrite sumRatios_cons. destruct rest as [|y rest'].
  - unfold sumRatios. simpl. lra.
  - specialize (IH ltac:(discriminate) Hrest). lra.
Qed.

Lemma estimateRowCount_ge_1 (totalRatio containerRatio : Q) (n : nat) :
  1 <= estimateRowCount totalRatio containerRatio n.
Proof. unfold estimateRowCount. qnum. apply Q.le_max_l. Qed.

Lemma concat_incl {A : Type} (ls : list (list A)) (l : list A) :
  In l ls -> incl l (concat ls).
Proof.
  intros Hin x Hx. apply in_concat. eauto.
Qed.

(** The rows of a well-formed input are non-empty and have positive
    ratio sums. *)
Lemma mosaicRows_pos images (ratios : string -> option Q) (cw ch : Q) :
  images <> [] ->
  (forall s v, ratios s = Some v -> 0 < v) ->
  Forall (fun r : Row Q => row_items r <> [] /\ 0 < sumRatio r)
         (mosaicRows images ratios cw ch).
Proof.
  intros Hne Hpos. apply Forall_forall. intros r Hr.
  pose proof (mosaicRows_nonempty images ratios cw ch Hne) as Hnonempty.
  pose proof (mosaicRows_sums images ratios cw ch) as Hsums.
  rewrite Forall_forall in Hnonempty, Hsums.
  split; [now apply Hnonempty|].
  rewrite (Hsums r Hr). apply sumRatios_pos; [now apply Hnonempty|].
  apply Forall_forall. intros item Hitem.
  pose proof (makeItems_pos ratios images Hpos) as Hall.
  rewrite Forall_forall in Hall. apply Hall.
  rewrite <- (mosaicRows_concat images ratios cw ch Hne).
  eapply concat_incl; [|exact Hitem].
  now apply in_map.
Qed.

Lemma urlDivisors_pos (ratios : string -> option Q) (src : string) :
  Forall (fun d => 0 < d) (urlDivisors ratios src).
Proof.
  assert (Hparser :
    Forall (fun d => 0 < d)
           match picsumDims src with
           | Some (w, h) =>
               if Nat.eqb h 0 then [] else [num_of_nat h]
           | None => []
           end).
  { destruct (picsumDims src) as [[w h]|]; [|constructor].
    destruct h as [|h']; cbn [Nat.eqb]; constructor; [|constructor].
    qnum. apply inject_nat_pos. discriminate. }
  unfold urlDivisors. destruct (ratios src) as [v|]; [|exact Hparser].
  destruct (num_truthy v); [constructor | exact Hparser].
Qed.

(** The divisors in exact arithmetic, for a container of positive width
    and height and a ratio mapping with positive values. *)
Lemma divisorsOf_positive images (ratios : string -> option Q)
        (cw ch gap : Q) :
  0 < cw -> 0 < ch ->
  (forall s v, ratios s = Some v -> 0 < v) ->
  (images <> [] ->
   Forall (fun r : Row Q => row_items r <> [] /\ 0 < sumRatio r)
          (mosaicRows images ratios cw ch))
  /\ Forall (fun d => 0 < d) (divisorsOf images ratios cw ch gap).
Proof.
  intros Hcw Hch Hpos.
  split; [intros Hne; now apply mosaicRows_pos|].
  destruct (list_eq_dec string_dec images []) as [-> | Hne]; [constructor|].
  pose proof (mosaicRows_pos images ratios cw ch Hne Hpos) as Hrows.
  unfold divisorsOf.
  replace (Nat.eqb (length images) 0) with false
    by (destruct images; [congruence | reflexivity]).
  cbv zeta.
  repeat (apply Forall_app; split).
  - clear. induction images as [|s l IH]; simpl; [constructor|].
    apply Forall_app. split; [apply urlDivisors_pos | exact IH].
  - constructor; [exact Hch | constructor].
  - constructor; [|constructor]. qnum_goal. apply Qlt_shift_div_l; lra.
  - destruct (_ =? num_one)%js; constructor; [|constructor].
    pose proof (estimateRowCount_ge_1
                  (sumRatios (makeItems images ratios)) (cw / ch)
                  (length (makeItems images ratios))) as HK.
    qnum_goal. qnum_in HK. lra.
  - apply Forall_forall. intros d Hd. apply in_map_iff in Hd.
    destruct Hd as [r [<- Hr]]. apply filter_In in Hr. destruct Hr as [Hr _].
    rewrite Forall_forall in Hrows. exact (proj2 (Hrows r Hr)).
  - destruct (rowSpacingCountOf _ >? num_zero)%js eqn:E; cbn [andb];
      [|constructor].
    destruct (_ <? ch)%js; constructor; [|constructor].
    qnum_goal. qnum_in E. now apply Qltb_lt in E.
  - destruct (_ >? ch)%js eqn:E; constructor; [|constructor].
    qnum_goal. qnum_in E. apply Qltb_lt in E. lra.
  - repeat constructor.
Qed.

(** C10 (as amended).  In exact arithmetic, for a container of positive
    width and height and a ratio mapping with positive values (the sign
    of the gap plays no part): every row built is non-empty and has a
    positive ratio sum, and every division the call performs has a
    positive divisor.  The divisions are those of the run that records
    its divisors, which returns what [computeMosaicLayout] returns. *)
Theorem C10_divisors_positive images (ratios : string -> option Q)
        (cw ch gap : Q) :
  0 < cw -> 0 < ch ->
  (forall s v, ratios s = Some v -> 0 < v) ->
  let run := computeMosaicLayoutT images ratios cw ch gap in
  fst run = computeMosaicLayout images ratios cw ch gap
  /\ (images <> [] ->
      Forall (fun r : Row Q => row_items r <> [] /\ 0 < sumRatio r)
             (mosaicRows images ratios cw ch))
  /\ Forall (fun divisor => 0 < divisor) (snd run).
Proof.
  intros Hcw Hch Hpos run. subst run.
  rewrite computeMosaicLayoutT_run. cbn [fst snd].
  split; [reflexivity|].
  exact (divisorsOf_positive images ratios cw ch gap Hcw Hch Hpos).
Qed.

End Rational.

(** ** The row count *)

Section RowCount.
Local Open Scope R_scope.






Lemma inject_Z_min (a b : Z) :
  (Qmin (inject_Z a) (inject_Z b) == inject_Z (Z.min a b))%Q.
Proof.
  destruct (Z.min_spec a b) as [[Hlt ->] | [Hle ->]].
  - apply Q.min_l. rewrite <- Zle_Qle. lia.
  - apply Q.min_r. rewrite <- Zle_Qle. lia.
Qed.

Lemma inject_Z_max (a b : Z) :
  (Qmax (inject_Z a) (inject_Z b) == inject_Z (Z.max a b))%Q.
Proof.
  destruct (Z.max_spec a b) as [[Hlt ->] | [Hle ->]].
  - apply Q.max_r. rewrite <- Zle_Qle. lia.
  - apply Q.max_l. rewrite <- Zle_Qle. lia.
Qed.

(** The estimate is a whole number between 1 and the number of items. *)
Lemma estimateRowCount_integral (totalRatio containerRatio : Q) (n : nat) :
  (1 <= n)%nat ->
  exists k : nat,
    (estimateRowCount totalRatio containerRatio n
     == inject_Z (Z.of_nat k))%Q
    /\ (1 <= k <= n)%nat.
Proof.
  intros Hn. unfold estimateRowCount. qnum. unfold Qround_sqrt.
  set (a := ((Z.sqrt (Qfloor (4 * (totalRatio / containerRatio))%Q) + 1) / 2)%Z).
  exists (Z.to_nat (Z.max 1 (Z.min a (Z.of_nat n)))). split; [|lia].
  rewrite Z2Nat.id by lia.
  rewrite <- inject_Z_max, <- inject_Z_min. reflexivity.
Qed.

(** The layout of a non-empty input has at least one row and at most as
    many rows as images. *)
Lemma mosaicRows_count images (ratios : string -> option Q) (cw ch : Q) :
  images <> [] ->
  (1 <= length (mosaicRows images ratios cw ch) <= length images)%nat.
Proof.
  intros Hne. unfold mosaicRows. cbv zeta.
  assert (Hlen : (1 <= length (makeItems images ratios))%nat).
  { rewrite makeItems_length. destruct images; [congruence | simpl; lia]. }
  destruct (estimateRowCount_integral
              (sumRatios (makeItems images ratios)) (cw / ch)%Q
              (length (makeItems images ratios)) Hlen) as (k & HK & Hk).
  rewrite makeItems_length in Hk.
  assert (Hits : makeItems images ratios <> []).
  { intros E. rewrite E in Hlen. simpl in Hlen. lia. }
  pose proof (partitionRows_count (makeItems images ratios)
                (sumRatios (makeItems images ratios)) _ k Hits
                (proj1 Hk) HK) as [Hlo Hhi].
  split; [exact Hlo | exact (Nat.le_trans _ _ _ Hhi (proj2 Hk))].
Qed.


End RowCount.

(** ** The contracts on sample inputs *)

Section Samples.
Local Open Scope Q_scope.

(** The example of the specification: 16:9 and 1:1 in 400 by 300 without
    gap give one row of height 144, widths 256 and 144, and a top offset
    of 78. *)
Example layout_of_two_images :
  let r := computeMosaicLayout Demo.images2 Demo.ratios 400 300 0 in
  map (fun item => (li_index item, Qred (li_x item), Qred (li_y item),
                    Qred (li_width item), Qred (li_height item)))
      (items r)
  = [(0%nat, 0, 0, 256, 144); (1%nat, 256, 0, 144, 144)]
  /\ Qred (totalHeight r) = 144 /\ scale r = 1
  /\ Qred (topOffset r) = 78 /\ Qred (leftOffset r) = 0.
Proof. vm_compute. repeat split. Qed.

Example picsum_sources :
  picsumDims Demo.picsum = Some (200%nat, 300%nat)
  /\ picsumDims "https://picsum.photos/seed/x/640/480/"
     = Some (640%nat, 480%nat)
  /\ picsumDims "https://picsum.photos/200/300" = None
  /\ picsumDims "https://example.org/id/237/200/300" = None
  /\ picsumDims "https://picsum.photos/id/237/200/300.jpg" = None
  /\ picsumDims "https://picsum.photos/id/237/200/0" = Some (200%nat, 0%nat).
Proof. vm_compute. repeat split. Qed.

Lemma Demo_ratios_pos : forall s v, Demo.ratios s = Some v -> 0 < v.
Proof.
  intros s v. unfold Demo.ratios.
  destruct (String.eqb s "a"); [inversion 1; reflexivity|].
  destruct (String.eqb s "b"); [inversion 1; reflexivity | discriminate].
Defined.

Lemma C2_greedy_partition_witness :
  let its := makeItems Demo64.triple Demo64.none in
  let rows := partitionRows its (sumRatios its) (Binary64.of_nat 2) in
  concat (map (@row_items Demo64.float) rows) = its
  /\ (1 <= length rows <= 2)%nat.
Proof.
  intros its rows.
  destruct (C2_greedy_partition its (sumRatios its) (Binary64.of_nat 2) 2)
    as (_ & _ & _ & _ & Hcat & Hlen).
  - vm_compute. discriminate.
  - lia.
  - intros c Hc H. destruct c as [|[|[|c]]].
    + lia.
    + vm_compute in H. discriminate H.
    + vm_compute in H. discriminate H.
    + vm_compute in Hc. lia.
  - split; [exact Hcat | exact Hlen].
Defined.

Lemma C3_row_geometry_witness :
  let rl := hd (mkRowLayout 0 []) Demo.rowLayouts4 in
  0 < rl_height rl
  /\ forall c,
       nth_error (rl_items rl) (length (rl_items rl) - 1) = Some c ->
       cell_x c + cell_width c == 400.
Proof.
  intros rl.
  destruct C3_row_geometry as (_ & _ & Hspan).
  apply (Hspan Demo.images4 Demo.ratios 400 400 10 Demo.row0 rl).
  - vm_compute. left. reflexivity.
  - vm_compute. discriminate.
  - vm_compute. reflexivity.
  - vm_compute. reflexivity.
Defined.


Lemma C5_scale_and_offsets_witness :
  let r := computeMosaicLayout Demo.images4 Demo.ratios 400 200 10 in
  (0 < scale r /\ scale r <= 1)
  /\ (scale r == 1 <-> totalHeight r <= 200)
  /\ 0 <= leftOffset r /\ 0 <= topOffset r.
Proof.
  intros r.
  destruct (C5_scale_and_offsets Demo.images4 Demo.ratios 400 200 10)
    as (Hrange & _ & _ & Hiff & _ & _ & Hleft & Htop).
  - discriminate.
  - reflexivity.
  - reflexivity.
  - repeat split; try apply Hrange; try apply Hiff; assumption.
Defined.

Lemma Demo_picsum_shape :
  PicsumShape (list_ascii_of_string Demo.picsum)
              (list_ascii_of_string "200") (list_ascii_of_string "300").
Proof.
  exists (list_ascii_of_string "https://"), (list_ascii_of_string "id/237"),
         [].
  split; [reflexivity|].
  split; [repeat constructor|].
  split; [discriminate|]. split; [repeat constructor|].
  split; [discriminate|]. split; [repeat constructor|].
  now left.
Defined.

(** C5 as written fails on the empty input: the early return fixes
    [topOffset] to 0, while the centring formula gives half the container
    height.  In binary64 it also fails on one picsum image of 300 by 500
    in a container of 400 by 400: the product of the total height and the
    scale is rounded to a number above the container height, and
    [topOffset] is negative. *)
Lemma C5_counterexample :
  (let r := computeMosaicLayout [] (fun _ => None) 400 300 2 in
   0 < 400 /\ 0 < 300
   /\ ~ topOffset r == (300 - totalHeight r * scale r) / 2)
  /\ (let cw := Binary64.of_nat 400 in
      let ch := Binary64.of_nat 400 in
      let r := computeMosaicLayout [Demo64.tall] Demo64.none cw ch
                                   (Binary64.of_nat 2) in
      (num_zero <? cw)%js = true /\ (num_zero <? ch)%js = true
      /\ (topOffset r <? num_zero)%js = true).
Proof.
  split.
  - cbv zeta. split; [reflexivity|]. split; [reflexivity|].
    vm_compute. discriminate.
  - vm_compute. repeat split.
Qed.


Lemma C6_ratio_priority_witness :
  ratioValue (num := Demo64.float) (fun _ => VOther true) "constructor"
  = VOther true
  /\ ratioValue (numericMapping Demo64.none)
                "https://picsum.photos/id/1/0/5"
     = VNumber num_default_ratio
  /\ ratioValue (numericMapping Demo64.none) Demo64.tall
     = VNumber (num_of_nat 300 / num_of_nat 500)%js.
Proof.
  split; [|split].
  - apply (proj1 (C6_ratio_priority (num := Demo64.float)
                                    (fun _ => VOther true) "constructor")).
    reflexivity.
  - destruct (C6_ratio_priority (numericMapping Demo64.none)
                                "https://picsum.photos/id/1/0/5")
      as (_ & Hfalls & _).
    apply Hfalls; [reflexivity|]. right.
    exists PrimFloat.zero. split; vm_compute; reflexivity.
  - destruct (C6_ratio_priority (numericMapping Demo64.none) Demo64.tall)
      as (_ & Hfalls & _).
    apply Hfalls; [reflexivity | vm_compute; reflexivity
                   | vm_compute; reflexivity].
Defined.


Lemma C9_raw_coordinates_plus_transform_witness :
  let ch := Binary64.of_nat 400 in
  let r := computeMosaicLayout [Demo64.tall] Demo64.none
                               (Binary64.of_nat 400) ch
                               (Binary64.of_nat 2) in
  (totalHeight r >? ch)%js = true.
Proof.
  intros ch r.
  destruct (C9_raw_coordinates_plus_transform
              [Demo64.tall] Demo64.none (Binary64.of_nat 400) ch
              (Binary64.of_nat 2))
    as (verticalGap & tops & _ & _ & _ & _ & _ & _ & _ & _ & Hbelow & _).
  - discriminate.
  - apply Hbelow; vm_compute; reflexivity.
Defined.

Lemma C10_divisors_positive_witness :
  Forall (fun r : Row Q => row_items r <> [] /\ 0 < sumRatio r)
         (mosaicRows Demo.images4 Demo.ratios 400 200)
  /\ Forall (fun divisor => 0 < divisor)
            (snd (computeMosaicLayoutT Demo.images4 Demo.ratios 400 200 10)).
Proof.
  destruct (C10_divisors_positive Demo.images4 Demo.ratios 400 200 10)
    as (_ & Hrows & Hdiv).
  - reflexivity.
  - reflexivity.
  - exact Demo_ratios_pos.
  - split; [apply Hrows; discriminate | exact Hdiv].
Defined.

(** C10 as written fails in binary64: for the positive width [2^-700] and
    the positive height [2^700] the container aspect ratio underflows to
    0, and the division of the total ratio by it has the divisor 0. *)
Lemma C10_underflow_counterexample :
  let run := computeMosaicLayoutT Demo64.images Demo64.ratios Demo64.tiny
                                  Demo64.vast (Binary64.of_nat 2) in
  (num_zero <? Demo64.tiny)%js = true
  /\ (num_zero <? Demo64.vast)%js = true
  /\ (num_zero <? Binary64.of_nat 2)%js = true
  /\ (forall s v, Demo64.ratios s = Some v -> (num_zero <? v)%js = true)
  /\ fst run
     = computeMosaicLayout Demo64.images Demo64.ratios Demo64.tiny
                           Demo64.vast (Binary64.of_nat 2)
  /\ existsb (fun divisor => (divisor =? num_zero)%js) (snd run) = true.
Proof.
  cbv zeta. split; [vm_compute; reflexivity|].
  split; [vm_compute; reflexivity|].
  split; [vm_compute; reflexivity|]. split.
  - intros s v. unfold Demo64.ratios.
    destruct (String.eqb s "a"); [intros [= <-]; vm_compute; reflexivity|].
    destruct (String.eqb s "b"); [intros [= <-]; vm_compute; reflexivity|].
    discriminate.
  - split; vm_compute; reflexivity.
Qed.

End Samples.

(** ** The geometry of a well-formed layout

    What the items of a layout look like when the container is positive,
    the gap is not negative, the measured ratios are not negative and the
    container is wide enough for the gaps of a row. *)

Section Geometry.
Local Open Scope Q_scope.

Lemma resolveRatio_pos_of_nonneg (ratios : string -> option Q) src :
  (forall s v, ratios s = Some v -> 0 <= v) ->
  0 < resolveRatio ratios src.
Proof.
  intros Hnn.
  assert (Hurl : 0 < js_or (getAspectRatioFromUrl src) (3 # 2)).
  { apply (resolveRatio_pos (fun _ => None) src). discriminate. }
  unfold resolveRatio. destruct (ratios src) as [v|] eqn:E; [|exact Hurl].
  destruct (num_truthy v) eqn:Et; [|exact Hurl].
  pose proof (Hnn src v E) as Hv. qnum.
  apply negb_true_iff in Et. apply not_true_iff_false in Et.
  rewrite Qeq_bool_iff in Et. lra.
Qed.

Lemma makeItems_ratio_from (ratios : string -> option Q) images :
  forall i item,
    In item (mapi_from
               (fun src index => mkItem src index (resolveRatio ratios src))
               i images) ->
    item_ratio item = resolveRatio ratios (item_src item).
Proof.
  induction images as [|s l IH]; intros i item Hin; simpl in Hin;
    [contradiction|].
  destruct Hin as [<- | Hin]; [reflexivity | now apply (IH (S i))].
Qed.

Lemma in_concat_length {A : Type} (ls : list (list A)) (l : list A) :
  In l ls -> (length l <= length (concat ls))%nat.
Proof.
  induction ls as [|l0 ls IH]; intros Hin; [contradiction|].
  simpl. rewrite length_app. destruct Hin as [-> | Hin]; [lia|].
  specialize (IH Hin). lia.
Qed.

(** The rows of a well-formed input. *)
Lemma wellFormed_rows images ratios cw ch gap (row : Row Q) :
  wellFormed images ratios cw ch gap ->
  images <> [] ->
  In row (mosaicRows images ratios cw ch) ->
  row_items row <> []
  /\ sumRatio row = sumRatios (row_items row)
  /\ 0 < sumRatio row
  /\ Forall (fun item : Item Q => 0 < item_ratio item) (row_items row)
  /\ 0 < rowHeightOf row cw gap.
Proof.
  intros (Hcw & Hch & Hgap & Hnn & Hroom) Hne Hin.
  pose proof (mosaicRows_nonempty images ratios cw ch Hne) as Hnonempty.
  pose proof (mosaicRows_sums images ratios cw ch) as Hsums.
  pose proof (mosaicRows_concat images ratios cw ch Hne) as Hcat.
  rewrite Forall_forall in Hnonempty, Hsums.
  assert (Hitems : Forall (fun item : Item Q => 0 < item_ratio item)
                          (row_items row)).
  { apply Forall_forall. intros item Hitem.
    assert (Hmem : In item (makeItems images ratios)).
    { rewrite <- Hcat. eapply concat_incl; [|exact Hitem]. now apply in_map. }
    rewrite (makeItems_ratio_from ratios images 0%nat item Hmem).
    now apply resolveRatio_pos_of_nonneg. }
  assert (Hsum : 0 < sumRatio row).
  { rewrite (Hsums row Hin). apply sumRatios_pos; [now apply Hnonempty|].
    exact Hitems. }
  split; [now apply Hnonempty|]. split; [now apply Hsums|].
  split; [exact Hsum|]. split; [exact Hitems|].
  unfold rowHeightOf. qnum. apply Qlt_shift_div_l; [exact Hsum|].
  rewrite Qmult_0_l.
  assert (Hlen : (length (row_items row) <= length images)%nat).
  { rewrite <- (makeItems_length ratios images), <- Hcat.
    apply in_concat_length. now apply in_map. }
  assert (Hlen1 : (1 <= length (row_items row))%nat).
  { pose proof (Hnonempty row Hin). destruct (row_items row);
      [congruence | simpl; lia]. }
  assert (H1 : 1 <= inject_Z (Z.of_nat (length (row_items row)))).
  { change 1 with (inject_Z 1). rewrite <- Zle_Qle. lia. }
  assert (H2 : inject_Z (Z.of_nat (length (row_items row)))
               <= inject_Z (Z.of_nat (length images))).
  { rewrite <- Zle_Qle. lia. }
  nra.
Qed.

(** The cells of a row lie side by side from [currentX] on. *)
Lemma cellsFrom_bounds (rowHeight gap : Q) :
  0 < rowHeight -> 0 <= gap ->
  forall (its : list (Item Q)) currentX c,
    Forall (fun item : Item Q => 0 < item_ratio item) its ->
    In c (cellsFrom rowHeight gap currentX its) ->
    currentX <= cell_x c
    /\ 0 < cell_width c
    /\ cell_height c = rowHeight
    /\ cell_x c + cell_width c
       <= currentX + sumRatios its * rowHeight
          + (inject_Z (Z.of_nat (length its)) - 1) * gap.
Proof.
  intros Hh Hg. induction its as [|x rest IH]; intros currentX c Hall Hin;
    [contradiction|].
  inversion Hall as [|? ? Hx Hrest]; subst. cbv beta in Hx.
  assert (Hw : 0 < item_ratio x * rowHeight)
    by (apply Qmult_lt_0_compat; assumption).
  assert (Hsum : 0 <= sumRatios rest * rowHeight
                      + inject_Z (Z.of_nat (length rest)) * gap).
  { assert (0 <= inject_Z (Z.of_nat (length rest)))
      by (change 0 with (inject_Z 0); rewrite <- Zle_Qle; lia).
    assert (0 <= sumRatios rest).
    { destruct rest as [|y rest'].
      - unfold sumRatios. simpl. qnum. lra.
      - pose proof (sumRatios_pos (y :: rest') ltac:(discriminate) Hrest).
        lra. }
    assert (0 <= sumRatios rest * rowHeight)
      by (apply Qmult_le_0_compat; lra).
    assert (0 <= inject_Z (Z.of_nat (length rest)) * gap)
      by (apply Qmult_le_0_compat; lra).
    lra. }
  cbn [cellsFrom] in Hin. rewrite sumRatios_cons.
  change (length (x :: rest)) with (S (length rest)).
  rewrite inject_nat_succ.
  destruct Hin as [<- | Hin].
  - cbn [cell_x cell_width cell_height]. qnum.
    split; [lra|]. split; [exact Hw|]. split; [reflexivity|]. nra.
  - destruct rest as [|y rest']; [contradiction|].
    destruct (IH _ c Hrest Hin) as (H1 & H2 & H3 & H4). qnum.
    change (length (y :: rest')) with (S (length rest')) in H4.
    rewrite inject_nat_succ in H4.
    change (length (y :: rest')) with (S (length rest')).
    rewrite inject_nat_succ.
    split; [lra|]. split; [exact H2|]. split; [exact H3|]. nra.
Qed.

Lemma buildRow_ok images ratios cw ch gap (row : Row Q) :
  wellFormed images ratios cw ch gap ->
  images <> [] ->
  In row (mosaicRows images ratios cw ch) ->
  rowLayoutOk cw (buildRow row cw gap).
Proof.
  intros Hwf Hne Hin.
  destruct (wellFormed_rows images ratios cw ch gap row Hwf Hne Hin)
    as (Hitems & Hsum & Hpos & Hall & Hh).
  destruct Hwf as (Hcw & Hch & Hgap & Hnn & Hroom).
  unfold rowLayoutOk. rewrite buildRow_cells, buildRow_height.
  split; [exact Hh|]. split.
  { destruct (row_items row); [congruence | discriminate]. }
  apply Forall_forall. intros c Hc.
  destruct (cellsFrom_bounds _ gap Hh Hgap _ 0 c Hall Hc)
    as (Hx & Hw & Hht & Hend).
  split; [exact Hht|]. split; [exact Hx|]. split; [exact Hw|].
  assert (Hfull : 0 + sumRatios (row_items row) * rowHeightOf row cw gap
                  + (inject_Z (Z.of_nat (length (row_items row))) - 1) * gap
                  == cw).
  { unfold rowHeightOf. qnum. rewrite <- Hsum. field. lra. }
  lra.
Qed.

Lemma buildRows_ok images ratios cw ch gap :
  wellFormed images ratios cw ch gap ->
  images <> [] ->
  Forall (rowLayoutOk cw)
         (map (fun row => buildRow row cw gap)
              (mosaicRows images ratios cw ch)).
Proof.
  intros Hwf Hne. apply Forall_forall. intros rl Hrl.
  apply in_map_iff in Hrl. destruct Hrl as (row & <- & Hrow).
  now apply (buildRow_ok images ratios cw ch gap).
Qed.

Lemma heights_loop_shift (rls : list (RowLayout Q)) :
  forall a,
    fold_left (fun sum row => num_add sum (rl_height row)) rls a
    == a + sumRowHeightsOf rls.
Proof.
  unfold sumRowHeightsOf. qnum.
  induction rls as [|r rest IH]; intros a; simpl; [lra|].
  rewrite (IH (a + rl_height r)), (IH (0 + rl_height r)). lra.
Qed.

Lemma sumRowHeights_cons (r : RowLayout Q) rest :
  sumRowHeightsOf (r :: rest) == rl_height r + sumRowHeightsOf rest.
Proof.
  unfold sumRowHeightsOf at 1. simpl. rewrite heights_loop_shift. qnum. lra.
Qed.

Lemma sumRowHeights_nonneg cw (rls : list (RowLayout Q)) :
  Forall (rowLayoutOk cw) rls -> 0 <= sumRowHeightsOf rls.
Proof.
  induction 1 as [|r rest Hr _ IH].
  - unfold sumRowHeightsOf. simpl. qnum. lra.
  - rewrite sumRowHeights_cons. destruct Hr as (Hh & _). lra.
Qed.

(** The items of the stacked rows lie between [currentY] and the end of
    the last row. *)
Lemma stackFrom_bounds cw (verticalGap : Q) :
  0 <= verticalGap ->
  forall (rls : list (RowLayout Q)) currentY item,
    Forall (rowLayoutOk cw) rls ->
    In item (stackFrom verticalGap currentY rls) ->
    currentY <= li_y item
    /\ 0 < li_height item
    /\ li_y item + li_height item
       <= currentY + sumRowHeightsOf rls
          + verticalGap * (inject_Z (Z.of_nat (length rls)) - 1)
    /\ 0 <= li_x item /\ 0 < li_width item
    /\ li_x item + li_width item <= cw.
Proof.
  intros Hvg. induction rls as [|r rest IH]; intros currentY item Hall Hin;
    [contradiction|].
  inversion Hall as [|? ? Hr Hrest]; subst.
  pose proof (sumRowHeights_nonneg cw rest Hrest) as Hsum.
  destruct Hr as (Hh & _ & Hcells).
  assert (Hn : 0 <= inject_Z (Z.of_nat (length rest)))
    by (change 0 with (inject_Z 0); rewrite <- Zle_Qle; lia).
  assert (Hgaps : 0 <= verticalGap * inject_Z (Z.of_nat (length rest)))
    by (apply Qmult_le_0_compat; assumption).
  cbn [stackFrom] in Hin. rewrite sumRowHeights_cons.
  change (length (r :: rest)) with (S (length rest)).
  rewrite inject_nat_succ.
  apply in_app_or in Hin. destruct Hin as [Hin | Hin].
  - apply in_map_iff in Hin. destruct Hin as (c & <- & Hc).
    rewrite Forall_forall in Hcells.
    destruct (Hcells c Hc) as (Hht & Hx & Hw & Hend).
    cbn [placeCell li_x li_y li_width li_height]. rewrite Hht.
    split; [lra|]. split; [exact Hh|]. split; [|auto].
    lra.
  - destruct rest as [|r' rest']; [contradiction|].
    destruct (IH _ item Hrest Hin) as (H1 & H2 & H3 & H4). qnum.
    change (length (r' :: rest')) with (S (length rest')) in *.
    rewrite inject_nat_succ in *.
    split; [lra|]. split; [exact H2|]. split; [lra | exact H4].
Qed.

(** The vertical fit never shrinks the gap, and the total height is the
    sum of the row heights and of the gaps between the rows. *)
Lemma fitVertical_total (rls : list (RowLayout Q)) (gap ch : Q) :
  rls <> [] ->
  gap <= fst (fitVertical rls gap ch)
  /\ snd (fitVertical rls gap ch)
     == sumRowHeightsOf rls
        + fst (fitVertical rls gap ch)
          * (inject_Z (Z.of_nat (length rls)) - 1).
Proof.
  intros Hne.
  assert (Hrs : rowSpacingCountOf rls
                == inject_Z (Z.of_nat (length rls)) - 1).
  { destruct rls as [|r [|r' rest]]; [congruence| |].
    - rewrite rowSpacingCount_few by (simpl; lia). reflexivity.
    - apply rowSpacingCount_many. simpl. lia. }
  unfold fitVertical. qnum.
  destruct (Qltb 0 (rowSpacingCountOf rls)) eqn:E1; cbn [andb fst snd];
    [|split; [lra | rewrite Hrs; reflexivity]].
  destruct (Qltb (sumRowHeightsOf rls + gap * rowSpacingCountOf rls) ch)
    eqn:E2; cbn [fst snd]; [|split; [lra | rewrite Hrs; reflexivity]].
  apply Qltb_lt in E1, E2. split; [|rewrite Hrs; reflexivity].
  assert (0 < (ch - (sumRowHeightsOf rls + gap * rowSpacingCountOf rls))
              / rowSpacingCountOf rls)
    by (apply Qlt_shift_div_l; lra).
  lra.
Qed.

Ltac halves := unfold Qdiv; change (/ 2) with (1 # 2).

Lemma placeItem_inside images ratios cw ch gap item :
  wellFormed images ratios cw ch gap ->
  In item (items (computeMosaicLayout images ratios cw ch gap)) ->
  placedInside cw ch
    (placeItem (computeMosaicLayout images ratios cw ch gap) item).
Proof.
  intros Hwf. unfold placedInside.
  set (r := computeMosaicLayout images ratios cw ch gap).
  intros Hin. set (p := placeItem r item).
  destruct (list_eq_dec string_dec images []) as [Hempty | Hne].
  { subst images. contradiction. }
  pose proof (buildRows_ok images ratios cw ch gap Hwf Hne) as Hok.
  destruct Hwf as (Hcw & Hch & Hgap & Hnn & Hroom).
  subst p r. revert Hin.
  rewrite computeMosaicLayout_nonempty by assumption. cbv zeta.
  set (rls := map (fun row => buildRow row cw gap)
                  (mosaicRows images ratios cw ch)) in *.
  assert (Hrls : rls <> []).
  { pose proof (mosaicRows_count images ratios cw ch Hne) as Hc.
    subst rls. destruct (mosaicRows images ratios cw ch);
      [simpl in Hc; lia | discriminate]. }
  destruct (fitVertical_total rls gap ch Hrls) as (Hvg & Htotal).
  set (vg := fst (fitVertical rls gap ch)) in *.
  set (total := snd (fitVertical rls gap ch)) in *.
  destruct (scaleOf_range total ch Hch) as ((Hs0 & Hs1) & _ & _ & _ & Hfit).
  set (sc := scaleOf total ch) in *.
  unfold placeItem.
  cbn [items scale topOffset leftOffset placed_left placed_top placed_width
       placed_height].
  intros Hin.
  destruct (stackFrom_bounds cw vg ltac:(lra) rls 0 item Hok Hin)
    as (Hy & Hh & Hbottom & Hx & Hw & Hright).
  qnum. halves.
  assert (A1 : 0 <= li_x item * sc) by (apply Qmult_le_0_compat; lra).
  assert (A2 : (li_x item + li_width item) * sc <= cw * sc)
    by (apply Qmult_le_compat_r; lra).
  assert (A3 : cw * sc <= cw) by nra.
  assert (A4 : 0 < li_width item * sc) by (apply Qmult_lt_0_compat; lra).
  assert (B1 : 0 <= li_y item * sc) by (apply Qmult_le_0_compat; lra).
  assert (B2 : (li_y item + li_height item) * sc <= total * sc)
    by (apply Qmult_le_compat_r; lra).
  assert (B4 : 0 < li_height item * sc) by (apply Qmult_lt_0_compat; lra).
  split; [split; lra|]. split; [split; lra|]. split; assumption.
Qed.

(** Every wrapper that [render] places lies within the container, and has
    a positive width and height. *)
Theorem placed_inside_container images ratios cw ch gap item :
  wellFormed images ratios cw ch gap ->
  let r := computeMosaicLayout images ratios cw ch gap in
  In item (items r) ->
  let p := placeItem r item in
  (0 <= placed_left p /\ placed_left p + placed_width p <= cw)
  /\ (0 <= placed_top p /\ placed_top p + placed_height p <= ch)
  /\ 0 < placed_width p /\ 0 < placed_height p.
Proof.
  intros Hwf r Hin p. exact (placeItem_inside _ _ _ _ _ _ Hwf Hin).
Qed.

(** *** No two items overlap *)

Lemma FOP_app {A : Type} (R : A -> A -> Prop) (l1 l2 : list A) :
  ForallOrdPairs R l1 -> ForallOrdPairs R l2 ->
  (forall a b, In a l1 -> In b l2 -> R a b) ->
  ForallOrdPairs R (l1 ++ l2).
Proof.
  induction 1 as [|a l Ha Hl IH]; intros H2 Hcross; [exact H2|].
  simpl. constructor.
  - apply Forall_app. split; [exact Ha|].
    apply Forall_forall. intros b Hb. apply Hcross; [now left | exact Hb].
  - apply IH; [exact H2|]. intros x y Hx Hy. apply Hcross; [now right|exact Hy].
Qed.

Lemma FOP_map {A B : Type} (f : A -> B) (R : B -> B -> Prop) (l : list A) :
  ForallOrdPairs (fun a b => R (f a) (f b)) l ->
  ForallOrdPairs R (map f l).
Proof.
  induction 1 as [|a l Ha Hl IH]; simpl; constructor; [|exact IH].
  apply Forall_map. exact Ha.
Qed.

(** A later cell of a row starts after the earlier one ends, the gap
    between them. *)
Lemma cellsFrom_separated (rowHeight gap : Q) :
  0 < rowHeight -> 0 <= gap ->
  forall (its : list (Item Q)) currentX,
    Forall (fun item : Item Q => 0 < item_ratio item) its ->
    ForallOrdPairs
      (fun c c' : Cell Q => cell_x c + cell_width c + gap <= cell_x c')
      (cellsFrom rowHeight gap currentX its).
Proof.
  intros Hh Hg. induction its as [|x rest IH]; intros currentX Hall;
    [constructor|].
  inversion Hall as [|? ? Hx Hrest]; subst.
  cbn [cellsFrom]. constructor; [|now apply IH].
  apply Forall_forall. intros c' Hc'. cbn [cell_x cell_width].
  destruct (cellsFrom_bounds rowHeight gap Hh Hg rest _ c' Hrest Hc')
    as (Hlow & _).
  qnum. lra.
Qed.

Lemma stackFrom_separated cw (gap verticalGap : Q) :
  0 <= gap -> gap <= verticalGap ->
  forall (rls : list (RowLayout Q)) currentY,
    Forall (rowLayoutOk cw) rls ->
    Forall (fun rl : RowLayout Q =>
              ForallOrdPairs
                (fun c c' : Cell Q =>
                   cell_x c + cell_width c + gap <= cell_x c')
                (rl_items rl)) rls ->
    ForallOrdPairs (separated gap) (stackFrom verticalGap currentY rls).
Proof.
  intros Hg Hvg. induction rls as [|r rest IH]; intros currentY Hok Hsep;
    [constructor|].
  inversion Hok as [|? ? Hr Hrest]; inversion Hsep as [|? ? Hrsep Hrestsep];
    subst.
  cbn [stackFrom]. apply FOP_app.
  - apply FOP_map.
    eapply (ForallOrdPairs_ind
              (fun l => ForallOrdPairs
                          (fun a b => separated gap (placeCell currentY a)
                                                (placeCell currentY b)) l)).
    + constructor.
    + intros a l Ha _ IHl. constructor; [|exact IHl].
      apply Forall_forall. intros b Hb. left. split; [reflexivity|].
      rewrite Forall_forall in Ha. exact (Ha b Hb).
    + exact Hrsep.
  - now apply IH.
  - intros a b Ha Hb. right.
    apply in_map_iff in Ha. destruct Ha as (c & <- & Hc).
    destruct Hr as (_ & _ & Hcells). rewrite Forall_forall in Hcells.
    destruct (Hcells c Hc) as (Hht & _).
    destruct (stackFrom_bounds cw verticalGap ltac:(lra) rest _ b Hrest Hb)
      as (Hlow & _).
    cbn [placeCell li_y li_height]. rewrite Hht. qnum. lra.
Qed.

Lemma buildRows_separated images ratios cw ch gap :
  wellFormed images ratios cw ch gap ->
  images <> [] ->
  Forall (fun rl : RowLayout Q =>
            ForallOrdPairs
              (fun c c' : Cell Q =>
                 cell_x c + cell_width c + gap <= cell_x c')
              (rl_items rl))
         (map (fun row => buildRow row cw gap)
              (mosaicRows images ratios cw ch)).
Proof.
  intros Hwf Hne. apply Forall_forall. intros rl Hrl.
  apply in_map_iff in Hrl. destruct Hrl as (row & <- & Hrow).
  destruct (wellFormed_rows images ratios cw ch gap row Hwf Hne Hrow)
    as (_ & _ & _ & Hall & Hh).
  destruct Hwf as (_ & _ & Hgap & _).
  rewrite buildRow_cells. now apply cellsFrom_separated.
Qed.

(** Of two items of a layout, the later one lies to the right of the
    earlier one in the same row, or in a row below it, and at least the gap
    away: no two items overlap. *)
Theorem items_do_not_overlap images ratios cw ch gap :
  wellFormed images ratios cw ch gap ->
  ForallOrdPairs (separated gap)
                 (items (computeMosaicLayout images ratios cw ch gap)).
Proof.
  intros Hwf.
  destruct (list_eq_dec string_dec images []) as [-> | Hne]; [constructor|].
  rewrite computeMosaicLayout_nonempty by assumption. cbv zeta. cbn [items].
  pose proof (buildRows_ok images ratios cw ch gap Hwf Hne) as Hok.
  pose proof (buildRows_separated images ratios cw ch gap Hwf Hne) as Hsep.
  set (rls := map (fun row => buildRow row cw gap)
                  (mosaicRows images ratios cw ch)) in *.
  assert (Hrls : rls <> []).
  { pose proof (mosaicRows_count images ratios cw ch Hne) as Hc.
    subst rls. destruct (mosaicRows images ratios cw ch);
      [simpl in Hc; lia | discriminate]. }
  destruct (fitVertical_total rls gap ch Hrls) as (Hvg & _).
  destruct Hwf as (_ & _ & Hgap & _).
  now apply (stackFrom_separated cw).
Qed.

(** *** The block is centred *)

Lemma cellsFrom_heights (rowHeight gap : Q) :
  forall (its : list (Item Q)) currentX,
    Forall (fun c : Cell Q => cell_height c = rowHeight)
           (cellsFrom rowHeight gap currentX its).
Proof.
  induction its as [|x rest IH]; intros currentX; simpl; constructor;
    [reflexivity | apply IH].
Qed.

Lemma buildRows_shape images ratios cw ch gap :
  images <> [] ->
  Forall rowShape
         (map (fun row => buildRow row cw gap)
              (mosaicRows images ratios cw ch)).
Proof.
  intros Hne. apply Forall_forall. intros rl Hrl.
  apply in_map_iff in Hrl. destruct Hrl as (row & <- & Hrow).
  pose proof (mosaicRows_nonempty images ratios cw ch Hne) as Hnonempty.
  rewrite Forall_forall in Hnonempty. specialize (Hnonempty row Hrow).
  unfold rowShape. rewrite buildRow_cells, buildRow_height. split.
  - destruct (row_items row); [congruence | discriminate].
  - apply cellsFrom_heights.
Qed.

Lemma stackFrom_nonempty verticalGap (rls : list (RowLayout Q)) currentY :
  rls <> [] -> Forall rowShape rls ->
  stackFrom verticalGap currentY rls <> [].
Proof.
  intros Hne Hall. destruct rls as [|r rest]; [congruence|].
  inversion Hall as [|? ? (Hr & _) _]; subst. cbn [stackFrom].
  destruct (rl_items r); [congruence | discriminate].
Qed.

(** Where the last row ends. *)
Lemma stackFrom_last verticalGap :
  forall (rls : list (RowLayout Q)) currentY init item,
    Forall rowShape rls ->
    stackFrom verticalGap currentY rls = init ++ [item] ->
    li_y item + li_height item
    == currentY + sumRowHeightsOf rls
       + verticalGap * (inject_Z (Z.of_nat (length rls)) - 1).
Proof.
  induction rls as [|r rest IH]; intros currentY init item Hall E.
  - destruct init; discriminate.
  - inversion Hall as [|? ? (Hne & Hht) Hrest]; subst.
    rewrite sumRowHeights_cons.
    change (length (r :: rest)) with (S (length rest)).
    rewrite inject_nat_succ. cbn [stackFrom] in E.
    destruct rest as [|r' rest'].
    + cbn [stackFrom] in E. rewrite app_nil_r in E.
      destruct (exists_last Hne) as (cells & c & Ec).
      rewrite Ec, map_app in E. simpl in E.
      apply app_inj_tail in E. destruct E as [_ <-].
      rewrite Ec in Hht. apply Forall_app in Hht. destruct Hht as [_ Hc].
      inversion Hc as [|? ? Hc0 _]; subst.
      cbn [placeCell li_y li_height]. rewrite Hc0.
      unfold sumRowHeightsOf. simpl. qnum. ring.
    + pose proof (stackFrom_nonempty verticalGap (r' :: rest')
                    (num_add currentY (num_add (rl_height r) verticalGap))
                    ltac:(discriminate) Hrest) as Hnonempty.
      destruct (exists_last Hnonempty) as (below & b & Eb).
      rewrite Eb, app_assoc in E. apply app_inj_tail in E.
      destruct E as [_ <-].
      rewrite (IH _ below b Hrest Eb). qnum.
      change (length (r' :: rest')) with (S (length rest')).
      rewrite inject_nat_succ. ring.
Qed.

(** For a well-formed input: the first wrapper is placed at the two
    offsets, and the last wrapper ends as far above the bottom of the
    container as the first one starts below its top: the raw block has
    the returned total height, and the placed block is centred
    vertically. *)
Theorem block_is_centred images ratios cw ch gap :
  wellFormed images ratios cw ch gap ->
  let r := computeMosaicLayout images ratios cw ch gap in
  (forall item rest,
      items r = item :: rest ->
      placed_left (placeItem r item) == leftOffset r
      /\ placed_top (placeItem r item) == topOffset r)
  /\ (forall init item,
         items r = init ++ [item] ->
         li_y item + li_height item == totalHeight r
         /\ placed_top (placeItem r item) + placed_height (placeItem r item)
            == ch - topOffset r).
Proof.
  intros _ r. split.
  - intros item rest E.
    destruct (first_item_origin images ratios cw ch gap item) as [Hx Hy].
    { fold r. now rewrite E. }
    unfold placeItem. cbn [placed_left placed_top]. rewrite Hx, Hy. qnum.
    split; ring.
  - intros init item E.
    destruct (list_eq_dec string_dec images []) as [Hempty | Hne].
    { subst images r. destruct init; discriminate. }
    pose proof (buildRows_shape images ratios cw ch gap Hne) as Hshape.
    subst r. revert E.
    rewrite computeMosaicLayout_nonempty by assumption. cbv zeta.
    set (rls := map (fun row => buildRow row cw gap)
                    (mosaicRows images ratios cw ch)) in *.
    assert (Hrls : rls <> []).
    { pose proof (mosaicRows_count images ratios cw ch Hne) as Hc.
      subst rls. destruct (mosaicRows images ratios cw ch);
        [simpl in Hc; lia | discriminate]. }
    destruct (fitVertical_total rls gap ch Hrls) as (_ & Htotal).
    set (vg := fst (fitVertical rls gap ch)) in *.
    set (total := snd (fitVertical rls gap ch)) in *.
    unfold placeItem.
    cbn [items totalHeight scale topOffset placed_top placed_height].
    intros E.
    pose proof (stackFrom_last vg rls 0 init item Hshape E) as Hlast.
    assert (Hbottom : li_y item + li_height item == total).
    { rewrite Hlast, Htotal. ring. }
    split; [exact Hbottom|]. qnum. halves.
    setoid_replace (li_height item) with (total - li_y item) by lra.
    ring.
Qed.

End Geometry.

(** ** Where an item of the layout comes from *)

Section Provenance.
Context {num : Type} {JS : JSNumber num}.

Lemma makeItems_in_from (ratios : string -> option num) images :
  forall i item,
    In item (mapi_from
               (fun src index => mkItem src index (resolveRatio ratios src))
               i images) ->
    exists k,
      item_index item = i + k
      /\ nth_error images k = Some (item_src item)
      /\ item_ratio item = resolveRatio ratios (item_src item).
Proof.
  induction images as [|s l IH]; intros i item Hin; simpl in Hin;
    [contradiction|].
  destruct Hin as [<- | Hin].
  - exists 0. simpl. auto.
  - destruct (IH (S i) item Hin) as (k & Hk & Hnth & Hr).
    exists (S k). simpl. split; [lia | auto].
Qed.

Lemma cellsFrom_in rowHeight gap :
  forall (its : list (Item num)) currentX c,
    In c (cellsFrom rowHeight gap currentX its) ->
    exists item,
      In item its
      /\ cell_index c = item_index item
      /\ cell_src c = item_src item
      /\ cell_width c = (item_ratio item * rowHeight)%js
      /\ cell_height c = rowHeight.
Proof.
  induction its as [|x rest IH]; intros currentX c Hin; [contradiction|].
  cbn [cellsFrom] in Hin. destruct Hin as [<- | Hin].
  - exists x. simpl. auto.
  - destruct (IH _ c Hin) as (item & Hitem & H). exists item.
    split; [now right | exact H].
Qed.

(** Every item of a layout carries the source found at its index in the
    list of images, and its width is its height times the ratio resolved
    for that source: the layout never distorts an image.  This holds for
    every implementation of the arithmetic. *)
Theorem item_provenance images (ratios : string -> option num) cw ch gap
        item :
  In item (items (computeMosaicLayout images ratios cw ch gap)) ->
  nth_error images (li_index item) = Some (li_src item)
  /\ li_width item
     = (resolveRatio ratios (li_src item) * li_height item)%js.
Proof.
  destruct (list_eq_dec string_dec images []) as [-> | Hne]; [contradiction|].
  rewrite computeMosaicLayout_nonempty by assumption. cbv zeta. cbn [items].
  intros Hin.
  apply (in_map (@cellOf num)) in Hin. rewrite stackFrom_cells in Hin.
  apply in_concat in Hin. destruct Hin as (cells & Hcells & Hc).
  apply in_map_iff in Hcells. destruct Hcells as (rl & <- & Hrl).
  apply in_map_iff in Hrl. destruct Hrl as (row & <- & Hrow).
  rewrite buildRow_cells in Hc. apply cellsFrom_in in Hc.
  destruct Hc as (it & Hit & Hidx & Hsrc & Hw & Hh).
  assert (Hmem : In it (makeItems images ratios)).
  { rewrite <- (mosaicRows_concat images ratios cw ch Hne).
    apply in_concat. exists (row_items row). split; [now apply in_map|].
    exact Hit. }
  apply makeItems_in_from in Hmem. destruct Hmem as (k & Hk & Hnth & Hr).
  cbn [cellOf cell_index cell_src cell_width cell_height] in *.
  rewrite Hidx, Hsrc, Hw, Hh, Hk, Hr. simpl. auto.
Qed.

End Provenance.

(** ** Dragging and resizing a wrapper *)

Section InteractionFacts.
Local Open Scope Q_scope.

Lemma read_eq (v : Q) : read v == v.
Proof.
  unfold read. qnum. destruct (Qeq_bool v 0) eqn:E; simpl; [|reflexivity].
  apply Qeq_bool_iff in E. now rewrite E.
Qed.

Lemma clamp_le_max (v lo hi : Q) : clamp v lo hi <= hi.
Proof. unfold clamp. qnum. apply Q.le_min_r. Qed.

Lemma clamp_ge_min (v lo hi : Q) : lo <= hi -> lo <= clamp v lo hi.
Proof.
  intros H. unfold clamp. qnum. apply Q.min_glb; [apply Q.le_max_r | exact H].
Qed.

Lemma clamp_inside (v lo hi : Q) : lo <= v <= hi -> clamp v lo hi == v.
Proof.
  intros [H1 H2]. unfold clamp. qnum.
  rewrite (Q.max_l v lo H1). apply Q.min_l. exact H2.
Qed.

Lemma clamp_crossed (v lo hi : Q) : hi <= lo -> clamp v lo hi == hi.
Proof.
  intros H. unfold clamp. qnum. apply Q.min_r.
  apply Qle_trans with lo; [exact H | apply Q.le_max_r].
Qed.

(** One move of the drag handler. *)
Lemma dragMove_spec (width height : Q) (d : DragState Q)
        (w : Wrapper Q) (clientX clientY : Q) :
  dragging d = true ->
  let w' := dragMove width height d w clientX clientY in
  let targetLeft := d_initialLeft d + (clientX - d_startX d) in
  let targetTop := d_initialTop d + (clientY - d_startY d) in
  (w_width w' = w_width w /\ w_height w' = w_height w)
  /\ (0 <= w_left w' /\ 0 <= w_top w')
  /\ (w_width w <= width -> w_left w' + w_width w' <= width)
  /\ (w_height w <= height -> w_top w' + w_height w' <= height)
  /\ (width <= w_width w -> w_left w' == 0)
  /\ (height <= w_height w -> w_top w' == 0)
  /\ (0 <= targetLeft <= width - w_width w -> w_left w' == targetLeft)
  /\ (0 <= targetTop <= height - w_height w -> w_top w' == targetTop).
Proof.
  intros Hd w' targetLeft targetTop. subst w'. unfold dragMove.
  rewrite Hd. cbn [negb]. cbv zeta.
  cbn [w_left w_top w_width w_height]. qnum.
  fold targetLeft targetTop.
  pose proof (read_eq (w_width w)) as Hrw.
  pose proof (read_eq (w_height w)) as Hrh.
  set (maxLeft := Qmax 0 (width - read (w_width w))).
  set (maxTop := Qmax 0 (height - read (w_height w))).
  assert (HmaxL : 0 <= maxLeft) by apply Q.le_max_l.
  assert (HmaxT : 0 <= maxTop) by apply Q.le_max_l.
  pose proof (clamp_le_max targetLeft 0 maxLeft) as HL1.
  pose proof (clamp_ge_min targetLeft 0 maxLeft HmaxL) as HL0.
  pose proof (clamp_le_max targetTop 0 maxTop) as HT1.
  pose proof (clamp_ge_min targetTop 0 maxTop HmaxT) as HT0.
  split; [split; reflexivity|]. split; [split; assumption|].
  split; [|split; [|split; [|split; [|split]]]].
  - intros Hfit.
    assert (maxLeft == width - w_width w)
      by (subst maxLeft; rewrite Q.max_r; lra).
    lra.
  - intros Hfit.
    assert (maxTop == height - w_height w)
      by (subst maxTop; rewrite Q.max_r; lra).
    lra.
  - intros Hwide.
    assert (maxLeft == 0) by (subst maxLeft; rewrite Q.max_l; lra).
    lra.
  - intros Hhigh.
    assert (maxTop == 0) by (subst maxTop; rewrite Q.max_l; lra).
    lra.
  - intros [H0 H1]. apply clamp_inside. split; [exact H0|].
    subst maxLeft. rewrite Q.max_r; lra.
  - intros [H0 H1]. apply clamp_inside. split; [exact H0|].
    subst maxTop. rewrite Q.max_r; lra.
Qed.

(** One dragging move.  The size of the wrapper is kept; the wrapper does
    not leave the container by its left or top edge, nor by its right or
    bottom edge if it fits into the container at all, and a wrapper that is
    too wide or too high is pinned to 0; as long as the pointer keeps the
    wrapper inside, the wrapper follows the pointer exactly. *)
Theorem drag_keeps_inside (width height : Q) (d : DragState Q)
        (w : Wrapper Q) (clientX clientY : Q) :
  dragging d = true ->
  let w' := dragMove width height d w clientX clientY in
  let targetLeft := d_initialLeft d + (clientX - d_startX d) in
  let targetTop := d_initialTop d + (clientY - d_startY d) in
  (w_width w' = w_width w /\ w_height w' = w_height w)
  /\ (0 <= w_left w' /\ 0 <= w_top w')
  /\ (w_width w <= width -> w_left w' + w_width w' <= width)
  /\ (w_height w <= height -> w_top w' + w_height w' <= height)
  /\ (width <= w_width w -> w_left w' == 0)
  /\ (height <= w_height w -> w_top w' == 0)
  /\ (0 <= targetLeft <= width - w_width w -> w_left w' == targetLeft)
  /\ (0 <= targetTop <= height - w_height w -> w_top w' == targetTop).
Proof. exact (dragMove_spec width height d w clientX clientY). Qed.

(** One resizing move.  The position of the wrapper is kept; the new
    width is at least the normalised minimum size, which is at least 10;
    width and height stay in the ratio the handle was attached with; if
    the room to the right of and below the wrapper allows the minimum size,
    the resized wrapper stays inside the container, and otherwise the
    wrapper gets the minimum size, room or no room. *)
Theorem resize_bounds (width height minImageSize ratio : Q)
        (r : ResizeState Q) (w : Wrapper Q) (clientX : Q) :
  resizing r = true -> 0 < ratio ->
  let m := normalizedMinSizeOf minImageSize in
  let w' := resizeMove width height m ratio r w clientX in
  (w_left w' = w_left w /\ w_top w' = w_top w)
  /\ (10 <= m /\ minImageSize <= m /\ m <= w_width w')
  /\ w_width w' == ratio * w_height w'
  /\ (m <= width - w_left w -> m <= (height - w_top w) * ratio ->
      w_left w' + w_width w' <= width
      /\ w_top w' + w_height w' <= height)
  /\ (width - w_left w <= m \/ (height - w_top w) * ratio <= m ->
      w_width w' == m).
Proof.
  intros Hr Hratio m w'. subst w'. unfold resizeMove.
  rewrite Hr. cbn [negb]. cbv zeta.
  cbn [w_left w_top w_width w_height]. qnum.
  pose proof (read_eq (w_left w)) as Hrl.
  pose proof (read_eq (w_top w)) as Hrt.
  set (roomX := width - read (w_left w)).
  set (roomY := (height - read (w_top w)) * ratio).
  set (bound := Qmin (Qmax m roomX) (Qmax m roomY)).
  set (raw := r_startWidth r + (clientX - r_startX r)).
  assert (Hm10 : 10 <= m /\ minImageSize <= m).
  { subst m. unfold normalizedMinSizeOf. qnum.
    split; [apply Q.le_max_l | apply Q.le_max_r]. }
  assert (Hbound : m <= bound)
    by (subst bound; apply Q.min_glb; apply Q.le_max_l).
  pose proof (clamp_ge_min raw m bound Hbound) as Hlo.
  pose proof (clamp_le_max raw m bound) as Hhi.
  assert (HroomY : roomY == (height - w_top w) * ratio)
    by (subst roomY; rewrite Hrt; reflexivity).
  assert (HroomX : roomX == width - w_left w)
    by (subst roomX; rewrite Hrl; reflexivity).
  split; [split; reflexivity|].
  split; [split; [apply Hm10 | split; [apply Hm10 | exact Hlo]]|].
  split; [field; lra|].
  split.
  - intros HX HY.
    assert (HbX : bound <= roomX).
    { subst bound. eapply Qle_trans; [apply Q.le_min_l|].
      rewrite Q.max_r; lra. }
    assert (HbY : bound <= roomY).
    { subst bound. eapply Qle_trans; [apply Q.le_min_r|].
      rewrite Q.max_r; lra. }
    split; [lra|].
    assert (Hdiv : clamp raw m bound / ratio <= height - w_top w).
    { apply Qle_shift_div_r; [exact Hratio|]. lra. }
    lra.
  - intros Hsmall.
    assert (Hb : bound == m).
    { subst bound. destruct Hsmall as [H | H].
      - rewrite (Q.max_l m roomX) by lra. apply Q.min_l. apply Q.le_max_l.
      - rewrite (Q.max_l m roomY) by lra. apply Q.min_r. apply Q.le_max_l. }
    lra.
Qed.

End InteractionFacts.

(** ** Gestures *)

Section Gestures.
Context {num : Type} {JS : JSNumber num}.

Lemma kind_eqb_eq a b : kind_eqb a b = true <-> a = b.
Proof. destruct a, b; simpl; split; congruence. Qed.

Lemma addListener_in k k' l :
  In k' (addListener k l) <-> k' = k \/ In k' l.
Proof.
  unfold addListener. destruct (existsb (kind_eqb k) l) eqn:E.
  - split; [now right|]. intros [-> | H]; [|exact H].
    apply existsb_exists in E. destruct E as (x & Hx & Hk).
    apply kind_eqb_eq in Hk. now subst.
  - rewrite in_app_iff. simpl. intuition congruence.
Qed.

Lemma addListener_NoDup k l : NoDup l -> NoDup (addListener k l).
Proof.
  intros Hl. unfold addListener. destruct (existsb (kind_eqb k) l) eqn:E;
    [exact Hl|].
  apply NoDup_app; [exact Hl | repeat constructor; auto |].
  intros x Hx [Hk | []]. subst x.
  assert (existsb (kind_eqb k) l = true); [|congruence].
  apply existsb_exists. exists k. split; [exact Hx|].
  now apply kind_eqb_eq.
Qed.

Lemma listeners_cases (l : list ListenerKind) :
  NoDup l ->
  l = [] \/ l = [DragListeners] \/ l = [ResizeListeners]
  \/ l = [DragListeners; ResizeListeners]
  \/ l = [ResizeListeners; DragListeners].
Proof.
  intros Hl.
  destruct l as [|a [|b [|c l']]]; [tauto | destruct a; tauto | |].
  - inversion Hl as [|? ? Ha _]; subst. simpl in Ha.
    destruct a, b; tauto.
  - exfalso.
    inversion Hl as [|? ? Ha Hl1]; inversion Hl1 as [|? ? Hb Hl2];
      inversion Hl2 as [|? ? Hc _]; subst.
    simpl in Ha, Hb. destruct a, b, c; tauto.
Qed.

Lemma pointerDown_listening enableDrag enableResize st button onHandle x y :
  listening st ->
  listening (pointerDown enableDrag enableResize st button onHandle x y).
Proof.
  intros (Hnd & Hd & Hr). unfold pointerDown, listening.
  destruct (Nat.eqb button 0) eqn:Eb.
  - destruct enableResize, onHandle, enableDrag; cbn [andb negb];
      unfold resizeDown, dragDown; rewrite ?Eb;
      cbn [negb i_listeners i_drag i_resize dragging resizing andb];
      rewrite ?addListener_in;
      (split; [try apply addListener_NoDup; exact Hnd|]);
      (split; [|]); try tauto;
      try (rewrite Hd; intuition congruence);
      try (rewrite Hr; intuition congruence);
      try (split; [intros _; reflexivity | intros _; now left]).
  - destruct enableResize, onHandle, enableDrag; cbn [andb negb];
      unfold resizeDown, dragDown; rewrite ?Eb;
      cbn [negb i_listeners i_drag i_resize andb]; tauto.
Qed.

Lemma removeListener_cases :
  removeListener DragListeners [DragListeners] = []
  /\ removeListener ResizeListeners [ResizeListeners] = []
  /\ removeListener DragListeners [DragListeners; ResizeListeners]
     = [ResizeListeners]
  /\ removeListener ResizeListeners [ResizeListeners; DragListeners]
     = [DragListeners].
Proof. repeat split. Qed.

(** After a [pointerup] nothing is listening and no gesture is going on;
    the wrapper is where it was. *)
Lemma pointerUp_idle (st : Interactive num) :
  listening st ->
  i_listeners (pointerUp st) = []
  /\ dragging (i_drag (pointerUp st)) = false
  /\ resizing (i_resize (pointerUp st)) = false
  /\ i_wrapper (pointerUp st) = i_wrapper st.
Proof.
  intros (Hnd & Hd & Hr).
  destruct st as [w [sx sy il it dg] [rx rw rs] l].
  cbn [i_listeners i_drag i_resize dragging resizing] in *.
  unfold pointerUp. cbn [i_listeners].
  destruct (listeners_cases l Hnd) as [-> | [-> | [-> | [-> | ->]]]];
    simpl in Hd, Hr.
  - destruct dg; [exfalso; apply (proj2 Hd); reflexivity|].
    destruct rs; [exfalso; apply (proj2 Hr); reflexivity|]. simpl. auto.
  - assert (dg = true) by (apply (proj1 Hd); now left). subst dg.
    destruct rs; [destruct (proj2 Hr eq_refl) as [?|[]]; discriminate|].
    simpl. auto.
  - assert (rs = true) by (apply (proj1 Hr); now left). subst rs.
    destruct dg; [destruct (proj2 Hd eq_refl) as [?|[]]; discriminate|].
    simpl. auto.
  - assert (dg = true) by (apply (proj1 Hd); now left).
    assert (rs = true) by (apply (proj1 Hr); right; now left).
    subst. simpl. auto.
  - assert (dg = true) by (apply (proj1 Hd); right; now left).
    assert (rs = true) by (apply (proj1 Hr); now left). subst. simpl. auto.
Qed.

Lemma pointerStep_listening width height m ratio enableDrag enableResize
      st ev :
  listening st ->
  listening (pointerStep width height m ratio enableDrag enableResize st ev).
Proof.
  intros Hst. destruct ev as [button onHandle x y | x y |]; cbn [pointerStep].
  - now apply pointerDown_listening.
  - exact Hst.
  - destruct (pointerUp_idle st Hst) as (Hl & Hd & Hr & _).
    unfold listening. rewrite Hl, Hd, Hr. simpl.
    split; [constructor|]. split; split; (contradiction || discriminate).
Qed.

Lemma runPointer_listening width height m ratio enableDrag enableResize evs :
  forall st,
    listening st ->
    listening (runPointer width height m ratio enableDrag enableResize evs st).
Proof.
  unfold runPointer. induction evs as [|ev evs IH]; intros st Hst;
    [exact Hst|].
  simpl. apply IH. now apply pointerStep_listening.
Qed.

Lemma fresh_listening (w : Wrapper num) : listening (freshInteractive w).
Proof.
  unfold listening, freshInteractive. simpl.
  split; [constructor|]. split; split; (contradiction || discriminate).
Qed.

(** While nothing is listening, events other than a press of the main
    button change nothing. *)
Lemma idle_ignores width height m ratio enableDrag enableResize evs :
  forall st,
    i_listeners st = [] ->
    Forall (fun ev => primaryDown ev = false) evs ->
    runPointer width height m ratio enableDrag enableResize evs st = st.
Proof.
  unfold runPointer. induction evs as [|ev evs IH]; intros st Hl Hall;
    [reflexivity|].
  inversion Hall as [|? ? Hev Hrest]; subst. simpl.
  assert (Hstep : pointerStep width height m ratio enableDrag enableResize
                              st ev = st).
  { destruct st as [w d r l]. cbn [i_listeners] in Hl. subst l.
    destruct ev as [button onHandle x y | x y |]; cbn [pointerStep].
    - cbn [primaryDown] in Hev. unfold pointerDown, dragDown, resizeDown.
      rewrite Hev.
      destruct enableResize, onHandle, enableDrag; reflexivity.
    - reflexivity.
    - reflexivity. }
  rewrite Hstep. now apply IH.
Qed.

(** A gesture ends at [pointerup]: whatever happened before, once the
    pointer is released the wrapper stays as it is, whatever moves,
    releases and presses of other buttons follow, until the main button is
    pressed again. *)
Theorem released_wrapper_stays width height m ratio enableDrag enableResize
        (w0 : Wrapper num) (before after : list (PointerEvent num)) :
  Forall (fun ev => primaryDown ev = false) after ->
  let run := runPointer width height m ratio enableDrag enableResize in
  let st := run before (freshInteractive w0) in
  i_wrapper (run after (pointerUp st)) = i_wrapper st
  /\ i_listeners (run after (pointerUp st)) = [].
Proof.
  intros Hafter run st.
  assert (Hst : listening st)
    by (apply runPointer_listening, fresh_listening).
  destruct (pointerUp_idle st Hst) as (Hl & _ & _ & Hw).
  subst run. rewrite (idle_ignores _ _ _ _ _ _ after (pointerUp st) Hl Hafter).
  auto.
Qed.

End Gestures.

(** ** Dragging never takes a wrapper out of the container *)

Section DragInvariant.
Local Open Scope Q_scope.

Lemma dragMove_inside width height d w x y :
  insideContainer width height w ->
  insideContainer width height (dragMove width height d w x y).
Proof.
  intros Hin. destruct (dragging d) eqn:Hd.
  - destruct Hin as ((Hl0 & Hl1) & (Ht0 & Ht1)).
    destruct (dragMove_spec width height d w x y Hd)
      as ((Hw & Hh) & (H0l & H0t) & Hfitw & Hfith & _).
    unfold insideContainer.
    split; (split; [assumption|]); [apply Hfitw | apply Hfith]; lra.
  - unfold dragMove. rewrite Hd. exact Hin.
Qed.

Lemma pointerUp_wrapper (st : Interactive Q) :
  i_wrapper (pointerUp st) = i_wrapper st
  /\ incl (i_listeners (pointerUp st)) (i_listeners st).
Proof.
  unfold pointerUp.
  assert (Hgen : forall l (st' : Interactive Q),
    let st'' :=
      fold_left
        (fun (st' : Interactive Q) k =>
           match k with
           | DragListeners =>
               if negb (dragging (i_drag st')) then st'
               else mkInteractive (i_wrapper st') (dragUp (i_drag st'))
                      (i_resize st')
                      (removeListener DragListeners (i_listeners st'))
           | ResizeListeners =>
               if negb (resizing (i_resize st')) then st'
               else mkInteractive (i_wrapper st') (i_drag st')
                      (resizeUp (i_resize st'))
                      (removeListener ResizeListeners (i_listeners st'))
           end) l st' in
    i_wrapper st'' = i_wrapper st'
    /\ incl (i_listeners st'') (i_listeners st')).
  { induction l as [|k l IH]; intros st'; cbv zeta; simpl;
      [split; [reflexivity | apply incl_refl]|].
    match goal with
    | |- context [fold_left ?f l ?s] =>
        destruct (IH s) as (Hw & Hl); cbv zeta in Hw, Hl;
        rewrite Hw; split; [|eapply incl_tran; [exact Hl|]]
    end.
    - destruct k; [destruct (negb (dragging (i_drag st')))
                  | destruct (negb (resizing (i_resize st')))]; reflexivity.
    - destruct k; [destruct (negb (dragging (i_drag st')))
                  | destruct (negb (resizing (i_resize st')))];
        cbn [i_listeners]; try apply incl_refl;
        unfold removeListener; apply incl_filter. }
  apply Hgen.
Qed.

(** With dragging enabled and resizing not, a wrapper that lies inside the
    container lies inside it after every sequence of pointer events. *)
Theorem drag_never_leaves_container (width height m ratio : Q)
        (w0 : Wrapper Q) (evs : list (PointerEvent Q)) :
  insideContainer width height w0 ->
  insideContainer width height
    (i_wrapper (runPointer width height m ratio true false evs
                           (freshInteractive w0))).
Proof.
  intros Hin.
  assert (Hgen : forall evs st,
    insideContainer width height (i_wrapper st) ->
    Forall (eq DragListeners) (i_listeners st) ->
    insideContainer width height
      (i_wrapper (runPointer width height m ratio true false evs st))).
  { clear. unfold runPointer. induction evs as [|ev evs IH];
      intros st Hw Hl; [exact Hw|].
    simpl. apply IH.
    - destruct ev as [button onHandle x y | x y |]; cbn [pointerStep].
      + unfold pointerDown. cbn [andb].
        destruct (negb onHandle && Nat.eqb button 0); exact Hw.
      + unfold pointerMove. cbn [i_wrapper].
        revert Hw. generalize (i_wrapper st).
        induction Hl as [|k l <- _ IHl]; intros w Hw; [exact Hw|].
        simpl. apply IHl. now apply dragMove_inside.
      + now rewrite (proj1 (pointerUp_wrapper st)).
    - destruct ev as [button onHandle x y | x y |]; cbn [pointerStep].
      + unfold pointerDown. cbn [andb].
        destruct (negb onHandle && Nat.eqb button 0); cbn [i_listeners];
          [|exact Hl].
        unfold addListener. destruct (existsb _ _); [exact Hl|].
        apply Forall_app. split; [exact Hl | repeat constructor].
      + exact Hl.
      + rewrite Forall_forall in *. intros k Hk. apply Hl.
        now apply (proj2 (pointerUp_wrapper st)). }
  apply Hgen; [exact Hin | constructor].
Qed.

End DragInvariant.

(** ** The strings of the markup *)

Module MarkupFacts.
Import Markup.

Lemma trimStart_head s c t : trimStart s = c :: t -> is_space c = false.
Proof.
  induction s as [|a s IH]; simpl; [discriminate|].
  destruct (is_space a) eqn:E; [exact IH|]. intros H. inversion H; now subst.
Qed.

Lemma trimStart_id s :
  (forall c t, s = c :: t -> is_space c = false) -> trimStart s = s.
Proof.
  destruct s as [|a s]; [reflexivity|]. intros H. simpl.
  now rewrite (H a s eq_refl).
Qed.

Lemma trimStart_split s :
  exists spaces,
    s = spaces ++ trimStart s /\ Forall (fun c => is_space c = true) spaces.
Proof.
  induction s as [|a s (sp & Hs & Hsp)]; [exists []; auto|]. simpl.
  destruct (is_space a) eqn:E.
  - exists (a :: sp). split; [simpl; now f_equal | now constructor].
  - exists []. auto.
Qed.

Lemma trimStart_spaces spaces s :
  Forall (fun c => is_space c = true) spaces ->
  trimStart (spaces ++ s) = trimStart s.
Proof.
  induction 1 as [|a sp Ha _ IH]; [reflexivity|]. simpl. now rewrite Ha.
Qed.

Lemma trimStart_keeps s c t spaces :
  trimStart s = c :: t -> trimStart (s ++ spaces) = trimStart s ++ spaces.
Proof.
  induction s as [|a s IH]; simpl; [discriminate|].
  destruct (is_space a); [exact IH | reflexivity].
Qed.

Lemma trimEnd_spaces s spaces :
  Forall (fun c => is_space c = true) spaces ->
  trimEnd (s ++ spaces) = trimEnd s.
Proof.
  intros H. unfold trimEnd. rewrite rev_app_distr.
  rewrite trimStart_spaces; [reflexivity | now apply Forall_rev].
Qed.

Lemma trimEnd_last s t c : trimEnd s = t ++ [c] -> is_space c = false.
Proof.
  unfold trimEnd. intros H. apply (f_equal (@rev ascii)) in H.
  rewrite rev_involutive, rev_app_distr in H. simpl in H.
  now apply trimStart_head in H.
Qed.

Lemma trimEnd_prefix s : exists spaces, s = trimEnd s ++ spaces
  /\ Forall (fun c => is_space c = true) spaces.
Proof.
  destruct (trimStart_split (rev s)) as (sp & Hs & Hsp).
  exists (rev sp). split; [|now apply Forall_rev].
  unfold trimEnd. rewrite <- rev_app_distr, <- Hs. symmetry.
  apply rev_involutive.
Qed.

Lemma trim_noEdgeSpace s : noEdgeSpace (trim s).
Proof.
  unfold trim. split.
  - intros c t E.
    destruct (trimEnd_prefix (trimStart s)) as (sp & Hs & _).
    rewrite E in Hs. simpl in Hs. now apply trimStart_head in Hs.
  - intros t c E. now apply trimEnd_last in E.
Qed.

Lemma trim_id s : noEdgeSpace s -> trim s = s.
Proof.
  intros [Hhd Hlast]. unfold trim. rewrite (trimStart_id s Hhd).
  unfold trimEnd. rewrite trimStart_id; [apply rev_involutive|].
  intros c t E. apply (f_equal (@rev ascii)) in E.
  rewrite rev_involutive in E. simpl in E. now apply (Hlast (rev t)).
Qed.

Lemma trim_incl s c : In c (trim s) -> In c s.
Proof.
  unfold trim. intros H.
  destruct (trimStart_split s) as (sp & Hs & _).
  destruct (trimEnd_prefix (trimStart s)) as (sp' & Hs' & _).
  rewrite Hs, Hs'. apply in_or_app. right. apply in_or_app. now left.
Qed.

(** [trim] does not see white space added at the ends. *)
Lemma trim_padding before s after :
  Forall (fun c => is_space c = true) before ->
  Forall (fun c => is_space c = true) after ->
  trim (before ++ s ++ after) = trim s.
Proof.
  intros Hb Ha. unfold trim. rewrite trimStart_spaces by exact Hb.
  destruct (trimStart s) as [|c t] eqn:E.
  - destruct (trimStart_split s) as (sp & Hs & Hsp).
    rewrite E, app_nil_r in Hs. subst sp.
    rewrite trimStart_spaces by exact Hsp.
    destruct (trimStart_split after) as (sp' & Hs' & Hsp').
    assert (Hall : trimStart after = []).
    { destruct (trimStart after) as [|c t] eqn:E'; [reflexivity|].
      apply trimStart_head in E'.
      assert (In c after) by (rewrite Hs'; apply in_or_app; right; now left).
      rewrite Forall_forall in Ha. rewrite (Ha c H) in E'. discriminate. }
    now rewrite Hall.
  - rewrite (trimStart_keeps s c t after E), E.
    now apply trimEnd_spaces.
Qed.

(** *** [split] and [join] *)

Lemma splitOn_nonempty sep s : splitOn sep s <> [].
Proof.
  destruct s as [|c s]; simpl; [discriminate|].
  destruct (Ascii.eqb c sep); [discriminate|].
  destruct (splitOn sep s); discriminate.
Qed.

Lemma splitOn_pieces sep s :
  Forall (fun piece => ~ In sep piece) (splitOn sep s).
Proof.
  induction s as [|c s IH]; simpl; [constructor; auto|].
  destruct (Ascii.eqb c sep) eqn:E; [constructor; auto|].
  destruct (splitOn sep s) as [|piece pieces]; [constructor; auto|].
  - intros [H | []]. subst. rewrite Ascii.eqb_refl in E. discriminate.
  - inversion IH as [|? ? Hp Hps]; subst. constructor; [|exact Hps].
    intros [H | H]; [|contradiction].
    subst. rewrite Ascii.eqb_refl in E. discriminate.
Qed.

Lemma join_cons sep x l :
  l <> [] -> join sep (x :: l) = x ++ sep ++ join sep l.
Proof. destruct l; [congruence | reflexivity]. Qed.

Lemma join_head sep c piece pieces :
  join sep ((c :: piece) :: pieces) = c :: join sep (piece :: pieces).
Proof. destruct pieces; reflexivity. Qed.

(** Joining the pieces gives the string back. *)
Lemma join_splitOn sep s : join [sep] (splitOn sep s) = s.
Proof.
  induction s as [|c s IH]; [reflexivity|]. cbn [splitOn].
  pose proof (splitOn_nonempty sep s) as Hne.
  destruct (Ascii.eqb c sep) eqn:E.
  - apply Ascii.eqb_eq in E. subst c.
    rewrite join_cons by exact Hne. simpl. f_equal. exact IH.
  - destruct (splitOn sep s) as [|p ps]; [congruence|].
    rewrite join_head. f_equal. exact IH.
Qed.

Lemma splitOn_piece sep piece :
  ~ In sep piece -> splitOn sep piece = [piece].
Proof.
  induction piece as [|c t IH]; intros H; [reflexivity|]. simpl.
  destruct (Ascii.eqb c sep) eqn:E.
  - apply Ascii.eqb_eq in E. subst. exfalso. apply H. now left.
  - rewrite IH; [reflexivity|]. intros Hin. apply H. now right.
Qed.

Lemma splitOn_app sep piece rest :
  ~ In sep piece ->
  splitOn sep (piece ++ sep :: rest) = piece :: splitOn sep rest.
Proof.
  induction piece as [|c t IH]; intros H; simpl.
  - now rewrite Ascii.eqb_refl.
  - destruct (Ascii.eqb c sep) eqn:E.
    + apply Ascii.eqb_eq in E. subst. exfalso. apply H. now left.
    + rewrite IH; [reflexivity|]. intros Hin. apply H. now right.
Qed.

(** Splitting a joined list gives the list back, when no element holds the
    separator. *)
Lemma splitOn_join sep l :
  l <> [] -> Forall (fun piece => ~ In sep piece) l ->
  splitOn sep (join [sep] l) = l.
Proof.
  induction l as [|x rest IH]; intros Hne Hall; [congruence|].
  inversion Hall as [|? ? Hx Hrest]; subst.
  destruct rest as [|y rest'].
  - simpl. now apply splitOn_piece.
  - cbn [join]. simpl app. rewrite splitOn_app by exact Hx.
    f_equal. apply IH; [discriminate | exact Hrest].
Qed.

(** *** [parseImageList] *)

(** Every source that [parseImageList] returns is clean. *)
Theorem parseImageList_clean (value : jsString) (l : list jsString) :
  parseImageList (Some value) = Some l -> Forall cleanSource l.
Proof.
  unfold parseImageList. intros H. inversion H as [Hl]. clear H Hl.
  apply Forall_forall. intros src Hsrc. unfold filterBoolean in Hsrc.
  apply filter_In in Hsrc. destruct Hsrc as [Hsrc Hne].
  apply in_map_iff in Hsrc. destruct Hsrc as (piece & <- & Hpiece).
  split; [|split].
  - intros E. rewrite E in Hne. discriminate.
  - apply trim_noEdgeSpace.
  - intros Hin. apply trim_incl in Hin.
    pose proof (splitOn_pieces ","%char value) as Hall.
    rewrite Forall_forall in Hall. now apply (Hall piece Hpiece).
Qed.

Lemma clean_sources_kept (l : list jsString) :
  Forall cleanSource l -> filterBoolean (map trim l) = l.
Proof.
  induction 1 as [|src srcs (Hne & Hedge & _) _ IH]; [reflexivity|].
  simpl. rewrite (trim_id src Hedge).
  destruct src; [congruence|]. simpl. f_equal. exact IH.
Qed.

(** A list of clean sources survives the round trip through the markup:
    joined with commas and parsed, it comes back as it was. *)
Theorem parseImageList_round_trip (l : list jsString) :
  Forall cleanSource l ->
  parseImageList (Some (join [","%char] l)) = Some l.
Proof.
  intros Hclean. unfold parseImageList. f_equal.
  destruct l as [|x rest] eqn:El; [reflexivity|].
  rewrite splitOn_join;
    [|discriminate
     |eapply Forall_impl; [|exact Hclean]; intros a (_ & _ & Ha); exact Ha].
  now apply clean_sources_kept.
Qed.

(** *** [parseBooleanAttr] *)

Lemma lowerUnit_idem c : lowerUnit (lowerUnit c) = lowerUnit c.
Proof. destruct c as [[] [] [] [] [] [] [] []]; reflexivity. Qed.

Lemma lowerUnit_space c : is_space (lowerUnit c) = is_space c.
Proof. destruct c as [[] [] [] [] [] [] [] []]; reflexivity. Qed.

Lemma trimStart_lower s :
  trimStart (toLowerCase s) = toLowerCase (trimStart s).
Proof.
  induction s as [|c s IH]; [reflexivity|]. simpl.
  rewrite lowerUnit_space. destruct (is_space c); [exact IH | reflexivity].
Qed.

Lemma trimEnd_lower s :
  trimEnd (toLowerCase s) = toLowerCase (trimEnd s).
Proof.
  unfold trimEnd.
  replace (rev (toLowerCase s)) with (toLowerCase (rev s))
    by (unfold toLowerCase; apply map_rev).
  rewrite trimStart_lower. unfold toLowerCase. symmetry. apply map_rev.
Qed.

Lemma trim_lower s : trim (toLowerCase s) = toLowerCase (trim s).
Proof. unfold trim. now rewrite trimStart_lower, trimEnd_lower. Qed.

Lemma toLowerCase_idem s : toLowerCase (toLowerCase s) = toLowerCase s.
Proof.
  unfold toLowerCase. rewrite map_map. apply map_ext.
  intros c. apply lowerUnit_idem.
Qed.

Lemma trim_of_spaces spaces :
  Forall (fun c => is_space c = true) spaces -> trim spaces = [].
Proof.
  intros H. rewrite <- (app_nil_r spaces).
  change (spaces ++ []) with (spaces ++ [] ++ []).
  now rewrite (trim_padding spaces [] [] H (Forall_nil _)).
Qed.

(** [parseBooleanAttr] sees neither white space around the value nor the
    case of its letters. *)
Theorem parseBooleanAttr_insensitive (before value after : jsString) :
  Forall (fun c => is_space c = true) before ->
  Forall (fun c => is_space c = true) after ->
  parseBooleanAttr (Some (before ++ value ++ after))
  = parseBooleanAttr (Some value)
  /\ parseBooleanAttr (Some (toLowerCase value))
     = parseBooleanAttr (Some value).
Proof.
  intros Hb Ha. split.
  - unfold parseBooleanAttr. rewrite (trim_padding before value after Hb Ha).
    destruct value as [|c t].
    + destruct (nonEmpty (before ++ [] ++ after)); reflexivity.
    + replace (nonEmpty (before ++ (c :: t) ++ after)) with true
        by (destruct before; reflexivity).
      reflexivity.
  - unfold parseBooleanAttr.
    rewrite trim_lower, toLowerCase_idem.
    destruct value; reflexivity.
Qed.

(** *** [ensureBaseLayout] *)

Lemma splitSpaces_pieces : forall s in_run piece,
  (forall c, In c piece -> is_space c = false) ->
  Forall (fun p => forall c, In c p -> is_space c = false)
         (splitSpacesFrom in_run piece s).
Proof.
  induction s as [|a s IH]; intros in_run piece Hp; simpl.
  - constructor; [exact Hp | constructor].
  - destruct (is_space a) eqn:E.
    + destruct in_run; [now apply IH|].
      constructor; [exact Hp|]. apply IH. intros c [].
    + apply IH. intros c Hc. apply in_app_or in Hc.
      destruct Hc as [Hc | [<- | []]]; [now apply Hp | exact E].
Qed.

Lemma ascii_space_is_space c : is_ascii_space c = true -> is_space c = true.
Proof.
  destruct c as [[] [] [] [] [] [] [] []]; vm_compute; intros H;
    first [reflexivity | discriminate H].
Qed.

Lemma jsString_eqb_eq a b : jsString_eqb a b = true <-> a = b.
Proof.
  unfold jsString_eqb. rewrite String.eqb_eq. split; [|congruence].
  intros H. apply (f_equal list_ascii_of_string) in H.
  now rewrite !list_ascii_of_string_of_list_ascii in H.
Qed.

Lemma includes_In l s : includes l s = true <-> In s l.
Proof.
  unfold includes. rewrite existsb_exists. split.
  - intros (x & Hx & E). apply jsString_eqb_eq in E. now subst.
  - intros H. exists s. split; [exact H | now apply jsString_eqb_eq].
Qed.

Lemma classListAdd_valid classes token :
  validToken token ->
  classListAdd classes token
  = Some (if includes classes token then classes else classes ++ [token]).
Proof.
  intros [Hne Hsp]. unfold classListAdd.
  destruct token as [|c t]; [congruence|]. cbn [nonEmpty negb].
  destruct (existsb is_ascii_space (c :: t)) eqn:E.
  - apply existsb_exists in E. destruct E as (x & Hx & Hsx).
    apply ascii_space_is_space in Hsx. rewrite (Hsp x Hx) in Hsx.
    discriminate.
  - destruct (includes classes (c :: t)); reflexivity.
Qed.

Lemma addClasses_total : forall tokens classes,
  Forall validToken tokens ->
  exists classes',
    addClasses classes tokens = Some classes'
    /\ incl classes classes' /\ incl tokens classes'
    /\ (forall cls, In cls classes' -> In cls classes \/ In cls tokens)
    /\ (NoDup classes -> NoDup classes').
Proof.
  induction tokens as [|t ts IH]; intros classes Hall.
  - exists classes. simpl. split; [reflexivity|].
    split; [apply incl_refl|]. split; [intros x []|]. auto.
  - inversion Hall as [|? ? Ht Hts]; subst. simpl.
    rewrite (classListAdd_valid classes t Ht).
    set (classes1 := if includes classes t then classes else classes ++ [t]).
    assert (H1 : incl classes classes1 /\ In t classes1
                 /\ (forall cls, In cls classes1 -> In cls classes \/ cls = t)
                 /\ (NoDup classes -> NoDup classes1)).
    { subst classes1. destruct (includes classes t) eqn:E.
      - apply includes_In in E. split; [apply incl_refl|]. auto.
      - split; [apply incl_appl, incl_refl|].
        split; [apply in_or_app; right; now left|].
        split.
        + intros cls H. apply in_app_or in H.
          destruct H as [H | [<- | []]]; auto.
        + intros Hnd. apply NoDup_app; [exact Hnd | repeat constructor; auto|].
          intros x Hx [Hk | []]. subst x.
          apply includes_In in Hx. congruence. }
    destruct H1 as (Hincl & Hin & Hfrom & Hnd).
    destruct (IH classes1 Hts) as (classes' & E & Hi1 & Hi2 & Hf & Hn).
    exists classes'. split; [exact E|].
    split; [eapply incl_tran; eassumption|].
    split; [intros x [<- | Hx]; [now apply Hi1 | now apply Hi2]|].
    split; [|auto].
    intros cls Hc. destruct (Hf cls Hc) as [H | H]; [|right; now right].
    destruct (Hfrom cls H) as [H' | ->]; [now left | right; now left].
Qed.

Lemma addClasses_fixed : forall tokens classes,
  Forall validToken tokens -> incl tokens classes ->
  addClasses classes tokens = Some classes.
Proof.
  induction tokens as [|t ts IH]; intros classes Hall Hincl; [reflexivity|].
  inversion Hall as [|? ? Ht Hts]; subst. simpl.
  rewrite (classListAdd_valid classes t Ht).
  replace (includes classes t) with true
    by (symmetry; apply includes_In, Hincl; now left).
  apply IH; [exact Hts|]. intros x Hx. apply Hincl. now right.
Qed.

Lemma words_valid name :
  Forall validToken (filterBoolean (splitSpaces name)).
Proof.
  apply Forall_forall. intros token H. unfold filterBoolean in H.
  apply filter_In in H. destruct H as [H Hne]. split.
  - intros E. rewrite E in Hne. discriminate.
  - pose proof (splitSpaces_pieces name false [] (fun c (F : In c []) =>
                  match F with end)) as Hall.
    rewrite Forall_forall in Hall. now apply Hall.
Qed.

(** [ensureBaseLayout] never throws: it hands no empty token and no token
    with white space to the class list.  The classes of the target are
    kept, the classes added are words of the class name, and none is
    added twice; running it again, as every [update] does, changes
    nothing. *)
Theorem ensureBaseLayout_idempotent (target : BaseLayout)
        (className : option jsString) :
  exists target',
    ensureBaseLayout target className = Some target'
    /\ ensureBaseLayout target' className = Some target'
    /\ incl (b_classes target) (b_classes target')
    /\ (forall cls,
           In cls (b_classes target') ->
           In cls (b_classes target)
           \/ exists name,
                className = Some name /\ In cls (splitSpaces name)
                /\ validToken cls)
    /\ (forall name cls,
           className = Some name -> In cls (splitSpaces name) ->
           cls <> [] -> In cls (b_classes target'))
    /\ (NoDup (b_classes target) -> NoDup (b_classes target')).
Proof.
  unfold ensureBaseLayout. destruct className as [name|].
  - destruct (nonEmpty name) eqn:Ename; cbn [negb].
    + cbn [b_classes b_position b_overflow b_display].
      pose proof (words_valid name) as Hvalid.
      destruct (addClasses_total _ (b_classes target) Hvalid)
        as (classes' & E & Hi1 & Hi2 & Hf & Hn).
      rewrite E. eexists. split; [reflexivity|].
      cbn [b_classes b_position b_overflow b_display].
      rewrite (addClasses_fixed _ classes' Hvalid Hi2).
      split; [reflexivity|]. split; [exact Hi1|].
      split; [|split; [|exact Hn]].
      * intros cls Hc. destruct (Hf cls Hc) as [H | H]; [now left|].
        right. exists name. split; [reflexivity|].
        rewrite Forall_forall in Hvalid. split; [|now apply Hvalid].
        unfold filterBoolean in H. now apply filter_In in H.
      * intros name' cls Hname Hin Hne. inversion Hname; subst name'.
        apply Hi2. unfold filterBoolean. apply filter_In.
        split; [exact Hin|]. destruct cls; [congruence | reflexivity].
    + eexists. split; [reflexivity|]. cbn [b_classes].
      split; [reflexivity|]. split; [apply incl_refl|].
      split; [auto|]. split; [|auto].
      intros name' cls Hname Hin Hne. inversion Hname; subst name'.
      destruct name; [|discriminate]. simpl in Hin.
      destruct Hin as [<- | []]. congruence.
  - eexists. split; [reflexivity|]. cbn [b_classes].
    split; [reflexivity|]. split; [apply incl_refl|].
    split; [auto|]. split; [discriminate | auto].
Qed.

End MarkupFacts.

(** ** The mounted component *)

Section ComponentFacts.
Context {num : Type} {JS : JSNumber num}.

Lemma pendingHas_In pending src : pendingHas pending src = true <-> In src pending.
Proof.
  unfold pendingHas. rewrite existsb_exists. split.
  - intros (x & Hx & E). apply String.eqb_eq in E. now subst.
  - intros H. exists src. split; [exact H | apply String.eqb_refl].
Qed.

Lemma pendingDelete_In pending src s :
  In s (pendingDelete pending src) <-> In s pending /\ s <> src.
Proof.
  unfold pendingDelete. rewrite filter_In, negb_true_iff.
  split; intros [H1 H2]; (split; [exact H1|]).
  - intros ->. now rewrite String.eqb_refl in H2.
  - apply not_true_iff_false. rewrite String.eqb_eq. congruence.
Qed.

Lemma probe_loop (loadedRatios : string -> option num) :
  forall images pending started,
  exists new,
    fold_left (probeStep loadedRatios) images (pending, started)
    = (pending ++ new, started ++ new)
    /\ NoDup new
    /\ (forall src,
           In src new
           <-> In src images /\ needsProbe loadedRatios src
               /\ ~ In src pending).
Proof.
  induction images as [|src rest IH]; intros pending started.
  - exists []. rewrite !app_nil_r. split; [reflexivity|].
    split; [constructor|]. intros s. simpl. split; [contradiction|].
    intros (H & _). exact H.
  - cbn [fold_left].
    assert (Hskip :
      (truthyOpt (loadedRatios src) = true
       \/ truthyOpt (getAspectRatioFromUrl (num := num) src) = true
       \/ In src pending) ->
      probeStep loadedRatios (pending, started) src = (pending, started) ->
      exists new,
        fold_left (probeStep loadedRatios) rest
                  (probeStep loadedRatios (pending, started) src)
        = (pending ++ new, started ++ new)
        /\ NoDup new
        /\ (forall s,
               In s new
               <-> In s (src :: rest) /\ needsProbe loadedRatios s
                   /\ ~ In s pending)).
    { intros Hwhy Hstep. rewrite Hstep.
      destruct (IH pending started) as (new & E & Hnd & Hin).
      exists new. split; [exact E|]. split; [exact Hnd|].
      intros s. rewrite Hin. split.
      - intros (Hr & Hn & Hp). split; [now right | auto].
      - intros ([<- | Hr] & (Hl & Hu) & Hp); [|unfold needsProbe; auto].
        exfalso. destruct Hwhy as [H | [H | H]]; [congruence | congruence|].
        contradiction. }
    destruct (truthyOpt (loadedRatios src)) eqn:E1.
    { apply Hskip; [now left|]. unfold probeStep. now rewrite E1. }
    destruct (truthyOpt (getAspectRatioFromUrl (num := num) src)) eqn:E2.
    { apply Hskip; [right; now left|]. unfold probeStep.
      now rewrite E1, E2. }
    destruct (pendingHas pending src) eqn:E3.
    { apply Hskip; [right; right; now apply pendingHas_In|].
      unfold probeStep. now rewrite E1, E2, E3. }
    clear Hskip.
    assert (Hnot : ~ In src pending).
    { intros H. apply pendingHas_In in H. congruence. }
    replace (probeStep loadedRatios (pending, started) src)
      with (pending ++ [src], started ++ [src])
      by (unfold probeStep, pendingAdd; now rewrite E1, E2, E3).
    destruct (IH (pending ++ [src]) (started ++ [src]))
      as (new & E & Hnd & Hin).
    exists (src :: new). rewrite E, <- !app_assoc. split; [reflexivity|].
    split.
    + constructor; [|exact Hnd]. intros H. apply Hin in H.
      destruct H as (_ & _ & H). apply H. apply in_or_app. right. now left.
    + intros s. split.
      * intros [<- | H].
        -- split; [now left|]. split; [split; assumption | exact Hnot].
        -- apply Hin in H. destruct H as (Hr & Hn & Hp).
           split; [now right|]. split; [exact Hn|].
           intros Hs. apply Hp. apply in_or_app. now left.
      * intros ([<- | Hr] & Hn & Hp); [now left|].
        destruct (string_dec src s) as [-> | Hne]; [now left|].
        right. apply Hin. split; [exact Hr|]. split; [exact Hn|].
        intros Hs. apply in_app_or in Hs.
        destruct Hs as [Hs | [Hs | []]]; [contradiction | congruence].
Qed.

(** What [loadMissingRatios] does to the component. *)
Lemma loadMissingRatios_spec (c : Component num) :
  let c' := fst (loadMissingRatios c) in
  let started := snd (loadMissingRatios c) in
  c_pendingLoads c' = c_pendingLoads c ++ started
  /\ NoDup started
  /\ (forall src,
         In src started
         <-> In src (o_images (c_state c))
             /\ needsProbe (c_loadedRatios c) src
             /\ ~ In src (c_pendingLoads c))
  /\ c_state c' = c_state c /\ c_loadedRatios c' = c_loadedRatios c
  /\ c_destroyed c' = c_destroyed c /\ c_target c' = c_target c.
Proof.
  unfold loadMissingRatios.
  destruct (probe_loop (c_loadedRatios c) (o_images (c_state c))
                       (c_pendingLoads c) [])
    as (new & E & Hnd & Hin).
  rewrite E. cbn [fst snd c_pendingLoads c_state c_loadedRatios c_destroyed
                  c_target app].
  split; [reflexivity|]. split; [exact Hnd|]. split; [exact Hin|].
  repeat split.
Qed.

(** [loadMissingRatios] starts a probe for exactly the images that need
    one and have none pending, once each however often the image occurs;
    the sources probed join the pending set, and nothing else changes. *)
Theorem probes_started (c : Component num) :
  let c' := fst (loadMissingRatios c) in
  let started := snd (loadMissingRatios c) in
  c_pendingLoads c' = c_pendingLoads c ++ started
  /\ NoDup started
  /\ (forall src,
         In src started
         <-> In src (o_images (c_state c))
             /\ needsProbe (c_loadedRatios c) src
             /\ ~ In src (c_pendingLoads c))
  /\ c_state c' = c_state c /\ c_loadedRatios c' = c_loadedRatios c
  /\ c_destroyed c' = c_destroyed c /\ c_target c' = c_target c.
Proof. exact (loadMissingRatios_spec c). Qed.

(** *** The view is never stale *)

Lemma render_fresh (c : Component num) : fresh (render c).
Proof. left. repeat split. Qed.

Lemma loadMissingRatios_fresh (c : Component num) :
  fresh c -> fresh (fst (loadMissingRatios c)).
Proof.
  destruct (loadMissingRatios_spec c) as (_ & _ & _ & Hs & Hl & Hd & Ht).
  unfold fresh. now rewrite Hs, Hl, Hd, Ht.
Qed.

Lemma componentStep_fresh (c : Component num) ev :
  fresh c -> fresh (fst (componentStep c ev)).
Proof.
  intros Hc. destruct ev as [src nw nh | src | next |]; cbn [componentStep fst].
  - unfold onload. destruct (c_destroyed c) eqn:Ed.
    + unfold fresh in *.
      cbn [c_target c_state c_loadedRatios c_destroyed].
      rewrite Ed in Hc. exact Hc.
    + destruct (Nat.eqb nh 0); [|apply render_fresh].
      unfold fresh in *.
      cbn [c_target c_state c_loadedRatios c_destroyed].
      rewrite Ed in Hc. exact Hc.
  - exact Hc.
  - unfold update. apply loadMissingRatios_fresh, render_fresh.
  - right. split; reflexivity.
Qed.

Lemma runComponent_fresh evs : forall c : Component num,
  fresh c -> fresh (runComponent evs c).
Proof.
  unfold runComponent. induction evs as [|ev evs IH]; intros c Hc;
    [exact Hc|].
  simpl. apply IH. now apply componentStep_fresh.
Qed.

(** Whatever happens to a mounted component, its target shows the layout
    of the current images under the current options and the ratios
    measured so far, or nothing at all after a [destroy]: no completion of
    a probe and no update leaves an outdated layout behind. *)
Theorem view_never_stale (target : Target num) (options : Options num)
        (evs : list (Event num)) :
  let c := runComponent evs (fst (mountImgCollage target options)) in
  (t_content (c_target c) = renderContent (c_state c) (c_loadedRatios c)
   /\ t_width (c_target c) = Some (widthOf (c_state c))
   /\ t_height (c_target c) = Some (heightOf (c_state c)))
  \/ (c_destroyed c = true /\ t_content (c_target c) = Cleared).
Proof.
  intros c.
  assert (Hc : fresh c).
  { apply runComponent_fresh. unfold mountImgCollage.
    apply loadMissingRatios_fresh, render_fresh. }
  destruct Hc as [(Hw & Hh & Hcontent) | Hd]; [left | right]; auto.
Qed.

(** *** The pending set *)

Lemma loadMissingRatios_pendingOk (c : Component num) :
  pendingOk c -> pendingOk (fst (loadMissingRatios c)).
Proof.
  intros (Hnd & Hall).
  destruct (loadMissingRatios_spec c) as (Hp & Hs & Hin & _ & Hl & _).
  unfold pendingOk. rewrite Hp, Hl. split.
  - apply NoDup_app; [exact Hnd | exact Hs|].
    intros src Hsrc Hstarted. apply Hin in Hstarted.
    destruct Hstarted as (_ & _ & H). contradiction.
  - apply Forall_app. split; [exact Hall|].
    apply Forall_forall. intros src Hsrc. now apply Hin in Hsrc.
Qed.

Lemma pendingDelete_ok (c : Component num) src
      (loadedRatios' : string -> option num) :
  pendingOk c ->
  (forall s, s <> src -> loadedRatios' s = c_loadedRatios c s) ->
  NoDup (pendingDelete (c_pendingLoads c) src)
  /\ Forall (needsProbe loadedRatios') (pendingDelete (c_pendingLoads c) src).
Proof.
  intros (Hnd & Hall) Hsame. split.
  - unfold pendingDelete. now apply NoDup_filter.
  - apply Forall_forall. intros s Hs. apply pendingDelete_In in Hs.
    destruct Hs as [Hs Hne]. rewrite Forall_forall in Hall.
    destruct (Hall s Hs) as [Hl Hu]. unfold needsProbe.
    now rewrite (Hsame s Hne).
Qed.

Lemma componentStep_pendingOk (c : Component num) ev :
  pendingOk c -> pendingOk (fst (componentStep c ev)).
Proof.
  intros Hc. destruct ev as [src nw nh | src | next |]; cbn [componentStep fst].
  - unfold onload.
    destruct (c_destroyed c); [|destruct (Nat.eqb nh 0)]; unfold pendingOk;
      cbn [render c_pendingLoads c_loadedRatios];
      apply (pendingDelete_ok c src); try exact Hc; try reflexivity.
    intros s Hne. unfold setRatio.
    destruct (String.eqb s src) eqn:E; [|reflexivity].
    apply String.eqb_eq in E. contradiction.
  - unfold onerror, pendingOk. cbn [c_pendingLoads c_loadedRatios].
    now apply (pendingDelete_ok c src).
  - unfold update. apply loadMissingRatios_pendingOk.
    unfold pendingOk, render, ensureBase.
    destruct (Markup.ensureBaseLayout _ _); exact Hc.
  - unfold destroy, pendingOk. cbn [c_pendingLoads]. split; constructor.
Qed.

(** No source is pending twice, and a pending source is one that still
    needs its probe: it has no measured ratio in use and no ratio in its
    address. *)
Theorem pending_discipline (target : Target num) (options : Options num)
        (evs : list (Event num)) :
  let c := runComponent evs (fst (mountImgCollage target options)) in
  NoDup (c_pendingLoads c)
  /\ forall src,
       In src (c_pendingLoads c) -> needsProbe (c_loadedRatios c) src.
Proof.
  intros c.
  assert (Hc : pendingOk c).
  { subst c. unfold runComponent.
    assert (H0 : pendingOk (fst (mountImgCollage target options))).
    { unfold mountImgCollage. apply loadMissingRatios_pendingOk.
      unfold pendingOk, render, ensureBase.
      destruct (Markup.ensureBaseLayout _ _); cbn [c_pendingLoads];
        split; constructor. }
    revert H0. generalize (fst (mountImgCollage target options)).
    induction evs as [|ev evs IH]; intros c0 H0; [exact H0|].
    simpl. apply IH. now apply componentStep_pendingOk. }
  destruct Hc as (Hnd & Hall). split; [exact Hnd|].
  now apply Forall_forall.
Qed.

(** *** Completions that arrive after [destroy] *)

(** After [destroy], the completions of the probes that are still under
    way change nothing: the ratios stay as they were, the target stays
    cleared, nothing is pending and no probe is started. *)
Theorem late_completions_suppressed (c : Component num)
        (evs : list (Event num)) :
  Forall (fun ev => isCompletion ev = true) evs ->
  runComponent evs (destroy c) = destroy c.
Proof.
  intros Hall. unfold runComponent.
  assert (Hgen : forall c0 : Component num,
             c_destroyed c0 = true -> c_pendingLoads c0 = [] ->
             fold_left (fun c ev => fst (componentStep c ev)) evs c0 = c0).
  { induction Hall as [|ev evs Hev _ IH]; intros c0 Hd Hp; [reflexivity|].
    simpl.
    assert (Hstep : fst (componentStep c0 ev) = c0).
    { destruct c0 as [st lr pl d tg]. cbn [c_destroyed c_pendingLoads] in *.
      subst. destruct ev as [src nw nh | src | next |];
        try discriminate; reflexivity. }
    rewrite Hstep. now apply IH. }
  now apply Hgen.
Qed.

(** *** The ratios on record *)

Lemma componentStep_recorded (c : Component num) ev :
  recorded c -> recorded (fst (componentStep c ev)).
Proof.
  intros Hc. destruct ev as [src nw nh | src | next |]; cbn [componentStep fst].
  - unfold onload.
    destruct (c_destroyed c); [exact Hc|].
    destruct (Nat.eqb nh 0) eqn:Enh; [exact Hc|].
    apply Nat.eqb_neq in Enh.
    unfold recorded, render, setRatio. cbn [c_loadedRatios].
    intros s v. destruct (String.eqb s src); [|apply Hc].
    intros [= <-]. exists nw, nh. split; [exact Enh | reflexivity].
  - exact Hc.
  - unfold update, recorded.
    destruct (loadMissingRatios_spec
                (render (ensureBase
                           (mkComponent (mergeOptions (c_state c) next)
                                        (c_loadedRatios c) (c_pendingLoads c)
                                        (c_destroyed c) (c_target c)))))
      as (_ & _ & _ & _ & Hl & _).
    rewrite Hl. unfold render, ensureBase.
    destruct (Markup.ensureBaseLayout _ _); exact Hc.
  - exact Hc.
Qed.

Lemma mounted_recorded (target : Target num) (options : Options num) evs :
  recorded (runComponent evs (fst (mountImgCollage target options))).
Proof.
  assert (H0 : recorded (fst (mountImgCollage target options))).
  { unfold mountImgCollage, recorded.
    destruct (loadMissingRatios_spec
                (render (ensureBase
                           (mkComponent options (fun _ => None) [] false
                                        target))))
      as (_ & _ & _ & _ & Hl & _).
    rewrite Hl. unfold render, ensureBase.
    destruct (Markup.ensureBaseLayout _ _); cbn [c_loadedRatios];
      discriminate. }
  revert H0. generalize (fst (mountImgCollage target options)).
  unfold runComponent. induction evs as [|ev evs IH]; intros c Hc;
    [exact Hc|].
  simpl. apply IH. now apply componentStep_recorded.
Qed.

End ComponentFacts.

(** ** The component over the rationals *)

Section ComponentGeometry.
Local Open Scope Q_scope.

Lemma inject_nat_nonneg (n : nat) : 0 <= inject_Z (Z.of_nat n).
Proof.
  change 0 with (inject_Z 0). rewrite <- Zle_Qle. lia.
Qed.

Lemma loadMissingRatios_ratios (c : Component Q) :
  c_loadedRatios (fst (loadMissingRatios c)) = c_loadedRatios c.
Proof.
  now destruct (loadMissingRatios_spec c) as (_ & _ & _ & _ & Hl & _).
Qed.

Lemma componentStep_ratios (c : Component Q) ev :
  ratiosNonneg c -> ratiosNonneg (fst (componentStep c ev)).
Proof.
  intros Hc. destruct ev as [src nw nh | src | next |]; cbn [componentStep fst].
  - unfold onload.
    destruct (c_destroyed c); [exact Hc|].
    destruct (Nat.eqb nh 0) eqn:Enh; [exact Hc|].
    apply Nat.eqb_neq in Enh.
    unfold ratiosNonneg, render, setRatio. cbn [c_loadedRatios].
    intros s v. destruct (String.eqb s src); [|apply Hc].
    intros [= <-]. qnum.
    apply Qle_shift_div_l.
    + change 0 with (inject_Z 0). rewrite <- Zlt_Qlt. lia.
    + pose proof (inject_nat_nonneg nw). lra.
  - exact Hc.
  - unfold update, ratiosNonneg. rewrite loadMissingRatios_ratios.
    unfold render, ensureBase.
    destruct (Markup.ensureBaseLayout _ _); exact Hc.
  - exact Hc.
Qed.

Lemma runComponent_ratios evs : forall c : Component Q,
  ratiosNonneg c -> ratiosNonneg (runComponent evs c).
Proof.
  unfold runComponent. induction evs as [|ev evs IH]; intros c Hc;
    [exact Hc|].
  simpl. apply IH. now apply componentStep_ratios.
Qed.

Lemma mounted_ratios (target : Target Q) (options : Options Q) evs :
  ratiosNonneg (runComponent evs (fst (mountImgCollage target options))).
Proof.
  apply runComponent_ratios. unfold mountImgCollage, ratiosNonneg.
  rewrite loadMissingRatios_ratios. unfold render, ensureBase.
  destruct (Markup.ensureBaseLayout _ _); cbn [c_loadedRatios]; discriminate.
Qed.

(** A ratio gets on record only from a probe that reports a natural
    height other than 0, as the quotient of the natural width and height,
    whatever the arithmetic; in exact arithmetic such a quotient is not
    negative, and the ratio the layout works with is positive: a ratio of
    zero on record gives way to the ratio of the address or the default.
    The source is not the name of an inherited property, so that
    [loadedRatios[src]] is what is on record for it. *)
Theorem component_ratios_positive :
  (forall (num : Type) (JS : JSNumber num) (target : Target num)
          (options : Options num) (evs : list (Event num)) (src : string)
          (v : num),
      inheritedKey src = false ->
      c_loadedRatios (runComponent evs (fst (mountImgCollage target options)))
                     src
      = Some v ->
      exists naturalWidth naturalHeight : nat,
        naturalHeight <> 0%nat
        /\ v = (num_of_nat naturalWidth / num_of_nat naturalHeight)%js)
  /\ (forall (target : Target Q) (options : Options Q)
             (evs : list (Event Q)) (src : string),
         inheritedKey src = false ->
         0 < resolveRatio
               (c_loadedRatios
                  (runComponent evs (fst (mountImgCollage target options))))
               src).
Proof.
  split.
  - intros num JS target options evs src v _ Hv.
    exact (mounted_recorded target options evs src v Hv).
  - intros target options evs src _. apply resolveRatio_pos_of_nonneg.
    intros s v Hv.
    destruct (mounted_recorded target options evs s v Hv)
      as (nw & nh & Hnh & ->).
    qnum. apply Qle_shift_div_l.
    + change 0 with (inject_Z 0). rewrite <- Zlt_Qlt. lia.
    + pose proof (inject_nat_nonneg nw). lra.
Qed.

(** In every state a mounted component reaches, if no image it was ever
    given is the name of an inherited property and its current options
    are well-formed, every wrapper it shows lies within the container and
    has a positive width and height. *)
Theorem shown_wrappers_inside (target : Target Q) (options : Options Q)
        (evs : list (Event Q)) :
  plainSources (o_images options) ->
  Forall plainEvent evs ->
  let c := runComponent evs (fst (mountImgCollage target options)) in
  optionsOk (c_state c) ->
  forall wrappers w,
    t_content (c_target c) = Stage wrappers ->
    In w wrappers ->
    placedInside (widthOf (c_state c)) (heightOf (c_state c)) (wv_rect w).
Proof.
  intros _ _ c (Hw & Hh & Hgap & Hroom) wrappers w Hcontent Hin.
  assert (Hc : fresh c).
  { apply runComponent_fresh. unfold mountImgCollage.
    apply loadMissingRatios_fresh, render_fresh. }
  pose proof (mounted_ratios target options evs) as Hnn. fold c in Hnn.
  destruct Hc as [(_ & _ & Hview) | (_ & Hcleared)];
    [|rewrite Hcleared in Hcontent; discriminate].
  rewrite Hview in Hcontent. unfold renderContent in Hcontent.
  destruct (Nat.eqb (length (o_images (c_state c))) 0); [discriminate|].
  injection Hcontent as <-.
  apply in_map_iff in Hin. destruct Hin as (item & <- & Hitem).
  cbn [wrapperOf wv_rect].
  apply placeItem_inside; [|exact Hitem].
  repeat split; assumption.
Qed.

End ComponentGeometry.

(** ** The current layout and the first version *)

Section Versions.
Context {num : Type} {JS : JSNumber num}.
Local Open Scope js_scope.

Lemma V1_item_loop rowHeight gap currentY :
  forall (its : list (Item num)) acc currentX,
    fst (fold_left (V1.itemStep rowHeight gap currentY) its (acc, currentX))
    = acc ++ map (placeCell currentY) (cellsFrom rowHeight gap currentX its).
Proof.
  induction its as [|item rest IH]; intros acc currentX; simpl.
  - now rewrite app_nil_r.
  - rewrite IH, <- app_assoc. reflexivity.
Qed.

Lemma V1_row_loop containerWidth gap :
  forall (rows : list (Row num)) acc currentY,
    Forall (fun r : Row num => row_items r <> []) rows ->
    fold_left (V1.rowStep containerWidth gap) rows (acc, currentY)
    = (acc ++ stackFrom gap currentY
                        (map (fun row => buildRow row containerWidth gap)
                             rows),
       V1.yAfter gap currentY
                 (map (fun row => buildRow row containerWidth gap) rows)).
Proof.
  induction rows as [|row rest IH]; intros acc currentY Hall.
  - simpl. now rewrite app_nil_r.
  - inversion Hall as [|? ? Hrow Hrest]; subst.
    cbn [fold_left map stackFrom V1.yAfter]. unfold V1.rowStep at 2.
    destruct (row_items row) as [|i0 r0] eqn:E; [congruence|].
    cbn [length Nat.eqb]. rewrite <- E.
    rewrite V1_item_loop, IH by assumption.
    rewrite buildRow_cells, buildRow_height, <- app_assoc. reflexivity.
Qed.

Lemma V1_computeMosaicLayout_nonempty images (ratios : string -> option num)
      cw ch gap :
  images <> [] ->
  let rowLayouts :=
    map (fun row => buildRow row cw gap) (mosaicRows images ratios cw ch) in
  let currentY := V1.yAfter gap num_zero rowLayouts in
  let total := if currentY >? num_zero then currentY - gap else num_zero in
  let sc := scaleOf total ch in
  V1.computeMosaicLayout images ratios cw ch gap
  = mkLayoutResult (stackFrom gap num_zero rowLayouts) total sc
      ((ch - total * sc) / num_two)%js ((cw - cw * sc) / num_two)%js.
Proof.
  intros Hne. unfold V1.computeMosaicLayout.
  destruct images as [|s l]; [congruence|]. cbn [length Nat.eqb].
  rewrite V1_row_loop by (apply mosaicRows_nonempty; discriminate).
  reflexivity.
Qed.

End Versions.

Section VersionsRational.
Local Open Scope Q_scope.

Lemma stackFrom_moved_down (gap vg : Q) :
  gap <= vg ->
  forall (rls : list (RowLayout Q)) y y',
    y' <= y ->
    Forall2 (fun new old : LayoutItem Q =>
               cellOf new = cellOf old /\ li_y old <= li_y new)
            (stackFrom vg y rls) (stackFrom gap y' rls).
Proof.
  intros Hg. induction rls as [|rl rest IH]; intros y y' Hy; simpl;
    [constructor|].
  apply Forall2_app.
  - induction (rl_items rl) as [|c cs IHc]; simpl; constructor;
      [|exact IHc].
    split; [reflexivity | exact Hy].
  - apply IH. qnum. lra.
Qed.

(** The current layout has the items of the first version, each with the
    same index, source, [x], width and height, and never higher up: the
    only change is that rows may be moved down. *)
Theorem items_of_v1_only_move_down images (ratios : string -> option Q)
        (cw ch gap : Q) :
  Forall2 (fun new old : LayoutItem Q =>
             li_index new = li_index old /\ li_src new = li_src old
             /\ li_x new = li_x old /\ li_width new = li_width old
             /\ li_height new = li_height old /\ li_y old <= li_y new)
          (items (computeMosaicLayout images ratios cw ch gap))
          (items (V1.computeMosaicLayout images ratios cw ch gap)).
Proof.
  destruct (list_eq_dec string_dec images []) as [-> | Hne];
    [constructor|].
  rewrite computeMosaicLayout_nonempty, V1_computeMosaicLayout_nonempty
    by assumption.
  cbv zeta. cbn [items].
  set (rls := map (fun row => buildRow row cw gap)
                  (mosaicRows images ratios cw ch)).
  assert (Hrls : rls <> []).
  { pose proof (mosaicRows_count images ratios cw ch Hne) as Hc.
    subst rls. destruct (mosaicRows images ratios cw ch);
      [simpl in Hc; lia | discriminate]. }
  destruct (fitVertical_total rls gap ch Hrls) as (Hvg & _).
  eapply Forall2_impl;
    [|apply (stackFrom_moved_down gap _ Hvg rls 0 0); lra].
  intros new old [Hcell Hy]. unfold cellOf in Hcell.
  injection Hcell as H1 H2 H3 H4 H5. repeat split; assumption.
Qed.

Lemma yAfter_sum (gap : Q) (rls : list (RowLayout Q)) : forall y,
  V1.yAfter gap y rls
  == y + sumRowHeightsOf rls + gap * inject_Z (Z.of_nat (length rls)).
Proof.
  induction rls as [|rl rest IH]; intros y.
  - unfold V1.yAfter, sumRowHeightsOf. simpl. qnum.
    change (inject_Z 0) with 0. lra.
  - change (V1.yAfter gap y (rl :: rest))
      with (V1.yAfter gap (y + (rl_height rl + gap))%js rest).
    rewrite IH, sumRowHeights_cons. qnum.
    change (length (rl :: rest)) with (S (length rest)).
    rewrite inject_nat_succ. lra.
Qed.

Lemma scaleOf_proper (a b ch : Q) : a == b -> scaleOf a ch == scaleOf b ch.
Proof.
  intros E. unfold scaleOf. qnum.
  destruct (Qltb ch a) eqn:Ea, (Qltb ch b) eqn:Eb.
  - now rewrite E.
  - apply Qltb_lt in Ea.
    assert (~ ch < b) by (rewrite <- Qltb_lt; congruence). lra.
  - apply Qltb_lt in Eb.
    assert (~ ch < a) by (rewrite <- Qltb_lt; congruence). lra.
  - reflexivity.
Qed.

(** When the rows of the first version already reach the height of the
    container, or there is one row only, the current layout is the layout
    of the first version: the same items at the same places, the same
    total height and the same scale. *)
Theorem v1_layout_kept_when_filled images (ratios : string -> option Q)
        (cw ch gap : Q) :
  wellFormed images ratios cw ch gap ->
  let old := V1.computeMosaicLayout images ratios cw ch gap in
  let new := computeMosaicLayout images ratios cw ch gap in
  ch <= totalHeight old
  \/ length (mosaicRows images ratios cw ch) = 1%nat ->
  items new = items old
  /\ totalHeight new == totalHeight old
  /\ scale new == scale old.
Proof.
  intros Hwf old new Hfilled.
  destruct (list_eq_dec string_dec images []) as [Hempty | Hne].
  { subst images new old. repeat split; reflexivity. }
  pose proof (buildRows_ok images ratios cw ch gap Hwf Hne) as Hok.
  destruct Hwf as (Hcw & Hch & Hgap & Hnn & Hroom).
  subst new old. revert Hfilled.
  rewrite computeMosaicLayout_nonempty, V1_computeMosaicLayout_nonempty
    by assumption.
  cbv zeta. cbn [items totalHeight scale].
  set (rls := map (fun row => buildRow row cw gap)
                  (mosaicRows images ratios cw ch)) in *.
  assert (Hlen : length rls = length (mosaicRows images ratios cw ch))
    by (subst rls; apply length_map).
  rewrite <- Hlen.
  assert (Hrls : (1 <= length rls)%nat).
  { pose proof (mosaicRows_count images ratios cw ch Hne) as Hc. lia. }
  pose proof (sumRowHeights_nonneg cw rls Hok) as Hsum.
  pose proof (yAfter_sum gap rls 0) as Hy.
  assert (Hn : 1 <= inject_Z (Z.of_nat (length rls))).
  { change 1 with (inject_Z 1). rewrite <- Zle_Qle. lia. }
  assert (Hpos : 0 < sumRowHeightsOf rls).
  { destruct rls as [|rl rest]; [simpl in Hrls; lia|].
    inversion Hok as [|? ? Hrl Hrest]; subst.
    rewrite sumRowHeights_cons.
    pose proof (sumRowHeights_nonneg cw rest Hrest).
    destruct Hrl as (Hh & _). lra. }
  assert (Hgn : 0 <= gap * inject_Z (Z.of_nat (length rls)))
    by (apply Qmult_le_0_compat; lra).
  assert (Hcur : Qltb 0 (V1.yAfter gap 0 rls) = true)
    by (apply Qltb_lt; lra).
  qnum. rewrite Hcur.
  assert (Hold : V1.yAfter gap 0 rls - gap
                 == sumRowHeightsOf rls
                    + gap * (inject_Z (Z.of_nat (length rls)) - 1))
    by (rewrite Hy; lra).
  intros Hfilled.
  assert (Hfit : fitVertical rls gap ch
                 = (gap, sumRowHeightsOf rls + gap * rowSpacingCountOf rls)).
  { unfold fitVertical. qnum.
    destruct (Qltb 0 (rowSpacingCountOf rls)) eqn:E1; [|reflexivity].
    destruct (Qltb (sumRowHeightsOf rls + gap * rowSpacingCountOf rls) ch)
      eqn:E2; [|reflexivity].
    exfalso. apply Qltb_lt in E1, E2.
    destruct (Nat.eq_dec (length rls) 1) as [H1 | H1].
    - rewrite rowSpacingCount_few in E1 by lia. lra.
    - destruct (rowSpacingCount_many rls ltac:(lia)) as (Hrs & _).
      rewrite Hrs in E2.
      destruct Hfilled as [Hfilled | Hfilled]; [lra | lia]. }
  rewrite Hfit. cbn [fst snd].
  assert (Htotal : sumRowHeightsOf rls + gap * rowSpacingCountOf rls
                   == V1.yAfter gap 0 rls - gap).
  { rewrite Hold.
    destruct (Nat.eq_dec (length rls) 1) as [H1 | H1].
    - rewrite rowSpacingCount_few by lia. rewrite H1.
      change (inject_Z (Z.of_nat 1)) with 1. lra.
    - destruct (rowSpacingCount_many rls ltac:(lia)) as (Hrs & _).
      rewrite Hrs. reflexivity. }
  split; [reflexivity|]. split; [exact Htotal|].
  now apply scaleOf_proper.
Qed.

End VersionsRational.

(** ** The sample page *)

Section PageSamples.
Local Open Scope Q_scope.

Lemma Demo_wellFormed (ch : Q) :
  0 < ch -> wellFormed Demo.images4 Demo.ratios 400 ch 10.
Proof.
  intros Hch. unfold wellFormed.
  split; [reflexivity|]. split; [exact Hch|].
  split; [vm_compute; discriminate|]. split.
  - intros s v H. apply Qlt_le_weak. exact (Demo_ratios_pos s v H).
  - reflexivity.
Defined.

Lemma Demo_sources_clean : Forall Markup.cleanSource DemoPage.sources.
Proof.
  unfold DemoPage.sources.
  constructor; [|constructor; [|constructor]].
  - split; [discriminate|]. split.
    + change (Markup.str "a.jpg")
        with (Markup.trim (Markup.str "a.jpg")).
      apply MarkupFacts.trim_noEdgeSpace.
    + intros H. simpl in H.
      repeat (destruct H as [H | H]; [discriminate H|]). exact H.
  - split; [discriminate|]. split.
    + change (Markup.str "b.png")
        with (Markup.trim (Markup.str "b.png")).
      apply MarkupFacts.trim_noEdgeSpace.
    + intros H. simpl in H.
      repeat (destruct H as [H | H]; [discriminate H|]). exact H.
Defined.

Lemma placed_inside_container_witness :
  let r := computeMosaicLayout Demo.images4 Demo.ratios 400 400 10 in
  let item := hd (mkLayoutItem 0 ""%string 0 0 0 0) (items r) in
  In item (items r) /\ placedInside 400 400 (placeItem r item).
Proof.
  intros r item.
  assert (Hin : In item (items r)) by (vm_compute; left; reflexivity).
  split; [exact Hin|].
  exact (placed_inside_container Demo.images4 Demo.ratios 400 400 10 item
           (Demo_wellFormed 400 eq_refl) Hin).
Defined.

Lemma items_do_not_overlap_witness :
  ForallOrdPairs (separated 10)
    (items (computeMosaicLayout Demo.images4 Demo.ratios 400 400 10)).
Proof.
  exact (items_do_not_overlap Demo.images4 Demo.ratios 400 400 10
           (Demo_wellFormed 400 eq_refl)).
Defined.

Lemma block_is_centred_witness :
  let r := computeMosaicLayout Demo.images4 Demo.ratios 400 400 10 in
  let item := hd (mkLayoutItem 0 ""%string 0 0 0 0) (items r) in
  placed_left (placeItem r item) == leftOffset r
  /\ placed_top (placeItem r item) == topOffset r.
Proof.
  intros r item.
  destruct (block_is_centred Demo.images4 Demo.ratios 400 400 10
                             (Demo_wellFormed 400 eq_refl))
    as (Hfirst & _).
  apply (Hfirst item (tl (items r))). vm_compute. reflexivity.
Defined.

Lemma item_provenance_witness :
  let r := computeMosaicLayout Demo.images4 Demo.ratios 400 400 10 in
  let item := hd (mkLayoutItem 0 ""%string 0 0 0 0) (items r) in
  nth_error Demo.images4 (li_index item) = Some (li_src item)
  /\ li_width item
     = (resolveRatio Demo.ratios (li_src item) * li_height item)%js.
Proof.
  intros r item.
  apply (item_provenance Demo.images4 Demo.ratios 400 400 10 item).
  vm_compute. left. reflexivity.
Defined.

Lemma drag_keeps_inside_witness :
  let w' := dragMove 400 300 (mkDragState 15 25 10 20 true)
                     DemoPage.wrapper0 500 (-40) in
  w_left w' + w_width w' <= 400 /\ 0 <= w_top w'.
Proof.
  intros w'.
  destruct (drag_keeps_inside 400 300 (mkDragState 15 25 10 20 true)
                              DemoPage.wrapper0 500 (-40) eq_refl)
    as (_ & (_ & Htop) & Hright & _).
  split; [|exact Htop]. apply Hright. vm_compute. discriminate.
Defined.

Lemma resize_bounds_witness :
  let w' := resizeMove 400 300 (normalizedMinSizeOf 50) 2
                       (mkResizeState 100 100 true) DemoPage.wrapper0
                       1000 in
  w_left w' + w_width w' <= 400 /\ w_top w' + w_height w' <= 300.
Proof.
  intros w'.
  destruct (resize_bounds 400 300 50 2 (mkResizeState 100 100 true)
                          DemoPage.wrapper0 1000 eq_refl eq_refl)
    as (_ & _ & _ & Hin & _).
  apply Hin; vm_compute; discriminate.
Defined.

Lemma released_wrapper_stays_witness :
  let run := runPointer 400 300 50 2 true true in
  let st := run DemoPage.gesture (freshInteractive DemoPage.wrapper0) in
  i_wrapper (run [Move 0 0; Up; Down 2 false 1 1] (pointerUp st))
  = i_wrapper st.
Proof.
  intros run st.
  apply (released_wrapper_stays 400 300 50 2 true true DemoPage.wrapper0
           DemoPage.gesture [Move 0 0; Up; Down 2 false 1 1]).
  repeat constructor.
Defined.

Lemma drag_never_leaves_container_witness :
  insideContainer 400 300
    (i_wrapper (runPointer 400 300 50 2 true false DemoPage.gesture
                           (freshInteractive DemoPage.wrapper0))).
Proof.
  apply drag_never_leaves_container.
  unfold insideContainer. vm_compute. repeat split; discriminate.
Defined.

Lemma parseImageList_clean_witness :
  Forall Markup.cleanSource DemoPage.sources.
Proof.
  apply (MarkupFacts.parseImageList_clean
           (Markup.str " a.jpg , b.png,, ")).
  reflexivity.
Defined.

Lemma parseImageList_round_trip_witness :
  Markup.parseImageList (Some (Markup.join [","%char] DemoPage.sources))
  = Some DemoPage.sources.
Proof.
  apply MarkupFacts.parseImageList_round_trip. exact Demo_sources_clean.
Defined.

Lemma parseBooleanAttr_insensitive_witness :
  Markup.parseBooleanAttr
    (Some (Markup.str "  " ++ Markup.str "YES" ++ Markup.str " "))
  = Markup.parseBooleanAttr (Some (Markup.str "YES"))
  /\ Markup.parseBooleanAttr (Some (Markup.toLowerCase (Markup.str "YES")))
     = Markup.parseBooleanAttr (Some (Markup.str "YES")).
Proof.
  apply MarkupFacts.parseBooleanAttr_insensitive; repeat constructor.
Defined.

Lemma ensureBaseLayout_idempotent_witness :
  exists target',
    Markup.ensureBaseLayout (t_base DemoPage.target0)
                            (o_className DemoPage.options)
    = Some target'
    /\ NoDup (Markup.b_classes target').
Proof.
  destruct (MarkupFacts.ensureBaseLayout_idempotent
              (t_base DemoPage.target0) (o_className DemoPage.options))
    as (target' & Hfirst & _ & _ & _ & _ & Hnodup).
  exists target'. split; [exact Hfirst|]. apply Hnodup. constructor.
Defined.

Lemma probes_started_witness :
  let c := mkComponent DemoPage.options (fun _ => None) [] false
                       DemoPage.target0 in
  In "c"%string (snd (loadMissingRatios c)).
Proof.
  intros c.
  destruct (probes_started c) as (_ & _ & Hin & _).
  apply Hin. split; [vm_compute; right; left; reflexivity|].
  split; [split; vm_compute; reflexivity|]. intros [].
Defined.

Lemma pending_discipline_witness :
  let c := runComponent [Loaded "a"%string 1600 900]
                        (fst (mountImgCollage DemoPage.target0
                                              DemoPage.options)) in
  needsProbe (c_loadedRatios c) "c"%string.
Proof.
  intros c.
  destruct (pending_discipline DemoPage.target0 DemoPage.options
                               [Loaded "a"%string 1600 900])
    as (_ & Hneeds).
  apply Hneeds. vm_compute. left. reflexivity.
Defined.

Lemma late_completions_suppressed_witness :
  runComponent [Loaded "a"%string 1600 900; Failed "c"%string]
               (destroy DemoPage.mounted)
  = destroy DemoPage.mounted.
Proof.
  apply late_completions_suppressed. repeat constructor.
Defined.

Lemma component_ratios_positive_witness :
  let c := runComponent DemoPage.events
                        (fst (mountImgCollage DemoPage.target0
                                              DemoPage.options)) in
  (exists naturalWidth naturalHeight : nat,
      naturalHeight <> 0%nat
      /\ (num_of_nat (num := Q) 1600 / num_of_nat 900)%js
         = (num_of_nat naturalWidth / num_of_nat naturalHeight)%js)
  /\ 0 < resolveRatio (c_loadedRatios c) "a".
Proof.
  intros c. destruct component_ratios_positive as (Hrecorded & Hpositive).
  split.
  - apply (Hrecorded Q QNumber DemoPage.target0 DemoPage.options
                     DemoPage.events "a"%string
                     (num_of_nat 1600 / num_of_nat 900)%js).
    + reflexivity.
    + vm_compute. reflexivity.
  - apply Hpositive. reflexivity.
Defined.

Lemma shown_wrappers_inside_witness :
  let c := runComponent DemoPage.events
                        (fst (mountImgCollage DemoPage.target0
                                              DemoPage.options)) in
  let w := hd (mkWrapperView 0 ""%string (mkPlaced 0 0 0 0) false None)
              DemoPage.shown in
  In w DemoPage.shown
  /\ placedInside (widthOf (c_state c)) (heightOf (c_state c)) (wv_rect w).
Proof.
  intros c w.
  assert (Hin : In w DemoPage.shown) by (vm_compute; left; reflexivity).
  split; [exact Hin|].
  apply (shown_wrappers_inside DemoPage.target0 DemoPage.options
           DemoPage.events) with (wrappers := DemoPage.shown).
  - repeat constructor.
  - repeat constructor.
  - unfold optionsOk. vm_compute. repeat split; discriminate.
  - vm_compute. reflexivity.
  - exact Hin.
Defined.

Lemma v1_layout_kept_when_filled_witness :
  let old := V1.computeMosaicLayout Demo.images4 Demo.ratios 400 200 10 in
  let new := computeMosaicLayout Demo.images4 Demo.ratios 400 200 10 in
  items new = items old
  /\ totalHeight new == totalHeight old
  /\ scale new == scale old.
Proof.
  intros old new.
  apply (v1_layout_kept_when_filled Demo.images4 Demo.ratios 400 200 10).
  - exact (Demo_wellFormed 200 eq_refl).
  - left. vm_compute. discriminate.
Defined.

End PageSamples.
